(** * Consensus polishing core: Mutation algebra and Polish driver

    Shallow embedding of
      - src/src/Mutation.cpp              (Mutation, Translate, ApplyMutations,
                                           operator<< and operator std::string)
      - src/src/Polish.cpp                (Mutations, RepeatMutations, BestMutations,
                                           NearbyMutations, Polish, PolishRepeats)
      - include/pacbio/data/ChemistryMapping.h   (ChemistryComparer)
      - include/pacbio/consensus/Integrator.h    (the contract of Integrator::LL,
                                                  MaxElement)

    Conventions.
      - [size_t] is a 64-bit unsigned integer: a [Z] in [0, 2^64) whose
        arithmetic is reduced by [wrap]; [int] is a 32-bit signed integer
        reduced by [to_int].
      - [std::string] is a [list ascii].
      - C++ exceptions are the [Throw] branch of [result].
      - unbounded [while]/[do-while] loops take a [fuel : nat] and return
        [None] when it runs out; the theorems show that enough fuel exists. *)

From Stdlib Require Import ZArith List Ascii String Bool Lia QArith.
From Stdlib Require DecimalString DecimalN DecimalPos.
From stdpp Require Import base list sorting gmap strings.

Open Scope Z_scope.

(** ** Machine integers *)

Definition SIZE_MAX : Z := 2 ^ 64 - 1.

(** Reduction of a mathematical integer to [size_t]. *)
Definition wrap (x : Z) : Z := x mod 2 ^ 64.

(** Conversion of a [size_t] (or any integer) to a 32-bit [int]
    (two's complement truncation). *)
Definition to_int (x : Z) : Z := (x + 2 ^ 31) mod 2 ^ 32 - 2 ^ 31.

Definition is_size_t (x : Z) : Prop := 0 <= x <= SIZE_MAX.

(** A [bool] promoted to an integer, as in [End() + IsInsertion()]. *)
Definition b2z (b : bool) : Z := if b then 1 else 0.

(** ** Exceptions *)

Inductive exn : Type :=
| out_of_range
| invalid_argument
| InvalidEvaluatorException.

Inductive result (A : Type) : Type :=
| Ok (a : A)
| Throw (e : exn).
Arguments Ok {A} a.
Arguments Throw {A} e.

Definition bind {A B} (r : result A) (k : A -> result B) : result B :=
  match r with
  | Ok a => k a
  | Throw e => Throw e
  end.

(** ** std::string *)

Definition str : Type := list ascii.

Definition size (s : str) : Z := Z.of_nat (length s).

(** [std::string::substr(pos, len)]: throws when [pos > size()]. *)
Definition substr (s : str) (pos len : Z) : result str :=
  if size s <? pos then Throw out_of_range
  else Ok (take (Z.to_nat len) (drop (Z.to_nat pos) s)).

(** [std::string::insert(pos, b)]: throws when [pos > size()]. *)
Definition str_insert (s : str) (pos : Z) (b : str) : result str :=
  if size s <? pos then Throw out_of_range
  else Ok (take (Z.to_nat pos) s ++ b ++ drop (Z.to_nat pos) s).

(** [std::string::replace(pos, len, b)]: throws when [pos > size()];
    at most [size() - pos] characters are replaced. *)
Definition str_replace (s : str) (pos len : Z) (b : str) : result str :=
  if size s <? pos then Throw out_of_range
  else
    let n := Z.min len (size s - pos) in
    Ok (take (Z.to_nat pos) s ++ b ++ drop (Z.to_nat (pos + n)) s).

(** ** Mutation (Mutation.cpp) *)

Inductive MutationType : Type := DELETION | INSERTION | SUBSTITUTION.

Definition MutationType_eqb (a b : MutationType) : bool :=
  match a, b with
  | DELETION, DELETION | INSERTION, INSERTION | SUBSTITUTION, SUBSTITUTION => true
  | _, _ => false
  end.

#[global] Instance MutationType_eq_dec : EqDecision MutationType.
Proof. solve_decision. Defined.

(** The four data members of [class Mutation]. *)
Record Mutation : Type := mkMutation {
  bases_ : str;
  type_ : MutationType;
  start_ : Z;
  length_ : Z
}.

#[global] Instance Mutation_eq_dec : EqDecision Mutation.
Proof. solve_decision. Defined.

(** [Mutation(type, start, length)], used for deletions only. *)
Definition Mutation_Deletion (start length : Z) : Mutation :=
  mkMutation [] DELETION start length.

(** [Mutation(type, start, base)] with a single [char]. *)
Definition Mutation_of_char (type : MutationType) (start : Z) (base : ascii) : Mutation :=
  mkMutation [base] type start
    (if MutationType_eqb type INSERTION then 0 else 1).

(** [Mutation(type, start, bases)] with a [std::string]
    (the constructor asserts [bases_.length() > 0]). *)
Definition Mutation_of_string (type : MutationType) (start : Z) (bases : str) : Mutation :=
  mkMutation bases type start
    (if MutationType_eqb type INSERTION then 0 else size bases).

Definition Mutation_Insertion1 (start : Z) (base : ascii) : Mutation :=
  Mutation_of_char INSERTION start base.
Definition Mutation_Insertion (start : Z) (bases : str) : Mutation :=
  Mutation_of_string INSERTION start bases.
Definition Mutation_Substitution1 (start : Z) (base : ascii) : Mutation :=
  Mutation_of_char SUBSTITUTION start base.
Definition Mutation_Substitution (start : Z) (bases : str) : Mutation :=
  Mutation_of_string SUBSTITUTION start bases.

(** Modelled from the spec: the accessors of Mutation.h (the header is not
    part of the sources). [End() = start + length] in [size_t]; [LengthDiff]
    is [+bases.len()] for an insertion, [-length] for a deletion, [0] for a
    substitution. *)
Definition Start (m : Mutation) : Z := start_ m.
Definition Length (m : Mutation) : Z := length_ m.
Definition End (m : Mutation) : Z := wrap (start_ m + length_ m).
Definition Bases (m : Mutation) : str := bases_ m.
Definition Type_ (m : Mutation) : MutationType := type_ m.
Definition IsDeletion (m : Mutation) : bool := MutationType_eqb (type_ m) DELETION.
Definition IsInsertion (m : Mutation) : bool := MutationType_eqb (type_ m) INSERTION.
Definition IsSubstitution (m : Mutation) : bool := MutationType_eqb (type_ m) SUBSTITUTION.
Definition LengthDiff (m : Mutation) : Z :=
  match type_ m with
  | INSERTION => size (bases_ m)
  | DELETION => - length_ m
  | SUBSTITUTION => 0
  end.

(** Modelled from the spec: [Mutation::SiteComparer] of Mutation.h, the
    strict weak ordering by [(Start, End, type)] with the type priority
    Insertion < Substitution < Deletion. *)
Definition type_priority (t : MutationType) : Z :=
  match t with
  | INSERTION => 0
  | SUBSTITUTION => 1
  | DELETION => 2
  end.

Definition SiteComparer (lhs rhs : Mutation) : bool :=
  (Start lhs <? Start rhs)
  || ((Start lhs =? Start rhs)
      && ((End lhs <? End rhs)
          || ((End lhs =? End rhs)
              && (type_priority (type_ lhs) <? type_priority (type_ rhs))))).

(** [Mutation::Translate(start, length)], Mutation.cpp lines 72-94. *)
Definition Translate (m : Mutation) (start length : Z) : result (option Mutation) :=
  if (wrap (End m + b2z (IsInsertion m)) <? start)
     || (wrap (wrap (start + length) + b2z (IsInsertion m)) <=? Start m)
  then Ok None
  else
    let newStart := Z.max (Start m) start in
    let newLen := wrap (Z.min (End m) (wrap (start + length)) - newStart) in
    if IsInsertion m then
      Ok (Some (Mutation_Insertion (wrap (newStart - start)) (Bases m)))
    else if newLen =? 0 then Ok None
    else if IsDeletion m then
      Ok (Some (Mutation_Deletion (wrap (newStart - start)) newLen))
    else
      bind (substr (Bases m) (wrap (newStart - Start m)) newLen)
           (fun b => Ok (Some (Mutation_Substitution (wrap (newStart - start)) b))).

(** ** ApplyMutations (Mutation.cpp lines 164-182) *)

(** [std::sort(first, last, comp)]: the result is a permutation of the input
    in which no element is [comp]-smaller than an earlier one. The order of
    [comp]-equivalent elements is unspecified by the standard; it is modelled
    by a merge sort on the relation "not [comp y x]". On the lists of
    non-overlapping mutations considered below the sorted vector is unique
    (lemma [sorted_permutation_unique]), so the choice of the algorithm
    does not matter there. *)
Definition not_after (comp : Mutation -> Mutation -> bool) (x y : Mutation) : Prop :=
  comp y x = false.

#[global] Instance not_after_dec comp x y : Decision (not_after comp x y).
Proof. unfold not_after. apply _. Defined.

Definition std_sort (comp : Mutation -> Mutation -> bool) (l : list Mutation) : list Mutation :=
  merge_sort (not_after comp) l.

(** One step of the reverse loop: [insert] for insertions, [replace] otherwise. *)
Definition apply_one (m : Mutation) (tpl : str) : result str :=
  if IsInsertion m then str_insert tpl (Start m) (Bases m)
  else str_replace tpl (Start m) (Length m) (Bases m).

(** The loop runs from [crbegin] to [crend]: the last mutation of the sorted
    vector is applied first, which is what [foldr] does. *)
Definition apply_rev (tpl : str) (sorted : list Mutation) : result str :=
  foldr (fun m acc => bind acc (apply_one m)) (Ok tpl) sorted.

(** The vector is sorted in place, so the function returns the new string
    together with the vector as the caller sees it afterwards. *)
Definition ApplyMutations (oldTpl : str) (muts : list Mutation) : result str * list Mutation :=
  let sorted := std_sort SiteComparer muts in
  match sorted, oldTpl with
  | [], _ => (Ok oldTpl, sorted)
  | _, [] => (Ok oldTpl, sorted)
  | _, _ => (apply_rev oldTpl sorted, sorted)
  end.

(** String literals for examples. *)
Definition lit (s : string) : str := list_ascii_of_string s.

(** ** Scored mutations *)

(** Scores are [double] log-likelihoods; only their order is used by the
    driver, so they are embedded as rationals. *)
Definition Qlt_bool (a b : Q) : bool := negb (Qle_bool b a).

Record ScoredMutation : Type := mkScored {
  sm_mut : Mutation;
  Score : Q
}.

Definition WithScore (m : Mutation) (score : Q) : ScoredMutation := mkScored m score.

(** Modelled from the spec: [ScoredMutation::ScoreComparer] of Mutation.h,
    the comparison by score used to pick the highest-scoring candidate. *)
Definition ScoreComparer (lhs rhs : ScoredMutation) : bool :=
  Qlt_bool (Score lhs) (Score rhs).

(** [std::max_element(first, last, comp)] on a non-empty range starting
    with [x]: the first element that no later element exceeds. *)
Definition max_element {A} (comp : A -> A -> bool) (x : A) (xs : list A) : A :=
  fold_left (fun largest y => if comp largest y then y else largest) xs x.

(** ** BestMutations (Polish.cpp lines 180-201) *)

(** The predicate of [remove_if]. *)
Definition in_window (start end_ : Z) (m : ScoredMutation) : bool :=
  (start <=? End (sm_mut m)) && (Start (sm_mut m) <? end_).

Definition remove_if {A} (p : A -> bool) (l : list A) : list A :=
  List.filter (fun x => negb (p x)) l.

Definition window_start (separation : Z) (mut : Mutation) : Z :=
  if separation <? Start mut then wrap (Start mut - separation) else 0.

Definition window_end (separation : Z) (mut : Mutation) : Z :=
  wrap (End mut + separation).

Fixpoint BestMutations_loop (fuel : nat) (scoredMuts : list ScoredMutation)
    (separation : Z) (result : list Mutation) : option (list Mutation) :=
  match scoredMuts with
  | [] => Some result
  | x :: xs =>
    match fuel with
    | O => None
    | S fuel' =>
      let mut := max_element ScoreComparer x xs in
      let result' := result ++ [sm_mut mut] in
      let start := window_start separation (sm_mut mut) in
      let end_ := window_end separation (sm_mut mut) in
      BestMutations_loop fuel' (remove_if (in_window start end_) scoredMuts)
        separation result'
    end
  end.

Definition BestMutations (fuel : nat) (scoredMuts : list ScoredMutation)
    (separation : Z) : option (result (list Mutation)) :=
  if separation =? 0 then Some (Throw invalid_argument)
  else option_map Ok (BestMutations_loop fuel scoredMuts separation []).

(** ** Integrator (Integrator.h) *)

(** The narrow contract the driver needs from an Evaluator (the pair-HMM
    engine of one read, an external collaborator): whether it is in the
    VALID state, its likelihood for the current template, its likelihood
    under a hypothetical mutation ([None] when it cannot be computed), the
    transition to an invalid state, and the commit of accepted mutations. *)
Class EvaluatorOps (E : Type) : Type := {
  ev_is_valid : E -> bool;
  ev_LL : E -> Q;
  ev_LL_mut : E -> Mutation -> option Q;
  ev_invalidate : E -> E;
  ev_ApplyMutations : E -> list Mutation -> E;
  ev_invalidate_spec : forall e, ev_is_valid (ev_invalidate e) = false
}.

(** The data members [evals_] and [fwdTpl_] ([cfg_] and the reverse
    complement [revTpl_], which is kept in sync with [fwdTpl_], play no role
    in the driver). *)
Record Integrator (E : Type) : Type := mkIntegrator {
  evals_ : list E;
  fwdTpl_ : str
}.
Arguments mkIntegrator {E} _ _.
Arguments evals_ {E} _.
Arguments fwdTpl_ {E} _.

Definition NUL : ascii := "000"%char.

Section IntegratorModel.
Context {E : Type} `{EvaluatorOps E}.

(** Modelled from the spec: the member functions of Integrator.cpp, which
    is not part of the sources. [TemplateLength], [operator[]] and the
    conversion to [std::string] read the forward template. *)
Definition TemplateLength (ai : Integrator E) : Z := size (fwdTpl_ ai).

Definition base_at (ai : Integrator E) (i : Z) : ascii :=
  nth (Z.to_nat i) (fwdTpl_ ai) NUL.

(** Modelled from the spec: [Integrator::LL()], the sum of the
    log-likelihoods of the VALID Evaluators. *)
Definition Integrator_LL (ai : Integrator E) : Q :=
  foldr (fun e acc => if ev_is_valid e then (ev_LL e + acc)%Q else acc) 0%Q (evals_ ai).

(** Modelled from the spec: [Integrator::LL(mut)]. Integrator.h: "This
    method throws InvalidEvaluatorException, every time the likelihood
    can't be computed for one Evaluator; the respective Evaluator will be
    invalidated." The Evaluators are visited in order; the result is
    either the sum over the VALID ones, or the Evaluator list in which the
    first one that failed has been invalidated. *)
Fixpoint evals_LL_mut (evs : list E) (mut : Mutation) : Q + list E :=
  match evs with
  | [] => inl 0%Q
  | e :: rest =>
    if ev_is_valid e then
      match ev_LL_mut e mut with
      | None => inr (ev_invalidate e :: rest)
      | Some q =>
        match evals_LL_mut rest mut with
        | inl s => inl (q + s)%Q
        | inr rest' => inr (e :: rest')
        end
      end
    else
      match evals_LL_mut rest mut with
      | inl s => inl s
      | inr rest' => inr (e :: rest')
      end
  end.

(** State passing: the result of the call and the Integrator afterwards. *)
Definition Integrator_LL_mut (ai : Integrator E) (mut : Mutation)
    : result Q * Integrator E :=
  match evals_LL_mut (evals_ ai) mut with
  | inl s => (Ok s, ai)
  | inr evs => (Throw InvalidEvaluatorException, mkIntegrator evs (fwdTpl_ ai))
  end.

(** Modelled from the spec: [Integrator::ApplyMutations(muts)] commits the
    mutations to the current template and to every Evaluator. The vector
    is sorted in place by [ApplyMutations]. *)
Definition Integrator_ApplyMutations (ai : Integrator E) (muts : list Mutation)
    : result (Integrator E) * list Mutation :=
  let '(r, sorted) := ApplyMutations (fwdTpl_ ai) muts in
  (bind r (fun tpl =>
     Ok (mkIntegrator (map (fun e => ev_ApplyMutations e sorted) (evals_ ai)) tpl)),
   sorted).

(** Modelled from the spec: [Integrator::ApplyMutation(mut)]. *)
Definition Integrator_ApplyMutation (ai : Integrator E) (mut : Mutation)
    : result (Integrator E) :=
  fst (Integrator_ApplyMutations ai [mut]).

Definition valid_count (ai : Integrator E) : nat :=
  length (List.filter ev_is_valid (evals_ ai)).

(** *** Mutations (Polish.cpp lines 84-119) *)

Definition newDiploidMutation : str := ["Z"%char].

Definition candidate_bases (diploid : bool) : list ascii :=
  if diploid then ["Z"%char] else ["A"%char; "C"%char; "G"%char; "T"%char].

Definition neqb (a b : ascii) : bool := negb (Ascii.eqb a b).

(** [for (const char j : bases) if (j != c) muts->emplace_back(mk(i, j))] *)
Definition emplace_bases (mk : Z -> ascii -> Mutation) (bases : list ascii)
    (i : Z) (c : ascii) (muts : list Mutation) : list Mutation :=
  fold_left (fun acc j => if neqb j c then acc ++ [mk i j] else acc) bases muts.

(** The body of [for (size_t i = start; i < end; ++i)], iterated [count]
    times from [i]; returns the vector and the value of [last]. *)
Fixpoint Mutations_loop (ai : Integrator E) (bases : list ascii) (count : nat)
    (i : Z) (last : ascii) (muts : list Mutation) : list Mutation * ascii :=
  match count with
  | O => (muts, last)
  | S count' =>
    let curr := base_at ai i in
    let muts1 := emplace_bases Mutation_Insertion1 bases i last muts in
    let muts2 := if neqb curr last then muts1 ++ [Mutation_Deletion i 1] else muts1 in
    let muts3 := emplace_bases Mutation_Substitution1 bases i curr muts2 in
    Mutations_loop ai bases count' (i + 1) curr muts3
  end.

(** [void Mutations(muts, ai, start, end, diploid)]: appends to [muts]. *)
Definition Mutations_into (muts : list Mutation) (ai : Integrator E)
    (start end_ : Z) (diploid : bool) : list Mutation :=
  let bases := candidate_bases diploid in
  if start =? end_ then muts
  else
    let last := if 0 <? start then base_at ai (start - 1) else NUL in
    let '(muts', last') :=
      Mutations_loop ai bases (Z.to_nat (end_ - start)) start last muts in
    emplace_bases Mutation_Insertion1 bases end_ last' muts'.

Definition Mutations (ai : Integrator E) (start end_ : Z) (diploid : bool)
    : list Mutation :=
  Mutations_into [] ai start end_ diploid.

Definition Mutations_all (ai : Integrator E) (diploid : bool) : list Mutation :=
  Mutations ai 0 (TemplateLength ai) diploid.

End IntegratorModel.

(** ** Computations that may run out of fuel or throw *)

Definition comp (A : Type) : Type := option (result A).

Definition ret {A} (a : A) : comp A := Some (Ok a).

Definition raise {A} (e : exn) : comp A := Some (Throw e).

Definition cbind {A B} (c : comp A) (k : A -> comp B) : comp B :=
  match c with
  | None => None
  | Some (Throw e) => Some (Throw e)
  | Some (Ok a) => k a
  end.

Definition lift {A} (r : result A) : comp A := Some r.

Notation "'do' x <- c ;; k" := (cbind c (fun x => k))
  (at level 10, x name, c at level 99, k at level 200, only parsing).

(** ** Configuration and result records *)

(** Modelled from the spec: [PolishConfig], [RepeatConfig] (their
    constructors are in Polish.cpp) and [PolishResult] of Polish.h; the
    counters of a fresh [PolishResult] are zero, [hasConverged] is false.
    The diagnostic vectors and the diploid sites of [PolishResult] are not
    represented. *)
Record PolishConfig : Type := mkPolishConfig {
  MaximumIterations : Z;
  MutationSeparation : Z;
  MutationNeighborhood : Z;
  Diploid : bool
}.

Record RepeatConfig : Type := mkRepeatConfig {
  MaximumRepeatSize : Z;
  MinimumElementCount : Z;
  RepeatMaximumIterations : Z
}.

Record PolishResult : Type := mkPolishResult {
  hasConverged : bool;
  mutationsTested : Z;
  mutationsApplied : Z
}.

Definition PolishResult_init : PolishResult := mkPolishResult false 0 0.

Section RepeatCandidates.
Context {E : Type} `{EvaluatorOps E}.

(** *** RepeatMutations (Polish.cpp lines 134-165) *)

(** [tpl.compare(j, n, tpl, i, n) == 0] *)
Definition compare_eq (tpl : str) (j i n : Z) : result bool :=
  bind (substr tpl j n) (fun a =>
  bind (substr tpl i n) (fun b =>
  Ok (bool_decide (a = b)))).

(** [for (j = i + repeatSize; j + repeatSize <= end; j += repeatSize)] *)
Fixpoint count_elements (fuel : nat) (tpl : str) (repeatSize end_ i j nElem : Z)
    : comp Z :=
  if wrap (j + repeatSize) <=? end_ then
    match fuel with
    | O => None
    | S fuel' =>
      do same <- lift (compare_eq tpl j i repeatSize) ;;
      if (same : bool) then
        count_elements fuel' tpl repeatSize end_ i (wrap (j + repeatSize)) (wrap (nElem + 1))
      else ret nElem
    end
  else ret nElem.

(** [for (size_t i = start; i + repeatSize <= end;)] *)
Fixpoint repeat_scan (fuel F : nat) (tpl : str) (cfg : RepeatConfig)
    (repeatSize end_ i : Z) (muts : list Mutation) : comp (list Mutation) :=
  if wrap (i + repeatSize) <=? end_ then
    match fuel with
    | O => None
    | S fuel' =>
      do nElem <- count_elements F tpl repeatSize end_ i (wrap (i + repeatSize)) 1 ;;
      do muts' <-
        (if MinimumElementCount cfg <=? nElem then
           do unit_ <- lift (substr tpl i repeatSize) ;;
           ret (muts ++ [Mutation_Insertion i unit_; Mutation_Deletion i repeatSize])
         else ret muts) ;;
      let i' := if 1 <? nElem
                then wrap (i + wrap (wrap (repeatSize * wrap (nElem - 1)) + 1))
                else wrap (i + 1) in
      repeat_scan fuel' F tpl cfg repeatSize end_ i' muts'
    end
  else ret muts.

(** [for (repeatSize = 2; repeatSize <= cfg.MaximumRepeatSize; ++repeatSize)] *)
Fixpoint repeat_sizes (fuel F : nat) (tpl : str) (cfg : RepeatConfig)
    (start end_ repeatSize : Z) (muts : list Mutation) : comp (list Mutation) :=
  if repeatSize <=? MaximumRepeatSize cfg then
    match fuel with
    | O => None
    | S fuel' =>
      do muts' <- repeat_scan F F tpl cfg repeatSize end_ start muts ;;
      repeat_sizes fuel' F tpl cfg start end_ (wrap (repeatSize + 1)) muts'
    end
  else ret muts.

Definition RepeatMutations_into (F : nat) (muts : list Mutation) (ai : Integrator E)
    (cfg : RepeatConfig) (start end_ : Z) : comp (list Mutation) :=
  if (MaximumRepeatSize cfg <? 2) || (MinimumElementCount cfg <=? 0) then ret muts
  else
    do muts' <- repeat_sizes F F (fwdTpl_ ai) cfg start end_ 2 muts ;;
    ret (std_sort SiteComparer muts').

Definition RepeatMutations (F : nat) (ai : Integrator E) (cfg : RepeatConfig)
    : comp (list Mutation) :=
  RepeatMutations_into F [] ai cfg 0 (TemplateLength ai).

(** *** NearbyMutations (Polish.cpp lines 203-256) *)

(** [clamp = [len](const int i) { return max(0, min<int>(len, i)); }] *)
Definition clamp (len : Z) (i : Z) : Z := Z.max 0 (Z.min (to_int len) i).

(** [mutRange(mut, diff)]: the arithmetic is done in [size_t] and the
    results are converted to [int]. *)
Definition mutRange (len neighborhood : Z) (mut : Mutation) (diff : Z) : Z * Z :=
  let start := to_int (wrap (wrap (wrap diff + Start mut) - neighborhood)) in
  let end_ := to_int (wrap (wrap (wrap diff + End mut) + neighborhood)) in
  (clamp len start, clamp len end_).

(** [for (; ait != applied->cend() && ait->End() <= cit->Start(); ++ait)
       lengthDiff += ait->LengthDiff();] *)
Fixpoint advance (applied : list Mutation) (center : Mutation) (lengthDiff : Z)
    : list Mutation * Z :=
  match applied with
  | [] => ([], lengthDiff)
  | a :: rest =>
    if End a <=? Start center
    then advance rest center (to_int (lengthDiff + to_int (LengthDiff a)))
    else (applied, lengthDiff)
  end.

(** The loop over the remaining centers. [ranges_rev] is the vector
    [ranges] back to front, so that its head is [ranges.back()]. *)
Fixpoint nearby_ranges (len neighborhood : Z) (centers applied : list Mutation)
    (lengthDiff : Z) (ranges_rev : list (Z * Z)) (currEnd : Z) : list (Z * Z) :=
  match centers with
  | [] => rev ranges_rev
  | c :: cs =>
    let '(applied', lengthDiff') := advance applied c lengthDiff in
    let '(nextStart, nextEnd) := mutRange len neighborhood c lengthDiff' in
    if nextStart <=? currEnd then
      let ranges_rev' :=
        match ranges_rev with
        | (first, _) :: rs => (first, nextEnd) :: rs
        | [] => []
        end in
      nearby_ranges len neighborhood cs applied' lengthDiff' ranges_rev' currEnd
    else
      nearby_ranges len neighborhood cs applied' lengthDiff'
        ((nextStart, nextEnd) :: ranges_rev) nextEnd
  end.

(** Both vectors are sorted in place; the function returns the new
    candidates. *)
Definition NearbyMutations (applied centers : list Mutation) (ai : Integrator E)
    (neighborhood : Z) (diploid : bool) : list Mutation :=
  let len := TemplateLength ai in
  match std_sort SiteComparer centers with
  | [] => []
  | c :: cs =>
    let applied_sorted := std_sort SiteComparer applied in
    let '(applied', lengthDiff) := advance applied_sorted c 0 in
    let r0 := mutRange len neighborhood c lengthDiff in
    let ranges := nearby_ranges len neighborhood cs applied' lengthDiff [r0] (snd r0) in
    fold_left (fun result range =>
                 Mutations_into result ai (fst range) (snd range) diploid)
              ranges []
  end.

End RepeatCandidates.

(** ** The Polish driver (Polish.cpp lines 327-490) *)

Definition minCoverage : Z := 10.
Definition majorityFraction : Q := 75 # 100.
Definition significanceLevel : Q := 5 # 1000.
Definition minFractionMinor : Q := 25 # 100.

(** [muts.front()]; the driver only calls it on a non-empty vector. *)
Definition front (muts : list Mutation) : Mutation :=
  hd (Mutation_Deletion 0 0) muts.

Section PolishDriver.
Context {E : Type} `{EvaluatorOps E}.

(** Collaborators that are not part of the sources: [std::hash<string>],
    [Integrator::BestMutationHistogram] (an array of four (base, count)
    pairs), the binomial distribution function of Boost, with success
    probability [1 - errorRate], and [Data::detail::createAmbiguousBase]. *)
Variable hashFn : str -> Z.
Variable BestMutationHistogram : Integrator E -> Z -> MutationType -> list (ascii * Z).
Variable binomialCDF : Z -> Z -> Q.
Variable createAmbiguousBase : ascii -> ascii -> ascii.

Definition histogram_at (histogram : list (ascii * Z)) (k : nat) : ascii * Z :=
  nth k histogram (NUL, 0).

(** [ll = ai->LL(mut); if (ll > LL) scoredMuts.emplace_back(mut.WithScore(ll))] *)
Definition score_plain (ai : Integrator E) (LL : Q) (mut : Mutation)
    : result (option ScoredMutation) * Integrator E :=
  match Integrator_LL_mut ai mut with
  | (Ok ll, ai') =>
    (Ok (if Qlt_bool LL ll then Some (WithScore mut ll) else None), ai')
  | (Throw e, ai') => (Throw e, ai')
  end.

(** The binomial test on the sentinel of a nascent diploid site
    (lines 358-403). [Ok None] stands for [continue]. *)
Definition score_diploid (ai : Integrator E) (mut : Mutation)
    : result (option ScoredMutation) * Integrator E :=
  let histogram := BestMutationHistogram ai (Start mut) (type_ mut) in
  let coverage := fold_left (fun a b => a + snd b) histogram 0 in
  let h0 := histogram_at histogram 0 in
  let h1 := histogram_at histogram 1 in
  if coverage <? minCoverage then (Ok None, ai)
  else if Qlt_bool (inject_Z (snd h0 + snd h1)) (inject_Z coverage * majorityFraction)
  then (Ok None, ai)
  else
    let pValue := binomialCDF coverage (snd h0) in
    if Qlt_bool significanceLevel pValue then (Ok None, ai)
    else if Qlt_bool (inject_Z (snd h1)) (inject_Z coverage * minFractionMinor)
    then (Ok None, ai)
    else
      let newAmbiguousBase := createAmbiguousBase (fst h0) (fst h1) in
      let newMutation :=
        if MutationType_eqb (type_ mut) INSERTION
        then Mutation_Insertion1 (Start mut) newAmbiguousBase
        else Mutation_Substitution1 (Start mut) newAmbiguousBase in
      match Integrator_LL_mut ai newMutation with
      | (Ok ll, ai') => (Ok (Some (WithScore newMutation ll)), ai')
      | (Throw e, ai') => (Throw e, ai')
      end.

(** The body of [for (const auto& mut : muts)] after [++mutationsTested]. *)
Definition score_candidate (cfg : PolishConfig) (ai : Integrator E) (LL : Q)
    (mut : Mutation) : result (option ScoredMutation) * Integrator E :=
  if Diploid cfg && negb (MutationType_eqb (type_ mut) DELETION) then
    if bool_decide (Bases mut = newDiploidMutation) then score_diploid ai mut
    else score_plain ai LL mut
  else score_plain ai LL mut.

(** The [try] block (lines 352-416): one pass over [muts]. An exception
    leaves the pass at once; the Integrator it leaves behind is returned
    with it. *)
Fixpoint score_pass (cfg : PolishConfig) (ai : Integrator E) (LL : Q)
    (muts : list Mutation) (scoredMuts : list ScoredMutation) (mutationsTested : Z)
    : result (list ScoredMutation * Z) * Integrator E :=
  match muts with
  | [] => (Ok (scoredMuts, mutationsTested), ai)
  | mut :: rest =>
    let mutationsTested' := mutationsTested + 1 in
    match score_candidate cfg ai LL mut with
    | (Ok None, ai') => score_pass cfg ai' LL rest scoredMuts mutationsTested'
    | (Ok (Some sm), ai') =>
      score_pass cfg ai' LL rest (scoredMuts ++ [sm]) mutationsTested'
    | (Throw e, ai') => (Throw e, ai')
    end
  end.

(** The [do { ... } while (hasNewInvalidEvaluator)] loop (lines 347-425).
    Only [InvalidEvaluatorException] is caught. *)
Fixpoint scoring_loop (fuel : nat) (cfg : PolishConfig) (ai : Integrator E)
    (muts : list Mutation) (scoredMuts : list ScoredMutation) (mutationsTested : Z)
    : option (result (list ScoredMutation * Z) * Integrator E) :=
  match fuel with
  | O => None
  | S fuel' =>
    let LL := Integrator_LL ai in
    match score_pass cfg ai LL muts scoredMuts mutationsTested with
    | (Ok r, ai') => Some (Ok r, ai')
    | (Throw InvalidEvaluatorException, ai') =>
      scoring_loop fuel' cfg ai' muts [] 0
    | (Throw e, ai') => Some (Throw e, ai')
    end
  end.

(** The state of the outer loop. *)
Record PolishState : Type := mkPolishState {
  ps_ai : Integrator E;
  ps_muts : list Mutation;
  ps_oldTpl : Z;
  ps_history : gset Z;
  ps_result : PolishResult
}.

(** Lines 444-486: the selected mutations [muts] are not empty. The
    MutationTracker (diploid reporting only) and the diagnostics pushed
    onto the result are not represented. *)
Definition Polish_apply (cfg : PolishConfig) (st : PolishState) (muts : list Mutation)
    : result PolishState :=
  let ai := ps_ai st in
  let result := ps_result st in
  let '(applied_tpl, muts) := ApplyMutations (fwdTpl_ ai) muts in
  bind applied_tpl (fun tpl =>
  let newTpl := hashFn tpl in
  if bool_decide (newTpl ∈ ps_history st) then
    bind (Integrator_ApplyMutation ai (front muts)) (fun ai' =>
    let oldTpl := hashFn (fwdTpl_ ai') in
    let result' := mkPolishResult (hasConverged result) (mutationsTested result)
                     (wrap (mutationsApplied result + 1)) in
    let applied := [front muts] in
    let muts' := NearbyMutations applied muts ai'
                   (MutationNeighborhood cfg) (Diploid cfg) in
    Ok (mkPolishState ai' muts' oldTpl ({[ oldTpl ]} ∪ ps_history st) result'))
  else
    let '(applied_ai, muts) := Integrator_ApplyMutations ai muts in
    bind applied_ai (fun ai' =>
    let oldTpl := newTpl in
    let result' := mkPolishResult (hasConverged result) (mutationsTested result)
                     (wrap (mutationsApplied result + Z.of_nat (length muts))) in
    let muts' := NearbyMutations muts muts ai'
                   (MutationNeighborhood cfg) (Diploid cfg) in
    Ok (mkPolishState ai' muts' oldTpl ({[ oldTpl ]} ∪ ps_history st) result'))).

(** One iteration of the outer loop (lines 339-486): either the next
    state, or the result that [Polish] returns on convergence. *)
Definition Polish_iteration (F : nat) (cfg : PolishConfig) (st : PolishState)
    : comp (PolishState + PolishResult * Integrator E) :=
  match scoring_loop F cfg (ps_ai st) (ps_muts st) [] 0 with
  | None => None
  | Some (Throw e, _) => raise e
  | Some (Ok (scoredMuts, tested), ai) =>
    let result := ps_result st in
    let result1 := mkPolishResult (hasConverged result)
                     (wrap (mutationsTested result + tested))
                     (mutationsApplied result) in
    do muts <- BestMutations F scoredMuts (MutationSeparation cfg) ;;
    match muts with
    | [] =>
      ret (inr (mkPolishResult true (mutationsTested result1)
                  (mutationsApplied result1), ai))
    | _ :: _ =>
      do st' <- lift (Polish_apply cfg
                        (mkPolishState ai (ps_muts st) (ps_oldTpl st)
                           (ps_history st) result1) muts) ;;
      ret (inl st')
    end
  end.

(** [for (size_t i = 0; i < cfg.MaximumIterations; ++i)] *)
Fixpoint Polish_loop (F : nat) (iterations : nat) (cfg : PolishConfig)
    (st : PolishState) : comp (PolishResult * Integrator E) :=
  match iterations with
  | O => ret (ps_result st, ps_ai st)
  | S iterations' =>
    do r <- Polish_iteration F cfg st ;;
    match r with
    | inl st' => Polish_loop F iterations' cfg st'
    | inr res => ret res
    end
  end.

Definition Polish (F : nat) (ai : Integrator E) (cfg : PolishConfig)
    : comp (PolishResult * Integrator E) :=
  let muts := Mutations_all ai (Diploid cfg) in
  let oldTpl := hashFn (fwdTpl_ ai) in
  Polish_loop F (Z.to_nat (MaximumIterations cfg)) cfg
    (mkPolishState ai muts oldTpl {[ oldTpl ]} PolishResult_init).

(** *** PolishRepeats (Polish.cpp lines 492-539) *)

(** [for (const auto& mut : muts)] inside the [try] block. *)
Fixpoint repeat_pass (ai : Integrator E) (LL : Q) (muts : list Mutation)
    (bestMut : option ScoredMutation)
    : result (option ScoredMutation) * Integrator E :=
  match muts with
  | [] => (Ok bestMut, ai)
  | mut :: rest =>
    match Integrator_LL_mut ai mut with
    | (Ok ll, ai') =>
      let better :=
        Qlt_bool LL ll
        && match bestMut with
           | None => true
           | Some b => Qlt_bool (Score b) ll
           end in
      repeat_pass ai' LL rest (if better then Some (WithScore mut ll) else bestMut)
    | (Throw e, ai') => (Throw e, ai')
    end
  end.

(** [do { ... } while (hasNewInvalidEvaluator)] *)
Fixpoint repeat_scoring_loop (fuel : nat) (ai : Integrator E) (muts : list Mutation)
    (bestMut : option ScoredMutation) (mutationsTested : Z)
    : option (result (option ScoredMutation * Z) * Integrator E) :=
  match fuel with
  | O => None
  | S fuel' =>
    let LL := Integrator_LL ai in
    match repeat_pass ai LL muts bestMut with
    | (Ok best, ai') => Some (Ok (best, mutationsTested), ai')
    | (Throw InvalidEvaluatorException, ai') =>
      repeat_scoring_loop fuel' ai' muts None 0
    | (Throw e, ai') => Some (Throw e, ai')
    end
  end.

(** [for (size_t i = 0; i < cfg.MaximumIterations; ++i)] *)
Fixpoint PolishRepeats_loop (F : nat) (iterations : nat) (ai : Integrator E)
    (cfg : RepeatConfig) (result : PolishResult) : comp (PolishResult * Integrator E) :=
  match iterations with
  | O => ret (result, ai)
  | S iterations' =>
    do muts <- RepeatMutations F ai cfg ;;
    match repeat_scoring_loop F ai muts None 0 with
    | None => None
    | Some (Throw e, _) => raise e
    | Some (Ok (bestMut, tested), ai1) =>
      let result1 := mkPolishResult (hasConverged result)
                       (wrap (mutationsTested result + tested))
                       (mutationsApplied result) in
      match bestMut with
      | None =>
        ret (mkPolishResult true (mutationsTested result1)
               (mutationsApplied result1), ai1)
      | Some best =>
        do ai2 <- lift (fst (Integrator_ApplyMutations ai1 [sm_mut best])) ;;
        PolishRepeats_loop F iterations' ai2 cfg
          (mkPolishResult (hasConverged result1) (mutationsTested result1)
             (wrap (mutationsApplied result1 + 1)))
      end
    end
  end.

Definition PolishRepeats (F : nat) (ai : Integrator E) (cfg : RepeatConfig)
    : comp (PolishResult * Integrator E) :=
  PolishRepeats_loop F (Z.to_nat (RepeatMaximumIterations cfg)) ai cfg PolishResult_init.

End PolishDriver.

(** ** ChemistryComparer (ChemistryMapping.h lines 56-66) *)

(** Modelled from the spec: [ChemistryTriple] of ChemistryTriple.h, which is
    not part of the sources; the four fields the comparer reads. *)
Record ChemistryTriple : Type := mkChemistryTriple {
  BindingKit : Z;
  SequencingKit : Z;
  MajorVersion : Z;
  MinorVersion : Z
}.

Definition ChemistryComparer (a b : ChemistryTriple) : bool :=
  if (BindingKit a <? BindingKit b) || (SequencingKit a <? SequencingKit b)
     || (MajorVersion a <? MajorVersion b) || (MinorVersion a <? MinorVersion b)
  then true
  else false.

(** The lexicographic order the spec asks a rewrite to use, for comparison. *)
Definition lexicographic_triple_lt (a b : ChemistryTriple) : bool :=
  (BindingKit a <? BindingKit b)
  || ((BindingKit a =? BindingKit b)
      && ((SequencingKit a <? SequencingKit b)
          || ((SequencingKit a =? SequencingKit b)
              && ((MajorVersion a <? MajorVersion b)
                  || ((MajorVersion a =? MajorVersion b)
                      && (MinorVersion a <? MinorVersion b)))))).

(** * Specification-side predicates *)

(** ** Well-formed mutations *)

(** What the three constructors of Mutation.cpp establish: an insertion has
    length 0, a substitution has the length of its bases, a deletion has no
    bases; [start] and [length] are [size_t] values. *)
Definition constructed (m : Mutation) : Prop :=
  is_size_t (start_ m) /\ is_size_t (length_ m) /\
  match type_ m with
  | INSERTION => length_ m = 0
  | SUBSTITUTION => length_ m = size (bases_ m)
  | DELETION => bases_ m = []
  end.

(** The mutation lies inside a template of length [L] (the data-model
    invariant of the spec): [Start + Length <= L] for substitutions and
    deletions, [Start <= L] for insertions. *)
Definition contained (m : Mutation) (L : Z) : Prop :=
  if IsInsertion m then Start m <= L else Start m + Length m <= L.


(** ** The haploid candidate set, as the spec enumerates it *)

Section CandidateSpec.
Context {E : Type}.

Definition ACGT : list ascii := ["A"%char; "C"%char; "G"%char; "T"%char].

(** The base before position [i]; position 0 has none, and the code
    compares against the NUL character there. *)
Definition last_base (ai : Integrator E) (i : Z) : ascii :=
  if 0 <? i then base_at ai (i - 1) else NUL.

(** The candidates the spec lists for one position [i], in the order
    insertions, deletion, substitutions. *)
Definition site_candidates (ai : Integrator E) (i : Z) : list Mutation :=
  map (Mutation_Insertion1 i) (List.filter (fun b => neqb b (last_base ai i)) ACGT)
  ++ (if neqb (base_at ai i) (last_base ai i) then [Mutation_Deletion i 1] else [])
  ++ map (Mutation_Substitution1 i) (List.filter (fun b => neqb b (base_at ai i)) ACGT).

Definition trailing_candidates (ai : Integrator E) (end_ : Z) : list Mutation :=
  map (Mutation_Insertion1 end_) (List.filter (fun b => neqb b (last_base ai end_)) ACGT).

Definition haploid_candidates (ai : Integrator E) (start end_ : Z) : list Mutation :=
  flat_map (site_candidates ai) (seqZ start (end_ - start))
  ++ trailing_candidates ai end_.

(** Membership in the candidate set, in the words of the spec. *)
Definition is_candidate (ai : Integrator E) (start end_ : Z) (m : Mutation) : Prop :=
  (exists i b, start <= i < end_ /\ In b ACGT /\ b <> last_base ai i
               /\ m = Mutation_Insertion1 i b)
  \/ (exists i, start <= i < end_ /\ base_at ai i <> last_base ai i
                /\ m = Mutation_Deletion i 1)
  \/ (exists i b, start <= i < end_ /\ In b ACGT /\ b <> base_at ai i
                  /\ m = Mutation_Substitution1 i b)
  \/ (exists b, In b ACGT /\ b <> last_base ai end_
                /\ m = Mutation_Insertion1 end_ b).

End CandidateSpec.

(** ** Non-overlapping mutations *)

(** A mutation whose extent does not wrap around in [size_t]. *)
Definition well_formed (m : Mutation) : Prop :=
  constructed m /\ start_ m + length_ m <= SIZE_MAX.

(** The End+insertion rule: two mutations overlap iff
    [a.Start < b.End /\ b.Start < a.End], where an insertion counts as
    reaching one past its site ([End + IsInsertion]). *)
Definition overlap (a b : Mutation) : bool :=
  (Start a <? End b + b2z (IsInsertion b)) && (Start b <? End a + b2z (IsInsertion a)).

Definition pairwise_nonoverlapping (muts : list Mutation) : Prop :=
  ForallOrdPairs (fun a b => overlap a b = false) muts.

(** Sites ascend along the sorted vector. *)
Definition ascending_Start : list Mutation -> Prop :=
  StronglySorted (fun a b => Start a <= Start b).

(** A mutation that changes the template: an insertion, or a substitution
    or deletion of at least one base. *)
Definition nondegenerate (m : Mutation) : Prop :=
  IsInsertion m = true \/ 1 <= Length m.

(** ** Greedy selection, as the spec describes [best_mutations] *)

(** The [[Start, End]] window of [m] lies within [sep] of the chosen
    mutation [c] (mathematical integers). *)
Definition within (sep : Z) (c m : Mutation) : bool :=
  (Start c - sep <=? End m) && (Start m <? End c + sep).

(** "Repeatedly pick the highest-scoring remaining candidate, emit it, and
    remove every candidate whose window lies within [sep] of the chosen
    one." *)
Inductive greedy_selection (sep : Z) : list ScoredMutation -> list Mutation -> Prop :=
| greedy_done : greedy_selection sep [] []
| greedy_pick (remaining : list ScoredMutation) (best : ScoredMutation)
    (rest : list Mutation) :
    In best remaining ->
    (forall sm, In sm remaining -> (Score sm <= Score best)%Q) ->
    greedy_selection sep
      (List.filter (fun sm => negb (within sep (sm_mut best) (sm_mut sm))) remaining)
      rest ->
    greedy_selection sep remaining (sm_mut best :: rest).

(** Two mutations are separated by at least [sep] template bases: at least
    [sep] positions lie between the end of one and the start of the other. *)
Definition separated (sep : Z) (a b : Mutation) : Prop :=
  End a + sep <= Start b \/ End b + sep <= Start a.

(** The post-application coordinate system: once all mutations of [applied]
    are applied, the site of [m] has moved by the length changes of the
    mutations before it, and [m] covers the bases it wrote. *)
Definition sum_over (f : Mutation -> Z) (l : list Mutation) : Z :=
  foldr (fun c acc => f c + acc) 0 l.

Definition shift (applied : list Mutation) (m : Mutation) : Z :=
  sum_over LengthDiff (List.filter (fun c => Start c <? Start m) applied).

Definition new_Start (applied : list Mutation) (m : Mutation) : Z :=
  Start m + shift applied m.

Definition new_End (applied : list Mutation) (m : Mutation) : Z :=
  new_Start applied m + size (Bases m).

Definition separated_after (sep : Z) (applied : list Mutation) (a b : Mutation) : Prop :=
  new_End applied a + sep <= new_Start applied b
  \/ new_End applied b + sep <= new_Start applied a.

(** The candidates that [BestMutations] can take without overflow: each one
    is well formed and its window end [End + separation] is a [size_t]. *)
Definition fits (separation : Z) (sm : ScoredMutation) : Prop :=
  well_formed (sm_mut sm) /\ End (sm_mut sm) + separation <= SIZE_MAX.

(** ** Invalidation of an Evaluator *)

(** What a call that signals InvalidEvaluator leaves behind: the same
    template, the same number of Evaluators, and exactly one VALID
    Evaluator fewer. *)
Definition invalidated {E : Type} `{EvaluatorOps E} (ai ai' : Integrator E) : Prop :=
  S (valid_count ai') = valid_count ai
  /\ fwdTpl_ ai' = fwdTpl_ ai
  /\ length (evals_ ai') = length (evals_ ai).

(** ** A concrete Evaluator for the examples *)

(** The Evaluator proper (the pair-HMM) is an external collaborator. The
    examples use a stand-in that holds a read and its view of the template
    and takes minus the number of mismatching positions as likelihood; it
    cannot score a mutation that does not apply to its template. *)
Record MismatchEvaluator : Type := mkMismatchEvaluator {
  me_read : str;
  me_tpl : str;
  me_valid : bool
}.

Fixpoint mismatches (a b : str) : Z :=
  match a, b with
  | [], _ => size b
  | _, [] => size a
  | x :: a', y :: b' => (if Ascii.eqb x y then 0 else 1) + mismatches a' b'
  end.

Definition mismatch_LL (read tpl : str) : Q := inject_Z (- mismatches read tpl).

#[global] Instance MismatchEvaluator_ops : EvaluatorOps MismatchEvaluator := {|
  ev_is_valid := me_valid;
  ev_LL e := mismatch_LL (me_read e) (me_tpl e);
  ev_LL_mut e mut :=
    match fst (ApplyMutations (me_tpl e) [mut]) with
    | Ok tpl => Some (mismatch_LL (me_read e) tpl)
    | Throw _ => None
    end;
  ev_invalidate e := mkMismatchEvaluator (me_read e) (me_tpl e) false;
  ev_ApplyMutations e muts :=
    match fst (ApplyMutations (me_tpl e) muts) with
    | Ok tpl => mkMismatchEvaluator (me_read e) tpl (me_valid e)
    | Throw _ => e
    end;
  ev_invalidate_spec e := eq_refl
|}.

(** An Integrator over [tpl] with one Evaluator per read. *)
Definition mismatch_integrator (tpl : str) (reads : list str) : Integrator MismatchEvaluator :=
  mkIntegrator (map (fun r => mkMismatchEvaluator r tpl true) reads) tpl.

(** [std::hash<std::string>] is implementation defined; the examples use a
    polynomial hash in [size_t]. *)
Definition poly_hash (s : str) : Z :=
  fold_left (fun h c => wrap (h * 31 + Z.of_N (N_of_ascii c))) s 7.

(** ** Repeat candidates inside the template *)

(** A candidate of [RepeatMutations] on a template of length [n] with
    repeat sizes up to [M]: its site is inside the template, an insertion
    writes at most [M] bases, a deletion writes none. *)
Definition repeat_candidate (n M : Z) (m : Mutation) : Prop :=
  0 <= Start m <= n /\ 0 <= Length m
  /\ ((IsInsertion m = true /\ size (Bases m) <= M)
      \/ (IsInsertion m = false /\ Bases m = [])).

(** ** A cyclic round, for the examples *)

(** The template ACGTACGTACGTACGTACGT, whose history already holds the
    fingerprint of ACTTACGTACGTACGTAGGT, and a selection of two
    substitutions (in the order of their scores) that leads to it. *)
Definition cycle_template : str := lit "ACGTACGTACGTACGTACGT".
Definition cycle_revisited : str := lit "ACTTACGTACGTACGTAGGT".
Definition cycle_selection : list Mutation :=
  [Mutation_Substitution1 17 "G"; Mutation_Substitution1 2 "T"].
Definition cycle_config : PolishConfig := mkPolishConfig 10 10 2 false.
Definition cycle_state : PolishState :=
  mkPolishState (mismatch_integrator cycle_template [cycle_revisited])
    [] (poly_hash cycle_template)
    ({[ poly_hash cycle_template ]} ∪ {[ poly_hash cycle_revisited ]})
    PolishResult_init.

(** The state after the cyclic round, as [Polish_apply] computes it. *)
Definition cycle_next_state : PolishState :=
  match Polish_apply poly_hash cycle_config cycle_state cycle_selection with
  | Ok st' => st'
  | Throw _ => cycle_state
  end.

(** ** A round with an Evaluator that cannot score, for the examples *)

(** Two reads over the template ACGT; the first Evaluator only sees the
    prefix AC, so it cannot score a substitution at position 3. *)
Definition partial_view_integrator : Integrator MismatchEvaluator :=
  mkIntegrator
    [mkMismatchEvaluator (lit "AC") (lit "AC") true;
     mkMismatchEvaluator (lit "ACGA") (lit "ACGT") true]
    (lit "ACGT").

Definition partial_view_candidates : list Mutation :=
  [Mutation_Substitution1 1 "G"; Mutation_Substitution1 3 "A"].

(** ** What ApplyMutations computes *)

(** The template from position [pos] on in which each mutation of
    [sorted] (non-overlapping, by ascending site, at or after [pos]) is
    written over the bases [Start, End) of the original template. *)
Fixpoint splice (tpl : str) (pos : Z) (sorted : list Mutation) : str :=
  match sorted with
  | [] => drop (Z.to_nat pos) tpl
  | m :: rest =>
    take (Z.to_nat (Start m - pos)) (drop (Z.to_nat pos) tpl)
    ++ Bases m ++ splice tpl (End m) rest
  end.

(** ** The candidate set over an alphabet *)

Section CandidateSets.
Context {E : Type}.

(** What the loop of [Mutations] emits at position [i] for the alphabet
    [bases] ([ACGT] in haploid mode, the sentinel [Z] in diploid mode). *)
Definition site_candidates_in (bases : list ascii) (ai : Integrator E) (i : Z)
    : list Mutation :=
  map (Mutation_Insertion1 i) (List.filter (fun b => neqb b (last_base ai i)) bases)
  ++ (if neqb (base_at ai i) (last_base ai i) then [Mutation_Deletion i 1] else [])
  ++ map (Mutation_Substitution1 i) (List.filter (fun b => neqb b (base_at ai i)) bases).

Definition candidates_in (bases : list ascii) (ai : Integrator E) (start end_ : Z)
    : list Mutation :=
  flat_map (site_candidates_in bases ai) (seqZ start (end_ - start))
  ++ map (Mutation_Insertion1 end_)
       (List.filter (fun b => neqb b (last_base ai end_)) bases).

(** Membership in the diploid candidate set: the sentinel is inserted
    before a position, and after the last one, unless the previous base is
    the sentinel itself; a position is deleted when its base differs from
    the previous one; a position is replaced by the sentinel unless it
    holds it already. *)
Definition is_diploid_candidate (ai : Integrator E) (start end_ : Z) (m : Mutation)
    : Prop :=
  (exists i, start <= i <= end_ /\ last_base ai i <> "Z"%char
             /\ m = Mutation_Insertion1 i "Z")
  \/ (exists i, start <= i < end_ /\ base_at ai i <> last_base ai i
                /\ m = Mutation_Deletion i 1)
  \/ (exists i, start <= i < end_ /\ base_at ai i <> "Z"%char
                /\ m = Mutation_Substitution1 i "Z").

End CandidateSets.

(** A candidate of [Mutations]: one base inserted, deleted or replaced at a
    site of the window [start, end], inside a template of length [len]. *)
Definition single_base_edit (start end_ len : Z) (m : Mutation) : Prop :=
  well_formed m /\ nondegenerate m /\ start <= Start m <= end_
  /\ contained m len /\ size (Bases m) <= 1 /\ Length m <= 1.

(** A range of [NearbyMutations] whose two ends are positions of a template
    of length [len]. *)
Definition in_template (len : Z) (r : Z * Z) : Prop :=
  0 <= fst r <= len /\ 0 <= snd r <= len.

(** ** The candidates that improve the likelihood *)

Section Improving.
Context {E : Type} `{EvaluatorOps E}.

(** The candidates of [muts], in order, whose likelihood on [ai] is
    strictly greater than [LL], each with its likelihood as score. *)
Definition improving (ai : Integrator E) (LL : Q) (muts : list Mutation)
    : list ScoredMutation :=
  flat_map (fun mut =>
              match fst (Integrator_LL_mut ai mut) with
              | Ok ll => if Qlt_bool LL ll then [WithScore mut ll] else []
              | Throw _ => []
              end) muts.

End Improving.

(** ** Tandem repeats *)

(** [n] copies in a row, from position [i] of [tpl], of the unit of length
    [rs] found at [i]. *)
Definition tandem_repeat (tpl : str) (i rs n : Z) : Prop :=
  i + n * rs <= size tpl
  /\ forall k, 0 <= k < n -> substr tpl (i + k * rs) rs = substr tpl i rs.

(** A candidate of [RepeatMutations] for the window [start, end_): the
    insertion or the deletion of one copy of a unit of length between 2 and
    the configured maximum that is repeated, from the site on and inside
    the window, at least the configured number of times. *)
Definition repeat_edit (tpl : str) (cfg : RepeatConfig) (start end_ : Z)
    (m : Mutation) : Prop :=
  exists i rs unit_,
    2 <= rs <= MaximumRepeatSize cfg /\ start <= i /\ i + rs <= end_
    /\ substr tpl i rs = Ok unit_ /\ size unit_ = rs
    /\ (exists n, MinimumElementCount cfg <= n /\ 1 <= n /\ i + n * rs <= end_
                  /\ tandem_repeat tpl i rs n)
    /\ (m = Mutation_Insertion i unit_ \/ m = Mutation_Deletion i rs).

(** ** MaxElement (Integrator.h lines 210-214) *)

(** [*std::max_element(in.cbegin(), in.end())] with [operator<] as
    comparison. On an empty vector the iterator returned is [end()] and
    dereferencing it is undefined: [None]. *)
Definition MaxElement {T : Type} (lt : T -> T -> bool) (v : list T) : option T :=
  match v with
  | [] => None
  | x :: xs => Some (max_element lt x xs)
  end.

(** ** Printing a Mutation (Mutation.cpp lines 96-101 and 149-157) *)

(** [out << n] for a [size_t] in the classic locale: the decimal digits. *)
Definition decimal (n : Z) : str :=
  list_ascii_of_string (DecimalString.NilZero.string_of_uint (N.to_uint (Z.to_N n))).

(** The double quote character. *)
Definition dquote : ascii := "034"%char.

(** [operator<<(std::ostream&, const Mutation&)]; [operator std::string]
    returns what it writes to a string stream. *)
Definition Mutation_to_string (m : Mutation) : str :=
  if IsDeletion m then
    lit "Mutation::Deletion(" ++ decimal (Start m) ++ lit ", "
    ++ decimal (Length m) ++ [")"%char]
  else if IsInsertion m then
    lit "Mutation::Insertion(" ++ decimal (Start m) ++ lit ", "
    ++ [dquote] ++ Bases m ++ [dquote; ")"%char]
  else
    lit "Mutation::Substitution(" ++ decimal (Start m) ++ lit ", "
    ++ [dquote] ++ Bases m ++ [dquote; ")"%char].
(** * Properties *)

(** ** Machine-integer facts *)

Lemma wrap_small x : 0 <= x <= SIZE_MAX -> wrap x = x.
Proof. unfold wrap, SIZE_MAX. intros. apply Z.mod_small. lia. Qed.

Lemma wrap_range x : 0 <= wrap x <= SIZE_MAX.
Proof.
  unfold wrap, SIZE_MAX.
  pose proof (Z.mod_pos_bound x (2 ^ 64) ltac:(lia)). lia.
Qed.

Lemma size_nonneg (s : str) : 0 <= size s.
Proof. unfold size. lia. Qed.

Lemma size_app (a b : str) : size (a ++ b) = size a + size b.
Proof. unfold size. rewrite length_app. lia. Qed.

Lemma End_no_wrap m : constructed m -> start_ m + length_ m <= SIZE_MAX ->
  End m = start_ m + length_ m.
Proof.
  intros (Hs & Hl & _) Hb. unfold End. apply wrap_small.
  unfold is_size_t in *. lia.
Qed.

(** ** ChemistryComparer *)

Lemma ChemistryComparer_true_iff a b :
  ChemistryComparer a b = true <->
  BindingKit a < BindingKit b \/ SequencingKit a < SequencingKit b \/
  MajorVersion a < MajorVersion b \/ MinorVersion a < MinorVersion b.
Proof.
  unfold ChemistryComparer.
  destruct (BindingKit a <? BindingKit b) eqn:E1;
  destruct (SequencingKit a <? SequencingKit b) eqn:E2;
  destruct (MajorVersion a <? MajorVersion b) eqn:E3;
  destruct (MinorVersion a <? MinorVersion b) eqn:E4; simpl;
  rewrite ?Z.ltb_lt, ?Z.ltb_ge in *; split; intros; try done; try lia.
Qed.

(** Whenever two triples disagree in opposite directions on two fields the
    comparer orders them both ways. *)
Lemma ChemistryComparer_both_ways a b :
  BindingKit a < BindingKit b -> SequencingKit b < SequencingKit a ->
  ChemistryComparer a b = true /\ ChemistryComparer b a = true.
Proof. intros. rewrite !ChemistryComparer_true_iff. lia. Qed.

(** The lexicographic order, by contrast, is asymmetric. *)
Lemma lexicographic_triple_lt_asym a b :
  lexicographic_triple_lt a b = true -> lexicographic_triple_lt b a = false.
Proof.
  unfold lexicographic_triple_lt. intros Hab.
  destruct (lexicographic_triple_lt b a) eqn:Hba; [|done]. exfalso.
  unfold lexicographic_triple_lt in Hba.
  repeat (rewrite ?orb_true_iff, ?andb_true_iff, ?Z.ltb_lt, ?Z.eqb_eq in Hab).
  repeat (rewrite ?orb_true_iff, ?andb_true_iff, ?Z.ltb_lt, ?Z.eqb_eq in Hba).
  lia.
Qed.

(** C9. The relation computed by [ChemistryComparer] is not a strict weak
    ordering: there are triples [a] and [b], [a] with the smaller BindingKit
    and [b] with the smaller SequencingKit, for which both
    [ChemistryComparer a b] and [ChemistryComparer b a] hold, so asymmetry
    fails. *)
Theorem ChemistryComparer_not_strict_weak_ordering :
  exists a b : ChemistryTriple,
    BindingKit a < BindingKit b /\ SequencingKit b < SequencingKit a /\
    ChemistryComparer a b = true /\ ChemistryComparer b a = true.
Proof.
  exists (mkChemistryTriple 1 2 0 0), (mkChemistryTriple 2 1 0 0).
  cbn. repeat split; lia.
Qed.

(** ** ApplyMutations on an empty template *)

(** C10. When the template is the empty string, [ApplyMutations] returns the
    empty string for every mutation list: the early return precedes every
    edit, so even insertions at position 0 are dropped. The vector is
    nevertheless sorted in place. *)
Theorem ApplyMutations_empty_template (muts : list Mutation) :
  ApplyMutations [] muts = (Ok [], std_sort SiteComparer muts).
Proof.
  unfold ApplyMutations.
  destruct (std_sort SiteComparer muts); reflexivity.
Qed.

Example empty_template_drops_insertion :
  fst (ApplyMutations (lit "") [Mutation_Insertion 0 (lit "ACGT")]) = Ok (lit "")
  /\ fst (ApplyMutations (lit "A") [Mutation_Insertion 0 (lit "ACGT")]) = Ok (lit "ACGTA").
Proof. split; reflexivity. Qed.

(** ** Translate over the whole template *)

Lemma substr_all (s : str) : substr s 0 (size s) = Ok s.
Proof.
  unfold substr, size.
  destruct (Z.of_nat (length s) <? 0) eqn:E; [apply Z.ltb_lt in E; lia|].
  rewrite Nat2Z.id. simpl. by rewrite take_ge.
Qed.

(** C5. For every mutation contained in a template of length [L] (for
    substitutions and deletions [Start + Length <= L], for insertions
    [Start <= L]), [Translate] with window start 0 and window length [L]
    returns the mutation itself, unchanged. A mutation is one of the data
    model: built by the constructors, and changing the template (a
    deletion removes at least one base, a substitution writes at least
    one); the template length is one a [std::string] can have
    ([L < SIZE_MAX]). *)
Theorem Translate_whole_template (m : Mutation) (L : Z) :
  constructed m -> nondegenerate m -> 0 <= L < SIZE_MAX -> contained m L ->
  Translate m 0 L = Ok (Some m).
Proof.
  intros Hc Hnd HL Hin.
  assert (Hlen : IsInsertion m = false -> 1 <= Length m).
  { intros Hf. destruct Hnd as [Ht | Hl1]; [congruence | done]. }
  clear Hnd.
  pose proof Hc as (Hs & Hl & Hty).
  unfold is_size_t in Hs, Hl.
  unfold Translate, contained, IsInsertion, IsDeletion, Start, Length, Bases in *.
  destruct m as [b t s l]; simpl in *.
  assert (HwL : wrap L = L) by (apply wrap_small; lia).
  change (0 + L) with L. rewrite HwL.
  destruct t; simpl in *.
  - (* deletion *)
    specialize (Hlen eq_refl). subst b.
    assert (HE : End (mkMutation [] DELETION s l) = s + l)
      by (apply End_no_wrap; simpl; [done | lia]).
    rewrite HE, !Z.add_0_r, ?HwL.
    rewrite (wrap_small (s + l)) by lia.
    destruct (s + l <? 0) eqn:E1; [apply Z.ltb_lt in E1; lia|].
    destruct (L <=? s) eqn:E2; [apply Z.leb_le in E2; lia|]. simpl.
    rewrite Z.max_l, Z.min_l by lia.
    replace (s + l - s) with l by lia.
    rewrite (wrap_small l), Z.sub_0_r, (wrap_small s) by lia.
    destruct (l =? 0) eqn:E3; [apply Z.eqb_eq in E3; lia|]. done.
  - (* insertion *)
    subst l.
    assert (HE : End (mkMutation b INSERTION s 0) = s).
    { rewrite End_no_wrap; simpl; [lia | done | lia]. }
    rewrite HE. rewrite (wrap_small (s + 1)), (wrap_small (L + 1)) by lia.
    destruct (s + 1 <? 0) eqn:E1; [apply Z.ltb_lt in E1; lia|].
    destruct (L + 1 <=? s) eqn:E2; [apply Z.leb_le in E2; lia|]. simpl.
    rewrite Z.max_l, Z.sub_0_r, (wrap_small s) by lia. done.
  - (* substitution *)
    specialize (Hlen eq_refl).
    assert (HE : End (mkMutation b SUBSTITUTION s l) = s + l)
      by (apply End_no_wrap; simpl; [done | lia]).
    rewrite HE, !Z.add_0_r, ?HwL.
    rewrite (wrap_small (s + l)) by lia.
    destruct (s + l <? 0) eqn:E1; [apply Z.ltb_lt in E1; lia|].
    destruct (L <=? s) eqn:E2; [apply Z.leb_le in E2; lia|]. simpl.
    rewrite Z.max_l, Z.min_l by lia.
    replace (s + l - s) with l by lia.
    rewrite (wrap_small l), Z.sub_0_r, (wrap_small s), Z.sub_diag by lia.
    destruct (l =? 0) eqn:E3; [apply Z.eqb_eq in E3; lia|].
    rewrite (wrap_small 0) by (unfold SIZE_MAX; lia).
    subst l. rewrite substr_all. simpl.
    unfold Mutation_Substitution, Mutation_of_string. simpl. done.
Qed.

Lemma Translate_whole_template_witness :
  Translate (Mutation_Substitution1 1 "G") 0 4 = Ok (Some (Mutation_Substitution1 1 "G")).
Proof.
  apply Translate_whole_template.
  - unfold constructed, is_size_t, SIZE_MAX, size; simpl. lia.
  - right. unfold Length; simpl. lia.
  - unfold SIZE_MAX; lia.
  - unfold contained; simpl. unfold Start, Length; simpl. lia.
Defined.

(** A deletion of length 0 is no mutation of the data model (no call in
    the sources builds one): for such a value the guard
    [if (newLen == 0)] of [Translate] returns [boost::none]. *)
Remark Translate_zero_length_deletion_none :
  constructed (Mutation_Deletion 0 0) /\ contained (Mutation_Deletion 0 0) 1 /\
  Translate (Mutation_Deletion 0 0) 0 1 = Ok None /\
  Translate (Mutation_Deletion 0 0) 0 1 <> Ok (Some (Mutation_Deletion 0 0)).
Proof.
  repeat split; try (unfold SIZE_MAX; simpl; lia); done.
Qed.

(** ** The haploid candidate generator *)

Section MutationsSpec.
Context {E : Type}.
Implicit Types (ai : Integrator E) (muts : list Mutation).

Lemma neqb_true_iff (a b : ascii) : neqb a b = true <-> a <> b.
Proof.
  unfold neqb. rewrite negb_true_iff. split.
  - intros Hf ->. by rewrite Ascii.eqb_refl in Hf.
  - intros Hne. destruct (Ascii.eqb a b) eqn:Heq; [|done].
    by apply Ascii.eqb_eq in Heq.
Qed.

Lemma emplace_bases_spec mk bases i c muts :
  emplace_bases mk bases i c muts
  = muts ++ map (mk i) (List.filter (fun j => neqb j c) bases).
Proof.
  unfold emplace_bases. revert muts.
  induction bases as [|j bases IH]; intros muts; simpl.
  - by rewrite app_nil_r.
  - destruct (neqb j c); simpl; rewrite IH; [|done].
    by rewrite <- app_assoc.
Qed.

Lemma last_base_succ ai i : 0 <= i -> last_base ai (i + 1) = base_at ai i.
Proof.
  intros Hi. unfold last_base.
  destruct (0 <? i + 1) eqn:Hlt; [|apply Z.ltb_ge in Hlt; lia].
  f_equal. lia.
Qed.

(** The loop threads [last] through the positions; at position [i] it is
    the base before [i]. *)
Lemma Mutations_loop_spec ai count : forall i muts,
  0 <= i ->
  Mutations_loop ai ACGT count i (last_base ai i) muts
  = (muts ++ flat_map (site_candidates ai) (seqZ i (Z.of_nat count)),
     last_base ai (i + Z.of_nat count)).
Proof.
  induction count as [|count IH]; intros i muts Hi.
  - cbn [Mutations_loop]. rewrite seqZ_nil by lia. simpl.
    by rewrite app_nil_r, Z.add_0_r.
  - cbn [Mutations_loop].
    rewrite !emplace_bases_spec.
    pose proof (IH (i + 1)) as IH'.
    rewrite (last_base_succ ai i Hi) in IH'.
    set (muts2 := if neqb (base_at ai i) (last_base ai i) then _ else _).
    rewrite IH' by lia.
    rewrite (seqZ_cons i (Z.of_nat (S count))) by lia.
    replace (Z.pred (Z.of_nat (S count))) with (Z.of_nat count) by lia.
    replace (i + 1 + Z.of_nat count) with (i + Z.of_nat (S count)) by lia.
    f_equal. cbn [flat_map]. unfold site_candidates at 2.
    replace (Z.succ i) with (i + 1) by lia.
    subst muts2.
    destruct (neqb (base_at ai i) (last_base ai i));
      by rewrite <- ?app_assoc.
Qed.

Lemma Mutations_haploid_eq ai start end_ :
  0 <= start < end_ ->
  Mutations ai start end_ false = haploid_candidates ai start end_.
Proof.
  intros Hr. unfold Mutations, Mutations_into, haploid_candidates.
  destruct (start =? end_) eqn:Heq; [apply Z.eqb_eq in Heq; lia|].
  change (candidate_bases false) with ACGT.
  change (if 0 <? start then base_at ai (start - 1) else NUL)
    with (last_base ai start).
  rewrite Mutations_loop_spec by lia.
  rewrite emplace_bases_spec, Z2Nat.id by lia. simpl.
  replace (start + (end_ - start)) with end_ by lia.
  done.
Qed.

Lemma In_filter_neqb b c :
  In b (List.filter (fun j => neqb j c) ACGT) <-> In b ACGT /\ b <> c.
Proof. rewrite filter_In, neqb_true_iff. done. Qed.

Lemma In_haploid_candidates ai start end_ m :
  In m (haploid_candidates ai start end_) <-> is_candidate ai start end_ m.
Proof.
  unfold haploid_candidates, is_candidate, trailing_candidates.
  rewrite in_app_iff, in_flat_map, in_map_iff.
  setoid_rewrite <- list_elem_of_In at 1.
  setoid_rewrite elem_of_seqZ.
  setoid_rewrite In_filter_neqb.
  unfold site_candidates.
  setoid_rewrite in_app_iff. setoid_rewrite in_app_iff.
  setoid_rewrite in_map_iff.
  setoid_rewrite In_filter_neqb.
  split.
  - intros [(i & Hi & [Hins | [Hdel | Hsub]]) | (b & <- & Hb & Hne)].
    + destruct Hins as (b & <- & Hb & Hne). left. exists i, b.
      repeat split; try done; lia.
    + right; left. exists i.
      destruct (neqb (base_at ai i) (last_base ai i)) eqn:Hn; [|done].
      destruct Hdel as [<- | []]. apply neqb_true_iff in Hn.
      repeat split; try done; lia.
    + destruct Hsub as (b & <- & Hb & Hne). right; right; left. exists i, b.
      repeat split; try done; lia.
    + right; right; right. by exists b.
  - intros [(i & b & Hi & Hb & Hne & ->) | [(i & Hi & Hne & ->)
            | [(i & b & Hi & Hb & Hne & ->) | (b & Hb & Hne & ->)]]].
    + left. exists i. split; [lia|]. left. by exists b.
    + left. exists i. split; [lia|]. right; left.
      apply neqb_true_iff in Hne. rewrite Hne. by left.
    + left. exists i. split; [lia|]. right; right. by exists b.
    + right. by exists b.
Qed.

(** C6. For a window [start, end) with [start < end] inside the template,
    the haploid generator emits exactly: at each position [i] of the
    window an insertion of each base different from the previous base, a
    deletion of length 1 exactly when the current base differs from the
    previous one, and a substitution to each base different from the
    current one; and after the last position an insertion at [end] of each
    base different from the last base. *)
Theorem Mutations_haploid_candidates ai start end_ m :
  0 <= start < end_ -> end_ <= TemplateLength ai ->
  (In m (Mutations ai start end_ false) <-> is_candidate ai start end_ m).
Proof.
  intros Hr _. rewrite Mutations_haploid_eq by done.
  apply In_haploid_candidates.
Qed.

End MutationsSpec.

Lemma Mutations_haploid_candidates_witness :
  In (Mutation_Deletion 2 1)
     (Mutations (mkIntegrator (@nil unit) (lit "AACG")) 1 3 false)
  <-> is_candidate (mkIntegrator (@nil unit) (lit "AACG")) 1 3 (Mutation_Deletion 2 1).
Proof.
  apply Mutations_haploid_candidates; [lia | vm_compute; discriminate].
Defined.

(** ** Order independence of ApplyMutations *)

Lemma SiteComparer_false_iff x y :
  SiteComparer y x = false <->
  Start x < Start y \/
  (Start x = Start y /\
   (End x < End y \/
    (End x = End y /\ type_priority (type_ x) <= type_priority (type_ y)))).
Proof.
  unfold SiteComparer.
  destruct (Start y <? Start x) eqn:E1, (Start y =? Start x) eqn:E2,
           (End y <? End x) eqn:E3, (End y =? End x) eqn:E4,
           (type_priority (type_ y) <? type_priority (type_ x)) eqn:E5;
    simpl; rewrite ?Z.ltb_lt, ?Z.ltb_ge, ?Z.eqb_eq, ?Z.eqb_neq in *;
    split; intros; try done; lia.
Qed.

#[global] Instance not_after_SiteComparer_trans : Transitive (not_after SiteComparer).
Proof.
  intros x y z. unfold not_after. rewrite !SiteComparer_false_iff. lia.
Qed.

#[global] Instance not_after_SiteComparer_total : Total (not_after SiteComparer).
Proof.
  intros x y. unfold not_after. rewrite !SiteComparer_false_iff. lia.
Qed.

Lemma std_sort_Sorted muts : Sorted (not_after SiteComparer) (std_sort SiteComparer muts).
Proof. apply Sorted_merge_sort, _. Qed.

Lemma std_sort_Permutation muts : std_sort SiteComparer muts ≡ₚ muts.
Proof. apply merge_sort_Permutation. Qed.

Lemma type_priority_inj t1 t2 : type_priority t1 = type_priority t2 -> t1 = t2.
Proof. by destruct t1, t2. Qed.

Lemma size_zero_nil (s : str) : size s = 0 -> s = [].
Proof. unfold size. destruct s; [done | simpl; lia]. Qed.

(** Two well-formed mutations that [SiteComparer] does not separate and
    that do not overlap are the same mutation. *)
Lemma site_equivalent_nonoverlapping_eq a b :
  well_formed a -> well_formed b ->
  not_after SiteComparer a b -> not_after SiteComparer b a ->
  overlap a b = false -> a = b.
Proof.
  intros [Ha Hwa] [Hb Hwb] Hab Hba Hov.
  unfold not_after in *. rewrite SiteComparer_false_iff in Hab, Hba.
  rewrite (End_no_wrap a), (End_no_wrap b) in Hab, Hba by done.
  unfold overlap in Hov.
  rewrite (End_no_wrap a), (End_no_wrap b) in Hov by done.
  unfold Start, IsInsertion in *.
  destruct Ha as ((?&?) & (?&?) & Hta), Hb as ((?&?) & (?&?) & Htb).
  assert (Hty : type_ a = type_ b) by (apply type_priority_inj; lia).
  assert (Hs : start_ a = start_ b) by lia.
  assert (Hl : length_ a = length_ b) by lia.
  destruct a as [ba ta sa la], b as [bb tb sb lb]; simpl in *. subst tb sb lb.
  rewrite andb_diag in Hov. apply Z.ltb_ge in Hov.
  f_equal.
  destruct ta; simpl in *.
  - congruence.
  - lia.
  - assert (Hz : la = 0) by lia.
    rewrite Hz in Hta, Htb.
    symmetry in Hta, Htb. apply size_zero_nil in Hta, Htb. congruence.
Qed.

Lemma pairwise_nonoverlapping_elem_of muts a b :
  pairwise_nonoverlapping muts -> a ∈ muts -> b ∈ muts ->
  a = b \/ overlap a b = false.
Proof.
  intros Hp Ha Hb. apply list_elem_of_In in Ha, Hb.
  destruct (ForallOrdPairs_In Hp a b Ha Hb) as [? | [? | Hba]]; auto.
  right. unfold overlap in *. by rewrite andb_comm.
Qed.

(** On a list of non-overlapping mutations the sorted vector does not
    depend on how [std::sort] treats equivalent elements: every sorted
    permutation of the list is the same list. *)
Lemma sorted_permutation_unique muts l1 l2 :
  Forall well_formed muts -> pairwise_nonoverlapping muts ->
  l1 ≡ₚ muts -> l2 ≡ₚ muts ->
  Sorted (not_after SiteComparer) l1 -> Sorted (not_after SiteComparer) l2 ->
  l1 = l2.
Proof.
  intros Hwf Hp H1 H2 S1 S2.
  apply (Sorted_unique_strong (not_after SiteComparer)); try done.
  - intros a b Ha Hb Hab Hba.
    rewrite H1 in Ha. rewrite H2 in Hb.
    rewrite Forall_forall in Hwf.
    destruct (pairwise_nonoverlapping_elem_of muts a b Hp Ha Hb) as [|Hov]; [done|].
    apply site_equivalent_nonoverlapping_eq; auto.
  - by rewrite H1, H2.
Qed.

Lemma Sorted_Start_le m rest :
  Sorted (not_after SiteComparer) (m :: rest) -> Forall (fun r => Start m <= Start r) rest.
Proof.
  intros Hs. apply Sorted_StronglySorted in Hs; [|apply _].
  inversion Hs as [|? ? _ Hall]; subst.
  eapply Forall_impl; [exact Hall|].
  intros r Hr. unfold not_after in Hr. rewrite SiteComparer_false_iff in Hr. lia.
Qed.

Lemma std_sort_ascending_Start muts : ascending_Start (std_sort SiteComparer muts).
Proof.
  unfold ascending_Start.
  pose proof (std_sort_Sorted muts) as Hs.
  induction (std_sort SiteComparer muts) as [|m l IH]; [constructor|].
  constructor.
  - apply IH. by inversion Hs.
  - by apply Sorted_Start_le.
Qed.

(** Non-overlapping mutations that change the template sit at different
    sites, so the tie-breaking part of [SiteComparer] plays no role for
    them: any arrangement of the list with ascending sites is the vector
    that [std::sort] leaves. *)
Lemma ascending_Start_unique muts l :
  Forall well_formed muts -> Forall nondegenerate muts ->
  pairwise_nonoverlapping muts ->
  l ≡ₚ muts -> ascending_Start l ->
  l = std_sort SiteComparer muts.
Proof.
  intros Hwf Hnd Hp Hperm Hsorted.
  apply (StronglySorted_unique_strong (fun a b => Start a <= Start b)); try done.
  - intros a b Ha Hb Hab Hba.
    rewrite Hperm in Ha. rewrite std_sort_Permutation in Hb.
    destruct (pairwise_nonoverlapping_elem_of muts a b Hp Ha Hb) as [|Hov]; [done|].
    exfalso. rewrite Forall_forall in Hwf, Hnd.
    pose proof (Hwf a Ha) as Hwa. pose proof (Hwf b Hb) as Hwb.
    unfold overlap in Hov.
    rewrite (End_no_wrap a), (End_no_wrap b) in Hov by apply Hwa || apply Hwb.
    apply andb_false_iff in Hov. rewrite !Z.ltb_ge in Hov.
    destruct (Hnd a Ha) as [Hia | Hla], (Hnd b Hb) as [Hib | Hlb];
      unfold Start, Length in *; rewrite ?Hia, ?Hib in Hov; simpl in Hov;
      destruct (IsInsertion a), (IsInsertion b); simpl in Hov;
      destruct Hwa as ((_ & (? & _) & _) & _), Hwb as ((_ & (? & _) & _) & _); lia.
  - apply std_sort_ascending_Start.
  - by rewrite std_sort_Permutation.
Qed.

(** C1. For every template and every list of well-formed mutations that are
    pairwise non-overlapping under the End+insertion rule, [ApplyMutations]
    gives the same result (the new string, or the exception, and the sorted
    vector) for every permutation of the list: the list is first sorted by
    site, so that sites ascend, and the edits are then applied from the
    last to the first. *)
Theorem ApplyMutations_order_independent (tpl : str) (muts muts' : list Mutation) :
  Forall well_formed muts -> pairwise_nonoverlapping muts -> muts' ≡ₚ muts ->
  ApplyMutations tpl muts' = ApplyMutations tpl muts
  /\ Sorted (not_after SiteComparer) (snd (ApplyMutations tpl muts))
  /\ ascending_Start (snd (ApplyMutations tpl muts))
  /\ (muts <> [] -> tpl <> [] ->
      fst (ApplyMutations tpl muts) = apply_rev tpl (snd (ApplyMutations tpl muts))).
Proof.
  intros Hwf Hp Hperm.
  assert (Hs : std_sort SiteComparer muts' = std_sort SiteComparer muts).
  { apply (sorted_permutation_unique muts); auto using std_sort_Sorted.
    - by rewrite std_sort_Permutation.
    - apply std_sort_Permutation. }
  unfold ApplyMutations. rewrite Hs.
  pose proof (std_sort_Sorted muts) as Hsorted.
  pose proof (std_sort_ascending_Start muts) as Hasc.
  destruct (std_sort SiteComparer muts) as [|m sorted] eqn:Hsort.
  - split; [done|]. split; [done|]. split; [done|]. intros _ _. reflexivity.
  - destruct tpl as [|c tpl]; (split; [done|]); (split; [done|]); (split; [done|]);
      intros _ Hne; done.
Qed.

Lemma ApplyMutations_order_independent_witness :
  ApplyMutations (lit "ACGT")
    [Mutation_Substitution1 3 "A"; Mutation_Deletion 1 1; Mutation_Insertion1 0 "T"]
  = ApplyMutations (lit "ACGT")
    [Mutation_Insertion1 0 "T"; Mutation_Substitution1 3 "A"; Mutation_Deletion 1 1].
Proof.
  apply ApplyMutations_order_independent.
  - repeat constructor; unfold is_size_t, SIZE_MAX, size; simpl; lia.
  - repeat constructor.
  - apply (Permutation_app_comm [_; _] [_]).
Defined.

(** ** BestMutations *)

Lemma Qlt_bool_true_iff a b : Qlt_bool a b = true <-> (a < b)%Q.
Proof.
  unfold Qlt_bool. rewrite negb_true_iff. split.
  - intros Hf. apply Qnot_le_lt. intros Hle.
    apply Qle_bool_iff in Hle. congruence.
  - intros Hlt. destruct (Qle_bool b a) eqn:Hb; [|done].
    apply Qle_bool_iff in Hb. by apply Qlt_not_le in Hlt.
Qed.

Lemma Qlt_bool_false_iff a b : Qlt_bool a b = false <-> (b <= a)%Q.
Proof.
  unfold Qlt_bool. rewrite negb_false_iff. apply Qle_bool_iff.
Qed.

(** [max_element] returns an element of the range that no element exceeds. *)
Lemma max_element_spec xs : forall x,
  In (max_element ScoreComparer x xs) (x :: xs)
  /\ (Score x <= Score (max_element ScoreComparer x xs))%Q
  /\ forall sm, In sm xs -> (Score sm <= Score (max_element ScoreComparer x xs))%Q.
Proof.
  unfold max_element.
  induction xs as [|y xs IH]; intros x; simpl.
  - split; [by left|]. split; [apply Qle_refl | intros ? []].
  - destruct (ScoreComparer x y) eqn:Hc; unfold ScoreComparer in Hc.
    + apply Qlt_bool_true_iff in Hc.
      destruct (IH y) as (Hin & Hy & Hall).
      split; [by right|]. split.
      * eapply Qle_trans; [apply Qlt_le_weak, Hc | apply Hy].
      * intros sm [<- | Hsm]; auto.
    + apply Qlt_bool_false_iff in Hc.
      destruct (IH x) as (Hin & Hx & Hall).
      split; [destruct Hin as [<- | Hin]; [by left | by right; right]|].
      split; [done|].
      intros sm [<- | Hsm]; [eapply Qle_trans; eauto | auto].
Qed.

Lemma well_formed_Start_le_End m : well_formed m -> 0 <= Start m <= End m.
Proof.
  intros [Hc Hw]. rewrite End_no_wrap by done.
  destruct Hc as ((?&?) & (?&?) & _). unfold Start. lia.
Qed.

(** Without overflow the predicate of [remove_if] is the window test of the
    spec. *)
Lemma in_window_within sep c m :
  1 <= sep -> fits sep (mkScored c 0%Q) -> well_formed (sm_mut m) ->
  in_window (window_start sep c) (window_end sep c) m = within sep c (sm_mut m).
Proof.
  intros Hsep [Hwc Hfit] Hwm. simpl in *.
  pose proof (well_formed_Start_le_End c Hwc).
  pose proof (well_formed_Start_le_End (sm_mut m) Hwm).
  unfold in_window, within, window_start, window_end.
  rewrite (wrap_small (End c + sep)) by lia.
  f_equal.
  destruct (sep <? Start c) eqn:Hlt.
  - apply Z.ltb_lt in Hlt. rewrite wrap_small; [done|].
    destruct Hwc as (((?&?) & _) & _). unfold Start in *. lia.
  - apply Z.ltb_ge in Hlt.
    transitivity true; [apply Z.leb_le; lia | symmetry; apply Z.leb_le; lia].
Qed.

Lemma within_self sep c : 1 <= sep -> well_formed c -> within sep c c = true.
Proof.
  intros Hsep Hw. pose proof (well_formed_Start_le_End c Hw).
  unfold within. apply andb_true_iff. rewrite Z.leb_le, Z.ltb_lt. lia.
Qed.

Lemma remove_if_window_eq sep c l :
  1 <= sep -> fits sep (mkScored c 0%Q) -> Forall (fits sep) l ->
  remove_if (in_window (window_start sep c) (window_end sep c)) l
  = List.filter (fun sm => negb (within sep c (sm_mut sm))) l.
Proof.
  intros Hsep Hc Hl. unfold remove_if.
  induction Hl as [|m l [Hm _] Hl IH]; [done|]. simpl.
  rewrite in_window_within, IH by done. done.
Qed.

Lemma filter_length_lt {A} (p : A -> bool) (l : list A) x :
  In x l -> p x = false -> (length (List.filter p l) < length l)%nat.
Proof.
  induction l as [|y l IH]; intros Hin Hp; [done|]. simpl.
  pose proof (filter_length_le p l).
  destruct Hin as [-> | Hin].
  - rewrite Hp. lia.
  - specialize (IH Hin Hp). destruct (p y); simpl; lia.
Qed.

Lemma Forall_fits_filter sep (p : ScoredMutation -> bool) l :
  Forall (fits sep) l -> Forall (fits sep) (List.filter p l).
Proof.
  rewrite !Forall_forall. intros Hl x Hx.
  apply list_elem_of_In, filter_In in Hx as [Hx _].
  by apply Hl, list_elem_of_In.
Qed.

(** The loop terminates within [length scoredMuts] iterations and appends
    a greedy selection to [result]. *)
Lemma BestMutations_loop_spec sep : 1 <= sep ->
  forall n scoredMuts, (length scoredMuts <= n)%nat -> Forall (fits sep) scoredMuts ->
  exists selected,
    greedy_selection sep scoredMuts selected
    /\ forall fuel result, (length scoredMuts <= fuel)%nat ->
         BestMutations_loop fuel scoredMuts sep result = Some (result ++ selected).
Proof.
  intros Hsep. induction n as [|n IH]; intros scoredMuts Hlen Hfit.
  - destruct scoredMuts; [|simpl in Hlen; lia].
    exists []. split; [constructor|]. intros fuel result _.
    destruct fuel; simpl; by rewrite app_nil_r.
  - destruct scoredMuts as [|x xs].
    { exists []. split; [constructor|]. intros fuel result _.
      destruct fuel; simpl; by rewrite app_nil_r. }
    set (best := max_element ScoreComparer x xs).
    destruct (max_element_spec xs x) as (Hin & Hx & Hall). fold best in Hin, Hx, Hall.
    assert (Hbest : fits sep best).
    { rewrite Forall_forall in Hfit. by apply Hfit, list_elem_of_In. }
    assert (Hbest' : fits sep (mkScored (sm_mut best) 0%Q)) by exact Hbest.
    set (remaining := List.filter (fun sm => negb (within sep (sm_mut best) (sm_mut sm))) (x :: xs)).
    assert (Hshort : (length remaining < length (x :: xs))%nat).
    { apply (filter_length_lt _ _ best Hin).
      rewrite within_self; [done | done | apply Hbest]. }
    destruct (IH remaining) as (rest & Hgreedy & Hloop).
    { simpl in Hlen, Hshort. lia. }
    { by apply Forall_fits_filter. }
    exists (sm_mut best :: rest). split.
    + apply greedy_pick; [done | | done].
      intros sm [<- | Hsm]; auto.
    + intros fuel result Hfuel.
      destruct fuel as [|fuel]; [simpl in Hfuel; lia|].
      cbn [BestMutations_loop]. fold best.
      rewrite remove_if_window_eq by done. fold remaining.
      rewrite Hloop by (simpl in Hfuel, Hshort; lia).
      by rewrite <- app_assoc.
Qed.

Lemma greedy_selection_from sep l r :
  greedy_selection sep l r -> forall m, In m r -> exists sm, In sm l /\ sm_mut sm = m.
Proof.
  induction 1 as [|remaining best rest Hin Hmax Hg IH]; intros m Hm; [done|].
  destruct Hm as [<- | Hm]; [by exists best|].
  destruct (IH m Hm) as (sm & Hsm & Heq).
  apply filter_In in Hsm as [Hsm _]. by exists sm.
Qed.

Lemma within_false_separated sep c m :
  well_formed c -> well_formed m -> within sep c m = false -> separated sep c m.
Proof.
  intros Hc Hm Hw. unfold within, separated in *.
  apply andb_false_iff in Hw. rewrite Z.leb_gt, Z.ltb_ge in Hw. lia.
Qed.

(** In the coordinates of the template the mutations were scored on, the
    selected mutations are pairwise separated. *)
Lemma greedy_selection_separated sep l r :
  Forall (fits sep) l -> greedy_selection sep l r ->
  ForallOrdPairs (separated sep) r /\ Forall well_formed r.
Proof.
  intros Hfit Hg. induction Hg as [|remaining best rest Hin Hmax Hg IH].
  - split; constructor.
  - assert (Hbest : fits sep best).
    { rewrite Forall_forall in Hfit. by apply Hfit, list_elem_of_In. }
    destruct IH as [IH1 IH2]; [by apply Forall_fits_filter|].
    split; [|constructor; [apply Hbest | done]].
    constructor; [|done].
    apply Forall_forall. intros m Hm. apply list_elem_of_In in Hm.
    destruct (greedy_selection_from _ _ _ Hg m Hm) as (sm & Hsm & <-).
    apply filter_In in Hsm as [Hsm Hw]. apply negb_true_iff in Hw.
    rewrite Forall_forall in Hfit.
    apply within_false_separated; [apply Hbest | | done].
    by apply Hfit, list_elem_of_In.
Qed.

(** *** Separation after application *)

Lemma sum_over_filter f p l :
  sum_over f (List.filter p l) = sum_over (fun c => if p c then f c else 0) l.
Proof.
  induction l as [|c l IH]; [done|]. simpl.
  destruct (p c); simpl; rewrite IH; lia.
Qed.

Lemma sum_over_add f g h l :
  (forall c, In c l -> f c = g c + h c) ->
  sum_over f l = sum_over g l + sum_over h l.
Proof.
  induction l as [|c l IH]; intros Hp; [done|]. simpl.
  rewrite IH, (Hp c) by (intros; apply Hp; by right) || by left. lia.
Qed.

Lemma sum_over_le f g l :
  (forall c, In c l -> f c <= g c) -> sum_over f l <= sum_over g l.
Proof.
  induction l as [|c l IH]; intros Hp; [done|]. simpl.
  pose proof (Hp c ltac:(by left)).
  assert (sum_over f l <= sum_over g l) by (apply IH; intros; apply Hp; by right).
  lia.
Qed.

Lemma ForallOrdPairs_filter {A} (R : A -> A -> Prop) (p : A -> bool) l :
  ForallOrdPairs R l -> ForallOrdPairs R (List.filter p l).
Proof.
  induction 1 as [|x l Hx Hl IH]; simpl; [constructor|].
  destruct (p x); [|done]. constructor; [|done].
  rewrite Forall_forall in *. intros y Hy.
  apply list_elem_of_In, filter_In in Hy as [Hy _].
  by apply Hx, list_elem_of_In.
Qed.

(** Disjoint extents inside an interval cannot be longer than the
    interval. *)
Lemma packing n : forall (M : list Mutation) lo hi,
  (length M <= n)%nat ->
  ForallOrdPairs (fun x y => Start x + Length x <= Start y
                             \/ Start y + Length y <= Start x) M ->
  Forall (fun c => lo <= Start c /\ 0 <= Length c /\ Start c + Length c <= hi) M ->
  sum_over Length M <= Z.max 0 (hi - lo).
Proof.
  induction n as [|n IH]; intros M lo hi Hlen Hd Hin.
  - destruct M; [simpl; lia | simpl in Hlen; lia].
  - destruct M as [|c M]; [simpl; lia|].
    inversion Hd as [|? ? Hc Hd']; subst.
    inversion Hin as [|? ? (Hlo & Hnn & Hhi) Hin']; subst.
    set (p := fun x : Mutation => Start x + Length x <=? Start c).
    assert (Hsplit : sum_over Length M
              = sum_over Length (List.filter p M)
                + sum_over Length (List.filter (fun x => negb (p x)) M)).
    { rewrite !sum_over_filter. apply sum_over_add.
      intros x _. destruct (p x); simpl; lia. }
    assert (Hleft : sum_over Length (List.filter p M) <= Z.max 0 (Start c - lo)).
    { apply IH.
      - pose proof (filter_length_le p M). simpl in Hlen. lia.
      - by apply ForallOrdPairs_filter.
      - rewrite Forall_forall in *. intros x Hx.
        apply list_elem_of_In, filter_In in Hx as [Hx Hpx].
        apply list_elem_of_In in Hx.
        destruct (Hin' x Hx) as (? & ? & ?).
        unfold p in Hpx. apply Z.leb_le in Hpx. lia. }
    assert (Hright : sum_over Length (List.filter (fun x => negb (p x)) M)
                     <= Z.max 0 (hi - (Start c + Length c))).
    { apply IH.
      - pose proof (filter_length_le (fun x => negb (p x)) M). simpl in Hlen. lia.
      - by apply ForallOrdPairs_filter.
      - rewrite Forall_forall in *. intros x Hx.
        apply list_elem_of_In, filter_In in Hx as [Hx Hpx].
        apply list_elem_of_In in Hx.
        destruct (Hin' x Hx) as (? & ? & ?).
        unfold p in Hpx. apply negb_true_iff, Z.leb_gt in Hpx.
        specialize (Hc x Hx). simpl in Hc. lia. }
    simpl. lia.
Qed.

Lemma sum_over_opp f l : sum_over (fun c => - f c) l = - sum_over f l.
Proof. induction l as [|c l IH]; [done|]. simpl. rewrite IH. lia. Qed.

Lemma separated_sym sep a b : separated sep a b -> separated sep b a.
Proof. unfold separated. lia. Qed.

Lemma separated_elem_of sep L a b :
  ForallOrdPairs (separated sep) L -> In a L -> In b L ->
  a = b \/ separated sep a b.
Proof.
  intros Hp Ha Hb.
  destruct (ForallOrdPairs_In Hp a b Ha Hb) as [? | [? | ?]]; auto using separated_sym.
Qed.

Lemma separated_Start_neq sep a b :
  1 <= sep -> well_formed a -> well_formed b -> separated sep a b ->
  Start a <> Start b.
Proof.
  intros Hsep Ha Hb Hs.
  pose proof (well_formed_Start_le_End a Ha).
  pose proof (well_formed_Start_le_End b Hb).
  unfold separated in Hs. lia.
Qed.

Lemma sum_over_zero f l : (forall c, In c l -> f c = 0) -> sum_over f l = 0.
Proof.
  induction l as [|c l IH]; intros Hz; [done|]. simpl.
  rewrite IH, (Hz c) by (intros; apply Hz; by right) || by left. done.
Qed.

(** A selected mutation is the only one at its site. *)
Lemma sum_over_same_Start sep f L a :
  1 <= sep -> Forall well_formed L -> ForallOrdPairs (separated sep) L -> In a L ->
  sum_over (fun c => if Start c =? Start a then f c else 0) L = f a.
Proof.
  intros Hsep Hwf Hp. induction Hp as [|x L Hx Hp IH]; intros Ha; [done|].
  inversion Hwf as [|? ? Hwx HwL]; subst.
  assert (Hrest : forall c, In c L -> Start c <> Start x).
  { intros c Hc. rewrite Forall_forall in Hx, HwL.
    apply not_eq_sym. apply (separated_Start_neq sep); auto.
    - by apply HwL, list_elem_of_In.
    - by apply Hx, list_elem_of_In. }
  simpl. destruct (Start x =? Start a) eqn:Heq.
  - apply Z.eqb_eq in Heq.
    destruct Ha as [-> | Ha]; [|by destruct (Hrest a Ha)].
    rewrite sum_over_zero; [lia|].
    intros c Hc. destruct (Start c =? Start a) eqn:Hca; [|done].
    apply Z.eqb_eq in Hca. destruct (Hrest c Hc). lia.
  - apply Z.eqb_neq in Heq.
    destruct Ha as [-> | Ha]; [done|]. rewrite IH by done. lia.
Qed.

Lemma LengthDiff_bounds m :
  well_formed m -> - Length m <= LengthDiff m /\ size (Bases m) - LengthDiff m = Length m.
Proof.
  intros [(_ & (Hl & _) & Hty) _]. unfold LengthDiff, Length, Bases.
  pose proof (size_nonneg (bases_ m)).
  destruct (type_ m).
  - rewrite Hty. unfold size. simpl. lia.
  - lia.
  - lia.
Qed.

(** The mutations strictly between two selected mutations leave at least
    [sep] bases between them after application. *)
Lemma separated_after_of_separated sep L a b :
  1 <= sep -> Forall well_formed L -> ForallOrdPairs (separated sep) L ->
  In a L -> In b L -> End a + sep <= Start b ->
  new_End L a + sep <= new_Start L b.
Proof.
  intros Hsep Hwf Hp Ha Hb Hab.
  assert (Hwfa : well_formed a) by (rewrite Forall_forall in Hwf; by apply Hwf, list_elem_of_In).
  assert (Hwfb : well_formed b) by (rewrite Forall_forall in Hwf; by apply Hwf, list_elem_of_In).
  pose proof (well_formed_Start_le_End a Hwfa) as HSEa.
  pose proof (well_formed_Start_le_End b Hwfb) as HSEb.
  set (q := fun c : Mutation => (Start a <? Start c) && (Start c <? Start b)).
  unfold new_End, new_Start, shift. rewrite !sum_over_filter.
  rewrite (sum_over_add (fun c => if Start c <? Start b then LengthDiff c else 0)
             (fun c => if Start c <? Start a then LengthDiff c else 0)
             (fun c => (if Start c =? Start a then LengthDiff c else 0)
                       + (if q c then LengthDiff c else 0))).
  2:{ intros c _. unfold q.
      destruct (Start c <? Start b) eqn:E1, (Start c <? Start a) eqn:E2,
               (Start c =? Start a) eqn:E3, (Start a <? Start c) eqn:E4; simpl;
        rewrite ?Z.ltb_lt, ?Z.ltb_ge, ?Z.eqb_eq, ?Z.eqb_neq in *; lia. }
  rewrite (sum_over_add (fun c => (if Start c =? Start a then LengthDiff c else 0)
                                  + (if q c then LengthDiff c else 0))
             (fun c => if Start c =? Start a then LengthDiff c else 0)
             (fun c => if q c then LengthDiff c else 0)) by done.
  rewrite (sum_over_same_Start sep) by done.
  (* the mutations between [a] and [b] *)
  assert (Hbetween : - sum_over (fun c => if q c then LengthDiff c else 0) L
                     <= Z.max 0 ((Start b - sep) - (End a + sep))).
  { rewrite <- sum_over_opp.
    transitivity (sum_over Length (List.filter q L)).
    - rewrite sum_over_filter. apply sum_over_le. intros c Hc.
      assert (Hwfc : well_formed c)
        by (rewrite Forall_forall in Hwf; by apply Hwf, list_elem_of_In).
      destruct (LengthDiff_bounds c Hwfc) as [Hlb _].
      destruct (q c); lia.
    - apply (packing (length (List.filter q L))); [done | | ].
      + apply ForallOrdPairs_filter.
        clear Ha Hb. induction Hp as [|x L Hx Hp IH]; [constructor|].
        inversion Hwf as [|? ? Hwx HwL]; subst.
        constructor; [|by apply IH].
        rewrite Forall_forall in *. intros y Hy.
        specialize (Hx y Hy). specialize (HwL y Hy).
        destruct Hwx as [_ Hx1], HwL as [_ Hy1].
        unfold separated in Hx.
        rewrite (End_no_wrap x), (End_no_wrap y) in Hx
          by (done || apply Hwf; by constructor || (apply Hwf; by constructor)).
        unfold Start, Length. unfold Start in Hx. lia.
      + rewrite Forall_forall. intros c Hc.
        apply list_elem_of_In, filter_In in Hc as [Hc Hq].
        unfold q in Hq. apply andb_true_iff in Hq as [H1 H2].
        apply Z.ltb_lt in H1, H2.
        assert (Hwfc : well_formed c)
          by (rewrite Forall_forall in Hwf; by apply Hwf, list_elem_of_In).
        pose proof (well_formed_Start_le_End c Hwfc) as HSEc.
        assert (HEc : End c = Start c + Length c)
          by (apply End_no_wrap; apply Hwfc).
        destruct Hwfc as ((_ & (? & _) & _) & _).
        destruct (separated_elem_of sep L a c Hp Ha Hc) as [-> | Hac]; [lia|].
        destruct (separated_elem_of sep L c b Hp Hc Hb) as [-> | Hcb]; [lia|].
        unfold separated in Hac, Hcb. unfold Length in *. lia. }
  destruct (LengthDiff_bounds a Hwfa) as [_ Hsz].
  assert (HEa : End a = Start a + Length a) by (apply End_no_wrap; apply Hwfa).
  lia.
Qed.

Lemma ForallOrdPairs_impl_In {A} (R R' : A -> A -> Prop) l :
  (forall a b, In a l -> In b l -> R a b -> R' a b) ->
  ForallOrdPairs R l -> ForallOrdPairs R' l.
Proof.
  intros Himp Hp. induction Hp as [|x l Hx Hp IH]; [constructor|].
  constructor.
  - rewrite Forall_forall in *. intros y Hy.
    apply Himp; [by left | right; by apply list_elem_of_In | by apply Hx].
  - apply IH. intros a b Ha Hb. apply Himp; by right.
Qed.

Lemma separated_after_pairwise sep L :
  1 <= sep -> Forall well_formed L -> ForallOrdPairs (separated sep) L ->
  ForallOrdPairs (separated_after sep L) L.
Proof.
  intros Hsep Hwf Hp.
  apply (ForallOrdPairs_impl_In (separated sep)); [|done].
  intros a b Ha Hb [Hab | Hba]; [left | right];
    by apply separated_after_of_separated.
Qed.

(** C2, as the code has it. A call with [separation == 0] throws
    [invalid_argument]. For [separation >= 1] and candidates whose window
    end [End + separation] is a [size_t] (at most [SIZE_MAX]),
    [BestMutations] returns after at most one iteration per candidate; its
    output is obtained by repeatedly emitting the highest-scoring remaining
    candidate and removing every candidate whose [[Start, End]] window lies
    within [separation] of it; and the emitted mutations are pairwise
    separated by at least [separation] template bases, in the coordinates
    they were scored in and in the coordinates after their application. *)
Theorem BestMutations_separated (scoredMuts : list ScoredMutation) (separation : Z) :
  1 <= separation -> Forall (fits separation) scoredMuts ->
  (forall fuel, BestMutations fuel scoredMuts 0 = Some (Throw invalid_argument))
  /\ exists selected : list Mutation,
       (forall fuel, (length scoredMuts <= fuel)%nat ->
          BestMutations fuel scoredMuts separation = Some (Ok selected))
       /\ greedy_selection separation scoredMuts selected
       /\ ForallOrdPairs (separated separation) selected
       /\ ForallOrdPairs (separated_after separation selected) selected.
Proof.
  intros Hsep Hfit. split; [done|].
  destruct (BestMutations_loop_spec separation Hsep (length scoredMuts) scoredMuts)
    as (selected & Hgreedy & Hloop); [done | done |].
  destruct (greedy_selection_separated _ _ _ Hfit Hgreedy) as [Hp Hwf].
  exists selected. repeat split; auto.
  - intros fuel Hfuel. unfold BestMutations.
    destruct (separation =? 0) eqn:E; [apply Z.eqb_eq in E; lia|].
    by rewrite Hloop.
  - by apply separated_after_pairwise.
Qed.

Lemma BestMutations_separated_witness :
  (forall fuel,
     BestMutations fuel
       [WithScore (Mutation_Substitution1 3 "A") 1; WithScore (Mutation_Insertion1 5 "C") 3;
        WithScore (Mutation_Deletion 7 1) 2; WithScore (Mutation_Substitution1 8 "G") 2] 0
     = Some (Throw invalid_argument))
  /\ exists selected : list Mutation,
       (forall fuel, (4 <= fuel)%nat ->
          BestMutations fuel
            [WithScore (Mutation_Substitution1 3 "A") 1; WithScore (Mutation_Insertion1 5 "C") 3;
             WithScore (Mutation_Deletion 7 1) 2; WithScore (Mutation_Substitution1 8 "G") 2] 2
          = Some (Ok selected))
       /\ greedy_selection 2
            [WithScore (Mutation_Substitution1 3 "A") 1; WithScore (Mutation_Insertion1 5 "C") 3;
             WithScore (Mutation_Deletion 7 1) 2; WithScore (Mutation_Substitution1 8 "G") 2]
            selected
       /\ ForallOrdPairs (separated 2) selected
       /\ ForallOrdPairs (separated_after 2 selected) selected.
Proof.
  apply (BestMutations_separated
           [WithScore (Mutation_Substitution1 3 "A") 1; WithScore (Mutation_Insertion1 5 "C") 3;
            WithScore (Mutation_Deletion 7 1) 2; WithScore (Mutation_Substitution1 8 "G") 2] 2).
  - lia.
  - repeat constructor; unfold is_size_t, SIZE_MAX, size; simpl; try lia;
      vm_compute; discriminate.
Defined.

Example BestMutations_example :
  BestMutations 4
    [WithScore (Mutation_Substitution1 3 "A") 1; WithScore (Mutation_Insertion1 5 "C") 3;
     WithScore (Mutation_Deletion 7 1) 2; WithScore (Mutation_Substitution1 8 "G") 2] 2
  = Some (Ok [Mutation_Insertion1 5 "C"; Mutation_Deletion 7 1]).
Proof. reflexivity. Qed.

(** The claim is about every separation of at least 1. The window start
    is clamped to 0 when [Start - separation] would fall below it, but the
    window end [End + separation] is computed in [size_t] and wraps around.
    With the separation [SIZE_MAX] the window of the deletion of the sites
    3 to 7 ends at site 7: the deletion at site 9 is not removed and is
    emitted next, one base after the first. The output is neither the
    greedy selection of the claim (which drops the second deletion) nor
    separated by [separation] bases, before or after application. *)
Lemma BestMutations_unseparated_selection :
  1 <= SIZE_MAX
  /\ (forall fuel, (2 <= fuel)%nat ->
        BestMutations fuel
          [WithScore (Mutation_Deletion 3 5) 2; WithScore (Mutation_Deletion 9 2) 1] SIZE_MAX
        = Some (Ok [Mutation_Deletion 3 5; Mutation_Deletion 9 2]))
  /\ ~ greedy_selection SIZE_MAX
         [WithScore (Mutation_Deletion 3 5) 2; WithScore (Mutation_Deletion 9 2) 1]
         [Mutation_Deletion 3 5; Mutation_Deletion 9 2]
  /\ ~ ForallOrdPairs (separated SIZE_MAX) [Mutation_Deletion 3 5; Mutation_Deletion 9 2]
  /\ ~ ForallOrdPairs
         (separated_after SIZE_MAX [Mutation_Deletion 3 5; Mutation_Deletion 9 2])
         [Mutation_Deletion 3 5; Mutation_Deletion 9 2].
Proof.
  split; [unfold SIZE_MAX; lia|].
  split.
  { intros fuel Hfuel. destruct fuel as [|[|fuel]]; [lia | lia |].
    unfold BestMutations. change (SIZE_MAX =? 0) with false. cbv iota.
    cbn [BestMutations_loop].
    change (remove_if _ [WithScore (Mutation_Deletion 3 5) 2; _])
      with [WithScore (Mutation_Deletion 9 2) 1].
    cbn [BestMutations_loop].
    change (remove_if _ [WithScore (Mutation_Deletion 9 2) 1])
      with (@nil ScoredMutation).
    by destruct fuel. }
  split.
  { intros Hg. inversion Hg as [|remaining best rest Hin Hmax Hrest Heq1 [Heq2 Heq3]].
    destruct best as [bm bs]. simpl in Heq2. subst bm. clear Heq1 Heq3 Hmax.
    destruct Hin as [Hb | [Hb | []]]; [|discriminate].
    vm_compute in Hrest.
    inversion Hrest as [|remaining' best' rest' Hin' _ _ Heq1' ]. destruct Hin'. }
  split.
  { intros Hp. inversion Hp as [|a l Ha _]; subst.
    inversion Ha as [|b l' Hab _]; subst.
    destruct Hab as [Hab | Hab]; vm_compute in Hab; by apply Hab. }
  { intros Hp. inversion Hp as [|a l Ha _]; subst.
    inversion Ha as [|b l' Hab _]; subst.
    destruct Hab as [Hab | Hab]; vm_compute in Hab; by apply Hab. }
Qed.

(** When the chosen candidate itself falls outside its wrapped window,
    [remove_if] leaves the list unchanged and the loop never ends. *)
Remark BestMutations_window_wraps_around (fuel : nat) :
  BestMutations fuel [WithScore (Mutation_Insertion1 5 "A") 1] SIZE_MAX = None.
Proof.
  unfold BestMutations. change (SIZE_MAX =? 0) with false. cbv iota.
  assert (Hloop : forall result,
    BestMutations_loop fuel [WithScore (Mutation_Insertion1 5 "A") 1] SIZE_MAX result = None).
  { induction fuel as [|fuel IH]; intros result; [done|].
    cbn [BestMutations_loop].
    change (remove_if _ _) with [WithScore (Mutation_Insertion1 5 "A") 1].
    apply IH. }
  by rewrite Hloop.
Qed.

(** ** The scoring pass of Polish and InvalidEvaluatorException *)

Section ScoringLoop.
Context {E : Type} `{EvaluatorOps E}.
Variable BestMutationHistogram : Integrator E -> Z -> MutationType -> list (ascii * Z).
Variable binomialCDF : Z -> Z -> Q.
Variable createAmbiguousBase : ascii -> ascii -> ascii.

Local Abbreviation score_candidate :=
  (score_candidate BestMutationHistogram binomialCDF createAmbiguousBase).
Local Abbreviation score_pass :=
  (score_pass BestMutationHistogram binomialCDF createAmbiguousBase).
Local Abbreviation scoring_loop :=
  (scoring_loop BestMutationHistogram binomialCDF createAmbiguousBase).

Lemma evals_LL_mut_inr (evs evs' : list E) mut :
  evals_LL_mut evs mut = inr evs' ->
  S (length (List.filter ev_is_valid evs')) = length (List.filter ev_is_valid evs)
  /\ length evs' = length evs.
Proof.
  revert evs'. induction evs as [|e evs IH]; intros evs' Heq; [done|].
  simpl in Heq. destruct (ev_is_valid e) eqn:Hv.
  - destruct (ev_LL_mut e mut) as [q|].
    + destruct (evals_LL_mut evs mut) as [s|rest] eqn:Hrest; [done|].
      injection Heq as <-. destruct (IH rest eq_refl) as [IH1 IH2].
      simpl. rewrite Hv. simpl. lia.
    + injection Heq as <-. simpl.
      rewrite ev_invalidate_spec, Hv. done.
  - destruct (evals_LL_mut evs mut) as [s|rest] eqn:Hrest; [done|].
    injection Heq as <-. destruct (IH rest eq_refl) as [IH1 IH2].
    simpl. rewrite Hv. lia.
Qed.

Lemma Integrator_LL_mut_cases ai mut :
  (exists ll, Integrator_LL_mut ai mut = (Ok ll, ai))
  \/ (exists ai', Integrator_LL_mut ai mut = (Throw InvalidEvaluatorException, ai')
                  /\ invalidated ai ai').
Proof.
  unfold Integrator_LL_mut.
  destruct (evals_LL_mut (evals_ ai) mut) as [s|evs] eqn:Heq.
  - left. by exists s.
  - right. eexists. split; [done|].
    destruct (evals_LL_mut_inr _ _ _ Heq) as [H1 H2].
    unfold invalidated, valid_count. simpl. done.
Qed.

Lemma score_candidate_cases cfg ai LL mut :
  (exists o, score_candidate cfg ai LL mut = (Ok o, ai))
  \/ (exists ai', score_candidate cfg ai LL mut = (Throw InvalidEvaluatorException, ai')
                  /\ invalidated ai ai').
Proof.
  assert (Hplain : (exists o, score_plain ai LL mut = (Ok o, ai))
    \/ (exists ai', score_plain ai LL mut = (Throw InvalidEvaluatorException, ai')
                    /\ invalidated ai ai')).
  { unfold score_plain.
    destruct (Integrator_LL_mut_cases ai mut) as [(ll & ->) | (ai' & -> & Hinv)];
      [left; eauto | right; eauto]. }
  unfold score_candidate.
  destruct (Diploid cfg && negb (MutationType_eqb (type_ mut) DELETION)); [|done].
  destruct (bool_decide (Bases mut = newDiploidMutation)); [|done].
  unfold score_diploid.
  repeat match goal with
         | |- context [if ?b then (Ok None, ai) else _] =>
           destruct b; [left; eauto|]
         end.
  match goal with
  | |- context [Integrator_LL_mut ai ?m] =>
    destruct (Integrator_LL_mut_cases ai m) as [(ll & ->) | (ai' & -> & Hinv)]
  end; [left; eauto | right; eauto].
Qed.

(** A pass either completes on an unchanged Integrator, having counted
    every candidate, or is left by InvalidEvaluatorException with one
    Evaluator invalidated. *)
Lemma score_pass_cases cfg ai LL muts : forall scoredMuts tested,
  (exists scored, score_pass cfg ai LL muts scoredMuts tested
                  = (Ok (scored, tested + Z.of_nat (length muts)), ai))
  \/ (exists ai', score_pass cfg ai LL muts scoredMuts tested
                  = (Throw InvalidEvaluatorException, ai')
                  /\ invalidated ai ai').
Proof.
  induction muts as [|mut muts IH]; intros scoredMuts tested.
  - left. exists scoredMuts. simpl. by rewrite Z.add_0_r.
  - cbn [score_pass].
    destruct (score_candidate_cases cfg ai LL mut) as [(o & ->) | (ai' & -> & Hinv)].
    + replace (tested + Z.of_nat (length (mut :: muts)))
        with (tested + 1 + Z.of_nat (length muts)) by (simpl length; lia).
      destruct o as [sm|]; apply IH.
    + right. eauto.
Qed.

(** The do-while loop ends after at most one pass per VALID Evaluator plus
    one, with the result of a pass that no exception interrupted. A pass
    that was interrupted contributes nothing: the final pass starts from
    no scored candidates and a counter of zero. *)
Lemma scoring_loop_terminates cfg muts n : forall ai scoredMuts tested,
  (valid_count ai <= n)%nat ->
  exists scored tested' ai' scoredMuts0 tested0,
    (forall fuel, (n < fuel)%nat ->
       scoring_loop fuel cfg ai muts scoredMuts tested = Some (Ok (scored, tested'), ai'))
    /\ score_pass cfg ai' (Integrator_LL ai') muts scoredMuts0 tested0
       = (Ok (scored, tested'), ai')
    /\ tested' = tested0 + Z.of_nat (length muts)
    /\ ((scoredMuts0 = scoredMuts /\ tested0 = tested /\ ai' = ai)
        \/ (scoredMuts0 = [] /\ tested0 = 0 /\ (valid_count ai' < valid_count ai)%nat))
    /\ fwdTpl_ ai' = fwdTpl_ ai.
Proof.
  induction n as [|n IH]; intros ai scoredMuts tested Hn.
  - destruct (score_pass_cases cfg ai (Integrator_LL ai) muts scoredMuts tested)
      as [(scored & Hpass) | (ai' & Hpass & (Hcount & _))]; [|lia].
    exists scored, (tested + Z.of_nat (length muts)), ai, scoredMuts, tested.
    repeat split; auto.
    intros [|fuel] Hfuel; [lia|]. cbn [scoring_loop]. by rewrite Hpass.
  - destruct (score_pass_cases cfg ai (Integrator_LL ai) muts scoredMuts tested)
      as [(scored & Hpass) | (ai1 & Hpass & (Hcount & Htpl & _))].
    + exists scored, (tested + Z.of_nat (length muts)), ai, scoredMuts, tested.
      repeat split; auto.
      intros [|fuel] Hfuel; [lia|]. cbn [scoring_loop]. by rewrite Hpass.
    + destruct (IH ai1 [] 0) as (scored & tested' & ai' & sc0 & t0 & Hloop & Hfinal
                                  & Ht & Hcase & Htpl'); [lia|].
      exists scored, tested', ai', [], 0.
      assert (sc0 = [] /\ t0 = 0 /\ (valid_count ai' <= valid_count ai1)%nat)
        as (-> & -> & Hle).
      { destruct Hcase as [(-> & -> & ->) | (-> & -> & ?)]; repeat split; auto; lia. }
      repeat split; auto.
      * intros [|fuel] Hfuel; [lia|]. cbn [scoring_loop]. rewrite Hpass.
        apply Hloop. lia.
      * right. repeat split; auto. lia.
      * congruence.
Qed.

(** C4. In the scoring loop of Polish, a pass in which some [LL(mut)] call
    signals InvalidEvaluator is abandoned: the loop goes on exactly as the
    loop started afresh, with no scored candidates and [mutationsTested]
    zero, on the same candidates and on the Integrator in which the
    offending Evaluator is disabled. The exception does not leave the loop:
    with one unit of fuel per VALID Evaluator plus one, the loop returns
    normally, and what it returns is the outcome of one uninterrupted pass
    over all candidates on the final Integrator. *)
Theorem scoring_loop_recovers cfg (ai : Integrator E) (muts : list Mutation) :
  (forall scoredMuts tested ai1 fuel,
     score_pass cfg ai (Integrator_LL ai) muts scoredMuts tested
       = (Throw InvalidEvaluatorException, ai1) ->
     scoring_loop (S fuel) cfg ai muts scoredMuts tested
       = scoring_loop fuel cfg ai1 muts [] 0
     /\ invalidated ai ai1)
  /\ exists scored ai',
       (forall fuel, (valid_count ai < fuel)%nat ->
          scoring_loop fuel cfg ai muts [] 0
          = Some (Ok (scored, Z.of_nat (length muts)), ai'))
       /\ score_pass cfg ai' (Integrator_LL ai') muts [] 0
          = (Ok (scored, Z.of_nat (length muts)), ai')
       /\ (valid_count ai' <= valid_count ai)%nat
       /\ fwdTpl_ ai' = fwdTpl_ ai.
Proof.
  split.
  - intros scoredMuts tested ai1 fuel Hpass. split.
    + cbn [scoring_loop]. by rewrite Hpass.
    + destruct (score_pass_cases cfg ai (Integrator_LL ai) muts scoredMuts tested)
        as [(scored & Hok) | (ai' & Hthrow & Hinv)]; congruence.
  - destruct (scoring_loop_terminates cfg muts (valid_count ai) ai [] 0)
      as (scored & tested' & ai' & sc0 & t0 & Hloop & Hfinal & Ht & Hcase & Htpl); [lia|].
    assert (sc0 = [] /\ t0 = 0 /\ (valid_count ai' <= valid_count ai)%nat)
      as (-> & -> & Hle).
    { destruct Hcase as [(-> & -> & ->) | (-> & -> & ?)]; repeat split; auto; lia. }
    simpl in Ht. subst tested'.
    exists scored, ai'. repeat split; auto.
Qed.

End ScoringLoop.

(** ** PolishRepeats and its mutationsTested counter *)

(** *** RepeatMutations returns *)

Lemma substr_ok (s : str) pos len :
  0 <= pos <= size s -> 0 <= len ->
  exists u, substr s pos len = Ok u /\ size u <= len.
Proof.
  intros Hpos Hlen. unfold substr.
  destruct (size s <? pos) eqn:E; [apply Z.ltb_lt in E; lia|].
  eexists. split; [done|]. unfold size.
  rewrite length_take. lia.
Qed.

Lemma compare_eq_ok (tpl : str) j i n :
  0 <= j <= size tpl -> 0 <= i <= size tpl -> 0 <= n ->
  exists same, compare_eq tpl j i n = Ok same.
Proof.
  intros Hj Hi Hn. unfold compare_eq.
  destruct (substr_ok tpl j n Hj Hn) as (a & -> & _).
  destruct (substr_ok tpl i n Hi Hn) as (b & -> & _).
  simpl. eauto.
Qed.

Section RepeatScan.
Variables (tpl : str) (cfg : RepeatConfig) (repeatSize end_ : Z).
Hypothesis Hrs : 1 <= repeatSize <= MaximumRepeatSize cfg.
Hypothesis Hend : 0 <= end_ <= size tpl.
Hypothesis Hfit : end_ + repeatSize <= SIZE_MAX.

Lemma count_elements_ok i k : forall j nElem,
  (Z.to_nat (end_ - j) <= k)%nat -> 0 <= i ->
  j = i + repeatSize * nElem -> 1 <= nElem -> j <= end_ ->
  exists n, nElem <= n /\ i + repeatSize * n <= end_
    /\ forall fuel, (k < fuel)%nat ->
         count_elements fuel tpl repeatSize end_ i j nElem = Some (Ok n).
Proof.
  induction k as [|k IH]; intros j nElem Hk Hi Hj Hn Hje.
  - exists nElem. split; [lia|]. split; [lia|]. intros fuel _.
    assert (Hw : wrap (j + repeatSize) = j + repeatSize) by (apply wrap_small; nia).
    destruct fuel; simpl; rewrite Hw;
      (destruct (j + repeatSize <=? end_) eqn:E; [apply Z.leb_le in E; lia | done]).
  - assert (Hw : wrap (j + repeatSize) = j + repeatSize) by (apply wrap_small; nia).
    destruct (j + repeatSize <=? end_) eqn:E.
    + pose proof E as E'. apply Z.leb_le in E'.
      destruct (compare_eq_ok tpl j i repeatSize) as (same & Hsame); [nia | nia | lia |].
      destruct same.
      * destruct (IH (j + repeatSize) (nElem + 1)) as (n & Hn1 & Hn2 & Hrun);
          [lia | lia | nia | lia | lia |].
        exists n. split; [lia|]. split; [done|].
        intros [|fuel] Hfuel; [lia|]. cbn [count_elements].
        rewrite Hw, E, Hsame. simpl.
        rewrite (wrap_small (nElem + 1)) by nia.
        apply Hrun. lia.
      * exists nElem. split; [lia|]. split; [lia|].
        intros [|fuel] Hfuel; [lia|]. cbn [count_elements].
        by rewrite Hw, E, Hsame.
    + exists nElem. split; [lia|]. split; [lia|]. intros fuel _.
      destruct fuel; simpl; by rewrite Hw, E.
Qed.

Lemma repeat_scan_ok k : forall i muts,
  (Z.to_nat (end_ - i) <= k)%nat -> 0 <= i <= end_ ->
  Forall (repeat_candidate (size tpl) (MaximumRepeatSize cfg)) muts ->
  exists muts',
    Forall (repeat_candidate (size tpl) (MaximumRepeatSize cfg)) muts'
    /\ forall F fuel, (Z.to_nat end_ < F)%nat -> (k < fuel)%nat ->
         repeat_scan fuel F tpl cfg repeatSize end_ i muts = Some (Ok muts').
Proof.
  induction k as [|k IH]; intros i muts Hk Hi Hgood.
  - exists muts. split; [done|]. intros F fuel _ _.
    assert (Hw : wrap (i + repeatSize) = i + repeatSize) by (apply wrap_small; lia).
    destruct fuel; simpl; rewrite Hw;
      (destruct (i + repeatSize <=? end_) eqn:E; [apply Z.leb_le in E; lia | done]).
  - assert (Hw : wrap (i + repeatSize) = i + repeatSize) by (apply wrap_small; lia).
    destruct (i + repeatSize <=? end_) eqn:E.
    2:{ exists muts. split; [done|]. intros F fuel _ _.
        destruct fuel; simpl; by rewrite Hw, E. }
    apply Z.leb_le in E.
    destruct (count_elements_ok i (Z.to_nat end_) (i + repeatSize) 1)
      as (n & Hn1 & Hn2 & Hcount); [lia | lia | lia | lia | lia |].
    destruct (substr_ok tpl i repeatSize) as (u & Hu & Hsz); [lia | lia |].
    set (muts1 := if MinimumElementCount cfg <=? n
                  then muts ++ [Mutation_Insertion i u; Mutation_Deletion i repeatSize]
                  else muts).
    assert (Hgood1 : Forall (repeat_candidate (size tpl) (MaximumRepeatSize cfg)) muts1).
    { subst muts1. destruct (MinimumElementCount cfg <=? n); [|done].
      apply Forall_app. split; [done|].
      constructor; [|constructor; [|constructor]].
      - unfold repeat_candidate, Start, Length, Bases; simpl.
        split; [lia|]. split; [lia|]. left. split; [done | lia].
      - unfold repeat_candidate, Start, Length, Bases; simpl.
        split; [lia|]. split; [lia|]. by right. }
    set (i' := if 1 <? n then i + (repeatSize * (n - 1) + 1) else i + 1).
    assert (Hi' : i < i' <= end_).
    { subst i'. destruct (1 <? n) eqn:E1; [apply Z.ltb_lt in E1 | apply Z.ltb_ge in E1]; nia. }
    destruct (IH i' muts1) as (muts' & Hgood' & Hrun); [lia | lia | done |].
    exists muts'. split; [done|].
    intros F [|fuel] HF Hfuel; [lia|]. cbn [repeat_scan].
    apply Z.leb_le in E. rewrite Hw, E, Hcount by lia. simpl.
    assert (Hi'w : (if 1 <? n
                    then wrap (i + wrap (wrap (repeatSize * wrap (n - 1)) + 1))
                    else wrap (i + 1)) = i').
    { subst i'. destruct (1 <? n) eqn:E1.
      - apply Z.ltb_lt in E1.
        rewrite (wrap_small (n - 1)) by nia.
        rewrite (wrap_small (repeatSize * (n - 1))) by nia.
        rewrite (wrap_small (repeatSize * (n - 1) + 1)) by nia.
        apply wrap_small. nia.
      - apply wrap_small. lia. }
    rewrite Hi'w.
    destruct (MinimumElementCount cfg <=? n) eqn:Emin.
    + rewrite Hu. simpl. apply Hrun; lia.
    + simpl. apply Hrun; lia.
Qed.

End RepeatScan.

Lemma repeat_sizes_ok (tpl : str) (cfg : RepeatConfig) (end_ : Z) :
  0 <= end_ <= size tpl -> end_ + MaximumRepeatSize cfg < SIZE_MAX ->
  forall k repeatSize muts,
    (Z.to_nat (MaximumRepeatSize cfg + 1 - repeatSize) <= k)%nat -> 1 <= repeatSize ->
    Forall (repeat_candidate (size tpl) (MaximumRepeatSize cfg)) muts ->
    exists muts',
      Forall (repeat_candidate (size tpl) (MaximumRepeatSize cfg)) muts'
      /\ forall F fuel, (Z.to_nat end_ < F)%nat -> (k < fuel)%nat ->
           repeat_sizes fuel F tpl cfg 0 end_ repeatSize muts = Some (Ok muts').
Proof.
  intros Hend Hfit. induction k as [|k IH]; intros repeatSize muts Hk Hrs Hgood.
  - exists muts. split; [done|]. intros F fuel _ _.
    destruct fuel; simpl;
      (destruct (repeatSize <=? MaximumRepeatSize cfg) eqn:E;
       [apply Z.leb_le in E; lia | done]).
  - destruct (repeatSize <=? MaximumRepeatSize cfg) eqn:E.
    2:{ exists muts. split; [done|]. intros F fuel _ _.
        destruct fuel; simpl; by rewrite E. }
    pose proof E as E'. apply Z.leb_le in E'.
    destruct (repeat_scan_ok tpl cfg repeatSize end_ ltac:(lia) Hend ltac:(lia)
                (Z.to_nat end_) 0 muts) as (muts1 & Hgood1 & Hscan);
      [lia | lia | done |].
    destruct (IH (repeatSize + 1) muts1) as (muts' & Hgood' & Hrun); [lia | lia | done |].
    exists muts'. split; [done|].
    intros F [|fuel] HF Hfuel; [lia|]. cbn [repeat_sizes].
    rewrite E, Hscan by lia. simpl.
    rewrite (wrap_small (repeatSize + 1)) by lia.
    apply Hrun; lia.
Qed.

Lemma Forall_std_sort (P : Mutation -> Prop) comp muts :
  Forall P muts -> Forall P (std_sort comp muts).
Proof.
  intros HP. unfold std_sort.
  by rewrite (merge_sort_Permutation (not_after comp) muts).
Qed.

Section RepeatDriver.
Context {E : Type} `{EvaluatorOps E}.

Lemma RepeatMutations_ok (ai : Integrator E) (cfg : RepeatConfig) :
  TemplateLength ai + MaximumRepeatSize cfg < SIZE_MAX ->
  exists muts,
    Forall (repeat_candidate (TemplateLength ai) (MaximumRepeatSize cfg)) muts
    /\ forall F, (Z.to_nat (TemplateLength ai + MaximumRepeatSize cfg) < F)%nat ->
         RepeatMutations F ai cfg = Some (Ok muts).
Proof.
  intros Hfit. unfold RepeatMutations, RepeatMutations_into, TemplateLength in *.
  pose proof (size_nonneg (fwdTpl_ ai)) as Hn.
  destruct ((MaximumRepeatSize cfg <? 2) || (MinimumElementCount cfg <=? 0)) eqn:Hguard.
  - exists []. split; [constructor|]. done.
  - apply orb_false_iff in Hguard as [HM _]. apply Z.ltb_ge in HM.
    destruct (repeat_sizes_ok (fwdTpl_ ai) cfg (size (fwdTpl_ ai)) ltac:(lia) Hfit
                (Z.to_nat (MaximumRepeatSize cfg)) 2 [])
      as (muts' & Hgood & Hrun); [lia | lia | constructor |].
    exists (std_sort SiteComparer muts'). split; [by apply Forall_std_sort|].
    intros F HF. rewrite Hrun by lia. done.
Qed.

Lemma repeat_pass_cases (ai : Integrator E) LL muts : forall bestMut,
  (exists best, repeat_pass ai LL muts bestMut = (Ok best, ai)
                /\ (best = bestMut \/ exists sm, best = Some sm /\ In (sm_mut sm) muts))
  \/ (exists ai', repeat_pass ai LL muts bestMut = (Throw InvalidEvaluatorException, ai')
                  /\ invalidated ai ai').
Proof.
  induction muts as [|mut muts IH]; intros bestMut.
  - left. exists bestMut. split; [done | by left].
  - cbn [repeat_pass].
    destruct (Integrator_LL_mut_cases ai mut) as [(ll & ->) | (ai' & -> & Hinv)];
      [|right; eauto].
    match goal with
    | |- context [repeat_pass ai LL muts ?b] =>
      destruct (IH b) as [(best & -> & Hbest) | (ai' & -> & Hinv)]
    end; [|right; eauto].
    left. exists best. split; [done|].
    destruct Hbest as [-> | (sm & -> & Hsm)].
    + match goal with
      | |- context [if ?c then _ else _] => destruct c
      end; [right | by left].
      eexists. split; [done|]. by left.
    + right. exists sm. split; [done | by right].
Qed.

Lemma repeat_scoring_loop_terminates muts n :
  forall (ai : Integrator E) bestMut tested,
  (valid_count ai <= n)%nat ->
  exists best tested' ai',
    (forall fuel, (n < fuel)%nat ->
       repeat_scoring_loop fuel ai muts bestMut tested = Some (Ok (best, tested'), ai'))
    /\ fwdTpl_ ai' = fwdTpl_ ai
    /\ length (evals_ ai') = length (evals_ ai)
    /\ (best = bestMut \/ best = None
        \/ exists sm, best = Some sm /\ In (sm_mut sm) muts).
Proof.
  induction n as [|n IH]; intros ai bestMut tested Hn.
  - destruct (repeat_pass_cases ai (Integrator_LL ai) muts bestMut)
      as [(best & Hpass & Hbest) | (ai' & Hpass & (Hcount & _))]; [|lia].
    exists best, tested, ai. repeat split; auto.
    + intros [|fuel] Hfuel; [lia|]. cbn [repeat_scoring_loop]. by rewrite Hpass.
    + destruct Hbest; auto.
  - destruct (repeat_pass_cases ai (Integrator_LL ai) muts bestMut)
      as [(best & Hpass & Hbest) | (ai1 & Hpass & (Hcount & Htpl & Hlen))].
    + exists best, tested, ai. repeat split; auto.
      * intros [|fuel] Hfuel; [lia|]. cbn [repeat_scoring_loop]. by rewrite Hpass.
      * destruct Hbest; auto.
    + destruct (IH ai1 None 0) as (best & tested' & ai' & Hloop & Htpl' & Hlen' & Hbest);
        [lia|].
      exists best, tested', ai'. repeat split; try congruence.
      * intros [|fuel] Hfuel; [lia|]. cbn [repeat_scoring_loop]. rewrite Hpass.
        apply Hloop. lia.
      * destruct Hbest as [-> | [-> | ?]]; auto.
Qed.

Lemma valid_count_le_length (ai : Integrator E) :
  (valid_count ai <= length (evals_ ai))%nat.
Proof. unfold valid_count. apply filter_length_le. Qed.

(** Applying one repeat candidate succeeds and lengthens the template by at
    most the maximum repeat size. *)
Lemma Integrator_ApplyMutations_single (ai : Integrator E) m M :
  0 <= M -> repeat_candidate (TemplateLength ai) M m ->
  exists ai2, fst (Integrator_ApplyMutations ai [m]) = Ok ai2
    /\ TemplateLength ai2 <= TemplateLength ai + M
    /\ length (evals_ ai2) = length (evals_ ai).
Proof.
  intros HM (Hstart & Hlen & Hkind).
  unfold Integrator_ApplyMutations, ApplyMutations, TemplateLength in *.
  change (std_sort SiteComparer [m]) with [m].
  destruct (fwdTpl_ ai) as [|c tpl] eqn:Htpl.
  { simpl. eexists. split; [done|]. simpl. rewrite length_map. unfold size; simpl. lia. }
  cbv beta iota.
  set (t := c :: tpl) in *. clearbody t.
  assert (exists t', apply_rev t [m] = Ok t' /\ size t' <= size t + M) as (t' & Ht' & Hsz).
  { unfold apply_rev. simpl. unfold apply_one.
    destruct Hkind as [[Hins Hb] | [Hins Hb]]; rewrite Hins.
    - unfold str_insert.
      destruct (size t <? Start m) eqn:Elt; [apply Z.ltb_lt in Elt; lia|].
      eexists. split; [done|].
      rewrite !size_app. unfold size in *.
      rewrite length_take, length_drop. lia.
    - unfold str_replace.
      destruct (size t <? Start m) eqn:Elt; [apply Z.ltb_lt in Elt; lia|].
      eexists. split; [done|].
      rewrite Hb, !size_app. unfold size in *. simpl.
      rewrite length_take, length_drop. lia. }
  rewrite Ht'. simpl. eexists. split; [done|]. simpl.
  rewrite length_map. split; [done | done].
Qed.

Lemma PolishRepeats_loop_terminates (cfg : RepeatConfig) iterations :
  0 <= MaximumRepeatSize cfg ->
  forall (ai : Integrator E) result,
  TemplateLength ai + (Z.of_nat iterations + 1) * MaximumRepeatSize cfg < SIZE_MAX ->
  exists r ai' F0, forall F, (F0 <= F)%nat ->
    PolishRepeats_loop F iterations ai cfg result = Some (Ok (r, ai')).
Proof.
  intros HM. induction iterations as [|iterations IH]; intros ai result Hfit.
  - exists result, ai, O. done.
  - pose proof (size_nonneg (fwdTpl_ ai)) as Hn. fold (TemplateLength ai) in Hn.
    destruct (RepeatMutations_ok ai cfg) as (muts & Hgood & Hmuts); [nia|].
    destruct (repeat_scoring_loop_terminates muts (length (evals_ ai)) ai None 0)
      as (best & tested & ai1 & Hscore & Htpl & Hlen & Hbest);
      [apply valid_count_le_length|].
    set (F1 := S (Z.to_nat (TemplateLength ai + MaximumRepeatSize cfg) + length (evals_ ai))).
    destruct best as [best|].
    + assert (Hin : In (sm_mut best) muts).
      { destruct Hbest as [? | [? | (sm & [= <-] & ?)]]; done. }
      rewrite Forall_forall in Hgood.
      apply list_elem_of_In, Hgood in Hin.
      destruct (Integrator_ApplyMutations_single ai1 (sm_mut best) (MaximumRepeatSize cfg))
        as (ai2 & Happly & Hsize & _); [done | |].
      { unfold TemplateLength in *. by rewrite Htpl. }
      match goal with
      | |- context [PolishRepeats_loop _ _ _ _ result] =>
        destruct (IH ai2 (mkPolishResult (hasConverged result)
                     (wrap (mutationsTested result + tested))
                     (wrap (mutationsApplied result + 1))))
          as (r & ai' & F0 & Hrest)
      end.
      { unfold TemplateLength in *. rewrite Htpl in Hsize. nia. }
      exists r, ai', (F0 `max` F1)%nat. intros F HF.
      cbn [PolishRepeats_loop].
      rewrite Hmuts by (unfold F1 in *; lia). simpl.
      rewrite Hscore by (unfold F1 in *; lia).
      rewrite Happly. simpl. apply Hrest. lia.
    + eexists _, ai1, F1. intros F HF.
      cbn [PolishRepeats_loop].
      rewrite Hmuts by (unfold F1 in *; lia). simpl.
      rewrite Hscore by (unfold F1 in *; lia). done.
Qed.

(** The counter of the inner loop is only ever assigned zero. *)
Lemma repeat_scoring_loop_tested fuel : forall (ai : Integrator E) muts bestMut best tested ai',
  repeat_scoring_loop fuel ai muts bestMut 0 = Some (Ok (best, tested), ai') ->
  tested = 0.
Proof.
  induction fuel as [|fuel IH]; intros ai muts bestMut best tested ai' Hloop; [done|].
  cbn [repeat_scoring_loop] in Hloop.
  destruct (repeat_pass ai (Integrator_LL ai) muts bestMut) as [[b|e] ai1].
  - by injection Hloop as _ <- _.
  - destruct e; try done. by apply IH in Hloop.
Qed.

Lemma PolishRepeats_loop_tested F iterations : forall (ai : Integrator E) cfg result r ai',
  mutationsTested result = 0 ->
  PolishRepeats_loop F iterations ai cfg result = Some (Ok (r, ai')) ->
  mutationsTested r = 0.
Proof.
  induction iterations as [|iterations IH]; intros ai cfg result r ai' Hzero Hrun.
  - simpl in Hrun. by injection Hrun as <- _.
  - cbn [PolishRepeats_loop] in Hrun.
    destruct (RepeatMutations F ai cfg) as [[muts|e]|]; simpl in Hrun; try done.
    destruct (repeat_scoring_loop F ai muts None 0) as [[[[best tested]|e] ai1]|] eqn:Hscore;
      try done.
    apply repeat_scoring_loop_tested in Hscore. subst tested.
    rewrite Hzero in Hrun. change (wrap (0 + 0)) with 0 in Hrun.
    destruct best as [best|].
    + destruct (fst (Integrator_ApplyMutations ai1 [sm_mut best])) as [ai2|e];
        simpl in Hrun; [|done].
      by apply IH in Hrun.
    + by injection Hrun as <- _.
Qed.

(** C8. Whatever the Integrator and the RepeatConfig, the PolishResult that
    [PolishRepeats] returns has [mutationsTested] equal to 0: the counter of
    the scoring loop is declared, reset on an exception and added to the
    result, but never incremented, although candidates are scored. And
    [PolishRepeats] does return a PolishResult whenever the template length
    and the configured sizes fit in [size_t]. *)
Theorem PolishRepeats_mutationsTested_zero (ai : Integrator E) (cfg : RepeatConfig) :
  (forall F result ai',
     PolishRepeats F ai cfg = Some (Ok (result, ai')) -> mutationsTested result = 0)
  /\ (0 <= MaximumRepeatSize cfg -> 0 <= RepeatMaximumIterations cfg ->
      TemplateLength ai + (RepeatMaximumIterations cfg + 1) * MaximumRepeatSize cfg
        < SIZE_MAX ->
      exists result ai' F0,
        mutationsTested result = 0
        /\ forall F, (F0 <= F)%nat -> PolishRepeats F ai cfg = Some (Ok (result, ai'))).
Proof.
  assert (Hzero : forall F result ai',
    PolishRepeats F ai cfg = Some (Ok (result, ai')) -> mutationsTested result = 0).
  { intros F result ai'. unfold PolishRepeats. by apply PolishRepeats_loop_tested. }
  split; [exact Hzero|].
  intros HM HI Hfit.
  destruct (PolishRepeats_loop_terminates cfg (Z.to_nat (RepeatMaximumIterations cfg))
              HM ai PolishResult_init) as (result & ai' & F0 & Hrun).
  { rewrite Z2Nat.id by done. done. }
  exists result, ai', F0. split; [|exact Hrun].
  apply (Hzero F0 result ai'), Hrun. lia.
Qed.

End RepeatDriver.

(** The repeat-expansion scenario of the spec: draft ACAC, reads ACACAC,
    repeat size 2 and element count 2. One copy of AC is inserted, two
    candidates are scored in each of the two rounds, and [mutationsTested]
    is reported as 0. *)
Lemma PolishRepeats_mutationsTested_zero_witness :
  PolishRepeats 10 (mismatch_integrator (lit "ACAC") [lit "ACACAC"; lit "ACACAC"])
    (mkRepeatConfig 2 2 5)
  = Some (Ok (mkPolishResult true 0 1,
              mismatch_integrator (lit "ACACAC") [lit "ACACAC"; lit "ACACAC"]))
  /\ mutationsTested (mkPolishResult true 0 1) = 0.
Proof.
  assert (Hrun : PolishRepeats 10
                   (mismatch_integrator (lit "ACAC") [lit "ACACAC"; lit "ACACAC"])
                   (mkRepeatConfig 2 2 5)
                 = Some (Ok (mkPolishResult true 0 1,
                       mismatch_integrator (lit "ACACAC") [lit "ACACAC"; lit "ACACAC"])))
    by (vm_compute; reflexivity).
  split; [exact Hrun|].
  exact (proj1 (PolishRepeats_mutationsTested_zero
                  (mismatch_integrator (lit "ACAC") [lit "ACACAC"; lit "ACACAC"])
                  (mkRepeatConfig 2 2 5)) 10%nat _ _ Hrun).
Defined.

(** ** The cycle guard of Polish *)

(** The first mutation in site order can be applied on its own whenever
    the whole sorted list can. *)
Lemma apply_rev_out_of_range (tpl : str) (rest : list Mutation) :
  rest <> [] -> Forall (fun r => size tpl < Start r) rest ->
  apply_rev tpl rest = Throw out_of_range.
Proof.
  induction rest as [|r rest IH]; intros Hne Hall; [done|].
  inversion Hall as [|? ? Hr Hrest]; subst.
  unfold apply_rev in *. simpl.
  destruct rest as [|r' rest].
  - simpl. unfold apply_one, str_insert, str_replace.
    apply Z.ltb_lt in Hr. rewrite Hr. by destruct (IsInsertion r).
  - rewrite IH by done. done.
Qed.

Lemma apply_front_ok (tpl : str) m rest t :
  Sorted (not_after SiteComparer) (m :: rest) ->
  apply_rev tpl (m :: rest) = Ok t ->
  exists t1, apply_one m tpl = Ok t1.
Proof.
  intros Hs Hall.
  destruct (apply_one m tpl) as [t1|e] eqn:Hone; [by exists t1|]. exfalso.
  assert (Hsz : size tpl < Start m).
  { unfold apply_one, str_insert, str_replace in Hone.
    destruct (size tpl <? Start m) eqn:Hlt; [by apply Z.ltb_lt in Hlt|].
    by destruct (IsInsertion m). }
  destruct rest as [|r rest].
  - unfold apply_rev in Hall. simpl in Hall. congruence.
  - assert (Hthrow : apply_rev tpl (r :: rest) = Throw out_of_range).
    { apply apply_rev_out_of_range; [done|].
      eapply Forall_impl; [apply (Sorted_Start_le m), Hs|].
      simpl. intros; lia. }
    unfold apply_rev in *. simpl in *. by rewrite Hthrow in Hall.
Qed.

Lemma separated_nonoverlapping sep a b :
  1 <= sep -> separated sep a b -> overlap a b = false.
Proof.
  intros Hsep Hs. unfold separated in Hs. unfold overlap.
  apply andb_false_iff. rewrite !Z.ltb_ge.
  destruct (IsInsertion a), (IsInsertion b); simpl; lia.
Qed.

Section CycleGuard.
Context {E : Type} `{EvaluatorOps E}.
Variable hashFn : str -> Z.

(** C3, as the code has it. In an iteration that selected a non-empty set
    of (well-formed, non-overlapping) mutations which can be applied to the
    template, with [h] the fingerprint of the template obtained by applying
    them all: if [h] is in the history, the driver applies a single
    selected mutation, the front of the selected vector as the call of
    [ApplyMutations] left it, and reseeds the candidates around every
    selected mutation ([NearbyMutations] gets the applied mutation as
    [applied] and the whole selection as [centers]); otherwise it applies
    all selected mutations and reseeds around them; in both cases the
    fingerprint of the resulting template is inserted into the history. *)
Theorem Polish_apply_cycle_guard (cfg : PolishConfig) (st : PolishState)
    (muts : list Mutation) (tplAll : str) :
  muts <> [] -> Forall well_formed muts -> pairwise_nonoverlapping muts ->
  fst (ApplyMutations (fwdTpl_ (ps_ai st)) muts) = Ok tplAll ->
  let selected := std_sort SiteComparer muts in
  exists st',
    Polish_apply hashFn cfg st muts = Ok st'
    /\ ps_history st' = {[ hashFn (fwdTpl_ (ps_ai st')) ]} ∪ ps_history st
    /\ ps_oldTpl st' = hashFn (fwdTpl_ (ps_ai st'))
    /\ (hashFn tplAll ∈ ps_history st ->
        In (front selected) muts
        /\ fst (ApplyMutations (fwdTpl_ (ps_ai st)) [front selected])
           = Ok (fwdTpl_ (ps_ai st'))
        /\ ps_muts st'
           = NearbyMutations [front selected] selected (ps_ai st')
               (MutationNeighborhood cfg) (Diploid cfg)
        /\ mutationsApplied (ps_result st')
           = wrap (mutationsApplied (ps_result st) + 1))
    /\ (hashFn tplAll ∉ ps_history st ->
        fwdTpl_ (ps_ai st') = tplAll
        /\ ps_muts st'
           = NearbyMutations selected selected (ps_ai st')
               (MutationNeighborhood cfg) (Diploid cfg)
        /\ mutationsApplied (ps_result st')
           = wrap (mutationsApplied (ps_result st) + Z.of_nat (length muts))).
Proof.
  intros Hne Hwf Hp Hall selected.
  assert (Hsorted : Sorted (not_after SiteComparer) selected) by apply std_sort_Sorted.
  assert (Hperm : selected ≡ₚ muts) by apply std_sort_Permutation.
  assert (Hidem : std_sort SiteComparer selected = selected).
  { apply (sorted_permutation_unique muts); auto using std_sort_Sorted.
    by rewrite std_sort_Permutation. }
  destruct selected as [|m rest] eqn:Hsel.
  { apply Permutation_nil in Hperm. done. }
  assert (Hfront : In m muts).
  { apply list_elem_of_In. rewrite <- Hperm. by left. }
  unfold Polish_apply.
  destruct (ApplyMutations (fwdTpl_ (ps_ai st)) muts) as [r sorted] eqn:Happ.
  assert (Hsnd : sorted = m :: rest).
  { unfold ApplyMutations in Happ. fold selected in Happ. rewrite Hsel in Happ.
    destruct (fwdTpl_ (ps_ai st)); by injection Happ as _ <-. }
  simpl in Hall. subst r sorted. cbn [bind].
  assert (Hsingle : exists t1,
            ApplyMutations (fwdTpl_ (ps_ai st)) [m] = (Ok t1, [m])).
  { unfold ApplyMutations in *. change (std_sort SiteComparer [m]) with [m].
    fold selected in Happ. rewrite Hsel in Happ.
    destruct (fwdTpl_ (ps_ai st)) as [|c tpl]; [by eexists|].
    injection Happ as Happ.
    destruct (apply_front_ok _ _ _ _ Hsorted Happ) as (t1 & Ht1).
    exists t1. unfold apply_rev. simpl. by rewrite Ht1. }
  destruct Hsingle as (t1 & Hsingle).
  destruct (bool_decide (hashFn tplAll ∈ ps_history st)) eqn:Hcycle.
  - apply bool_decide_eq_true in Hcycle.
    unfold Integrator_ApplyMutation, Integrator_ApplyMutations.
    cbn [front hd]. rewrite Hsingle. cbn [fst bind].
    eexists. split; [reflexivity|]. cbn.
    repeat split; try done.
  - apply bool_decide_eq_false in Hcycle.
    unfold Integrator_ApplyMutations.
    assert (Hagain : ApplyMutations (fwdTpl_ (ps_ai st)) (m :: rest)
                     = (Ok tplAll, m :: rest)).
    { unfold ApplyMutations in *. fold selected in Happ. rewrite Hsel in Happ.
      rewrite Hidem. done. }
    rewrite Hagain. cbn [bind].
    eexists. split; [reflexivity|]. cbn.
    repeat split; try done.
    apply Permutation_length in Hperm. simpl in Hperm. by rewrite <- Hperm.
Qed.

End CycleGuard.

(** The selection of [BestMutations] meets the hypotheses of the theorem:
    mutations separated by at least one base do not overlap. *)
Lemma separated_pairwise_nonoverlapping sep muts :
  1 <= sep -> ForallOrdPairs (separated sep) muts -> pairwise_nonoverlapping muts.
Proof.
  intros Hsep Hp. unfold pairwise_nonoverlapping.
  apply (ForallOrdPairs_impl_In (separated sep)); [|done].
  intros a b _ _. by apply separated_nonoverlapping.
Qed.

Lemma In_by_decide (m : Mutation) (l : list Mutation) :
  bool_decide (m ∈ l) = true -> In m l.
Proof. intros Hd. apply bool_decide_eq_true in Hd. by apply list_elem_of_In. Qed.

Lemma not_In_by_decide (m : Mutation) (l : list Mutation) :
  bool_decide (m ∈ l) = false -> ~ In m l.
Proof. intros Hd Hin. apply bool_decide_eq_false in Hd. by apply Hd, list_elem_of_In. Qed.

Ltac by_computation :=
  lazymatch goal with
  | |- ~ In _ _ => apply not_In_by_decide; vm_compute; reflexivity
  | |- In _ _ => apply In_by_decide; vm_compute; reflexivity
  | |- _ => vm_compute; reflexivity
  end.

Lemma Polish_apply_cycle_guard_witness :
  exists st',
    Polish_apply poly_hash cycle_config cycle_state cycle_selection = Ok st'
    /\ ps_history st' = {[ poly_hash (fwdTpl_ (ps_ai st')) ]} ∪ ps_history cycle_state
    /\ fst (ApplyMutations cycle_template [Mutation_Substitution1 2 "T"])
       = Ok (fwdTpl_ (ps_ai st')).
Proof.
  destruct (Polish_apply_cycle_guard poly_hash cycle_config cycle_state
              cycle_selection cycle_revisited)
    as (st' & Hrun & Hhist & _ & Hcyclic & _).
  - discriminate.
  - repeat constructor; unfold is_size_t, SIZE_MAX, size; simpl; lia.
  - repeat constructor.
  - by_computation.
  - exists st'. split; [exact Hrun|]. split; [exact Hhist|].
    apply Hcyclic. simpl. set_solver.
Defined.

(** The spec has the driver reseed the candidates in the neighbourhood of
    the one mutation it applied. In the cyclic round of
    the example the substitution at site 2 is applied (the front of the
    sorted selection, although the substitution at site 17 was selected
    first), and the new candidates include the deletion at site 17, far
    outside the neighbourhood of radius 2 of site 2: the candidates come
    from the neighbourhoods of all selected mutations. *)
Lemma Polish_apply_reseeds_every_selected :
  poly_hash cycle_revisited ∈ ps_history cycle_state
  /\ fst (ApplyMutations cycle_template cycle_selection) = Ok cycle_revisited
  /\ Polish_apply poly_hash cycle_config cycle_state cycle_selection = Ok cycle_next_state
  /\ fwdTpl_ (ps_ai cycle_next_state) = lit "ACTTACGTACGTACGTACGT"
  /\ fst (ApplyMutations cycle_template [Mutation_Substitution1 2 "T"])
     = Ok (fwdTpl_ (ps_ai cycle_next_state))
  /\ In (Mutation_Deletion 17 1) (ps_muts cycle_next_state)
  /\ ~ In (Mutation_Deletion 17 1)
       (NearbyMutations [Mutation_Substitution1 2 "T"] [Mutation_Substitution1 2 "T"]
          (ps_ai cycle_next_state) (MutationNeighborhood cycle_config)
          (Diploid cycle_config))
  /\ End (Mutation_Substitution1 2 "T") + MutationNeighborhood cycle_config
     < Start (Mutation_Deletion 17 1).
Proof.
  split; [simpl; set_solver|].
  split; [by_computation|].
  split; [by_computation|].
  split; [by_computation|].
  split; [by_computation|].
  split; [by_computation|].
  split; [by_computation|].
  by_computation.
Qed.

(** ** An interrupted scoring pass, run on the embedding *)

(** The first pass is interrupted at the second candidate, which the first
    Evaluator cannot score; the loop restarts, and the pass over both
    candidates completes on the remaining Evaluator: two candidates are
    counted (not three), one is kept, and the first Evaluator is invalid. *)
Example scoring_loop_restart :
  scoring_loop (fun _ _ _ => []) (fun _ _ => 0%Q) (fun a _ => a) 3
    (mkPolishConfig 10 10 5 false) partial_view_integrator partial_view_candidates [] 0
  = Some (Ok ([WithScore (Mutation_Substitution1 3 "A") 0], 2),
          mkIntegrator
            [mkMismatchEvaluator (lit "AC") (lit "AC") false;
             mkMismatchEvaluator (lit "ACGA") (lit "ACGT") true]
            (lit "ACGT"))
  /\ fst (score_pass (fun _ _ _ => []) (fun _ _ => 0%Q) (fun a _ => a)
            (mkPolishConfig 10 10 5 false) partial_view_integrator
            (Integrator_LL partial_view_integrator) partial_view_candidates [] 0)
     = Throw InvalidEvaluatorException.
Proof. split; vm_compute; reflexivity. Qed.

(** ** The end-to-end scenarios of the spec, run on the embedding *)

(** Single substitution: draft ACCT, reads ACGT, separation 10, at most 10
    iterations. The driver converges on ACGT after applying one mutation. *)
Example scenario_single_substitution :
  match Polish poly_hash (fun _ _ _ => []) (fun _ _ => 0%Q) (fun a _ => a) 10
          (mismatch_integrator (lit "ACCT") [lit "ACGT"; lit "ACGT"])
          (mkPolishConfig 10 10 5 false) with
  | Some (Ok (result, ai)) =>
    hasConverged result = true /\ mutationsApplied result = 1
    /\ fwdTpl_ ai = lit "ACGT"
  | _ => False
  end.
Proof. vm_compute. repeat split. Qed.

(** Homopolymer deletion: draft AAAAA, reads AAAA. The driver converges on
    AAAA. *)
Example scenario_homopolymer_deletion :
  match Polish poly_hash (fun _ _ _ => []) (fun _ _ => 0%Q) (fun a _ => a) 10
          (mismatch_integrator (lit "AAAAA") [lit "AAAA"; lit "AAAA"])
          (mkPolishConfig 10 10 5 false) with
  | Some (Ok (result, ai)) =>
    hasConverged result = true /\ mutationsApplied result = 1
    /\ fwdTpl_ ai = lit "AAAA"
  | _ => False
  end.
Proof. vm_compute. repeat split. Qed.

(** Identity: a template that matches its read converges at once, with no
    mutation applied. *)
Example scenario_identity :
  match Polish poly_hash (fun _ _ _ => []) (fun _ _ => 0%Q) (fun a _ => a) 10
          (mismatch_integrator (lit "ACGT") [lit "ACGT"])
          (mkPolishConfig 10 10 5 false) with
  | Some (Ok (result, ai)) =>
    hasConverged result = true /\ mutationsApplied result = 0
    /\ fwdTpl_ ai = lit "ACGT"
  | _ => False
  end.
Proof. vm_compute. repeat split. Qed.
(** ** ApplyMutations: errors, length of the result, round trips *)

Lemma overlap_sym a b : overlap a b = overlap b a.
Proof. unfold overlap. apply andb_comm. Qed.

Lemma pairwise_nonoverlapping_Permutation l l' :
  l ≡ₚ l' -> pairwise_nonoverlapping l -> pairwise_nonoverlapping l'.
Proof.
  unfold pairwise_nonoverlapping.
  induction 1 as [|x l l' Hp IH|x y l|l l' l'' _ IH1 _ IH2]; intros Hl.
  - done.
  - inversion Hl as [|? ? Hx Hrest]; subst. constructor; [|by apply IH].
    by rewrite <- Hp.
  - inversion Hl as [|? ? Hy Hrest]; subst.
    inversion Hrest as [|? ? Hx Hrest']; subst.
    inversion Hy as [|? ? Hyx Hyl]; subst.
    constructor; [constructor; [by rewrite overlap_sym | done]|].
    by constructor.
  - auto.
Qed.

(** Of two non-overlapping mutations, the one at the lower site ends
    before the other starts. *)
Lemma nonoverlapping_gap m r :
  well_formed m -> well_formed r -> nondegenerate r ->
  overlap m r = false -> Start m <= Start r ->
  End m + b2z (IsInsertion m) <= Start r.
Proof.
  intros Hm Hr Hnd Hov Hle.
  pose proof (well_formed_Start_le_End m Hm).
  unfold overlap in Hov. apply andb_false_iff in Hov. rewrite !Z.ltb_ge in Hov.
  destruct Hov as [Hov | Hov]; [|done].
  exfalso. destruct Hr as [Hcr Hwr].
  rewrite (End_no_wrap r) in Hov by done.
  destruct Hcr as ((?&?) & (?&?) & Hty).
  unfold nondegenerate, Start, Length, IsInsertion in *.
  destruct Hnd as [Hi | Hl]; [rewrite Hi in Hov; simpl in Hov; lia|].
  destruct (MutationType_eqb (type_ r) INSERTION); simpl in Hov; lia.
Qed.

Lemma size_take (s : str) p : 0 <= p <= size s -> size (take (Z.to_nat p) s) = p.
Proof. unfold size. intros. rewrite length_take. lia. Qed.

Lemma size_drop (s : str) p : 0 <= p <= size s -> size (drop (Z.to_nat p) s) = size s - p.
Proof. unfold size. intros. rewrite length_drop. lia. Qed.

Lemma apply_one_insertion (m : Mutation) (t : str) :
  IsInsertion m = true -> 0 <= Start m <= size t ->
  exists t', apply_one m t = Ok t'
    /\ size t' = size t + size (Bases m) /\ Start m <= size t'.
Proof.
  intros Hi Hs. unfold apply_one, str_insert. rewrite Hi.
  destruct (size t <? Start m) eqn:E; [apply Z.ltb_lt in E; lia|].
  eexists. split; [done|].
  rewrite !size_app, size_take, size_drop by done.
  pose proof (size_nonneg (Bases m)). lia.
Qed.

Lemma apply_one_replace (m : Mutation) (t : str) :
  IsInsertion m = false -> 0 <= Start m <= size t -> 0 <= Length m ->
  exists t', apply_one m t = Ok t' /\ Start m <= size t'
    /\ (Start m + Length m <= size t ->
        size t' = size t + size (Bases m) - Length m).
Proof.
  intros Hi Hs Hl. unfold apply_one, str_replace. rewrite Hi.
  destruct (size t <? Start m) eqn:E; [apply Z.ltb_lt in E; lia|].
  eexists. split; [done|].
  pose proof (size_nonneg (Bases m)).
  rewrite !size_app, size_take by done.
  split.
  - pose proof (size_nonneg (drop (Z.to_nat (Start m + Z.min (Length m) (size t - Start m))) t)).
    lia.
  - intros Hfit. rewrite Z.min_l, size_drop by lia. lia.
Qed.

Lemma apply_one_throws (m : Mutation) (t : str) :
  size t < Start m -> apply_one m t = Throw out_of_range.
Proof.
  intros Hs. unfold apply_one, str_insert, str_replace.
  apply Z.ltb_lt in Hs. rewrite Hs. by destruct (IsInsertion m).
Qed.

Lemma well_formed_ranges m :
  well_formed m -> 0 <= Start m /\ 0 <= Length m /\ End m = Start m + Length m
  /\ (IsInsertion m = true -> Length m = 0).
Proof.
  intros [Hc Hw]. rewrite End_no_wrap by done.
  destruct Hc as ((?&?) & (?&?) & Hty).
  unfold Start, Length, IsInsertion. repeat split; try lia.
  destruct (type_ m); simpl; done.
Qed.

(** The right-to-left loop on a vector with ascending sites whose
    mutations all start inside the string. *)
Lemma apply_rev_ok (tpl : str) l :
  ascending_Start l -> Forall well_formed l ->
  Forall (fun m => Start m <= size tpl) l ->
  exists t, apply_rev tpl l = Ok t
    /\ match l with [] => t = tpl | m :: _ => Start m <= size t end.
Proof.
  induction l as [|m rest IH]; intros Hasc Hwf Hin.
  - by exists tpl.
  - inversion Hasc as [|? ? Hrest Hle]; subst.
    inversion Hwf as [|? ? Hm Hwf']; subst.
    inversion Hin as [|? ? Hsm Hin']; subst.
    destruct (IH Hrest Hwf' Hin') as (t & Ht & Hlo).
    destruct (well_formed_ranges m Hm) as (Hs0 & Hl0 & _ & _).
    assert (Hfit : Start m <= size t).
    { destruct rest as [|r rest]; [by subst|].
      inversion Hle; subst. lia. }
    unfold apply_rev in *. simpl. rewrite Ht. simpl.
    destruct (IsInsertion m) eqn:Hi.
    + destruct (apply_one_insertion m t Hi) as (t' & Ht' & _ & Hlo'); [lia|].
      by exists t'.
    + destruct (apply_one_replace m t Hi) as (t' & Ht' & Hlo' & _); [lia | lia|].
      by exists t'.
Qed.

Lemma apply_rev_throws (tpl : str) l :
  ascending_Start l -> Exists (fun m => size tpl < Start m) l ->
  apply_rev tpl l = Throw out_of_range.
Proof.
  induction l as [|m rest IH]; intros Hasc Hex; [by inversion Hex|].
  inversion Hasc as [|? ? Hrest Hle]; subst.
  unfold apply_rev in *. simpl.
  destruct rest as [|r rest].
  - inversion Hex as [? ? Hm | ? ? Hr]; subst; [|by inversion Hr].
    simpl. by apply apply_one_throws.
  - rewrite IH; [done | done |].
    inversion Hex as [? ? Hm | ? ? Hr]; subst; [|done].
    inversion Hle; subst. left. lia.
Qed.

(** X1. On a non-empty template and a list of well-formed mutations that change
    the template and do not overlap (the lists [ApplyMutations] is meant
    for), the call returns a string when every mutation starts at or before
    the end of the template, and throws [std::out_of_range] as soon as one
    mutation starts beyond it: the mutation with the highest site is applied
    first, on the unchanged template. *)
Theorem ApplyMutations_out_of_range (tpl : str) (muts : list Mutation) :
  tpl <> [] -> Forall well_formed muts -> Forall nondegenerate muts ->
  pairwise_nonoverlapping muts ->
  (Forall (fun m => Start m <= size tpl) muts ->
   exists t, fst (ApplyMutations tpl muts) = Ok t)
  /\ (Exists (fun m => size tpl < Start m) muts ->
      fst (ApplyMutations tpl muts) = Throw out_of_range).
Proof.
  intros Hne Hwf _ _.
  pose proof (std_sort_ascending_Start muts) as Hasc.
  pose proof (std_sort_Permutation muts) as Hperm.
  unfold ApplyMutations.
  split.
  - intros Hin.
    destruct (apply_rev_ok tpl (std_sort SiteComparer muts)) as (t & Ht & _);
      [done | by rewrite Hperm | by rewrite Hperm |].
    destruct (std_sort SiteComparer muts) as [|m l]; [by exists tpl|].
    destruct tpl; [done|]. by exists t.
  - intros Hex.
    assert (Hex' : Exists (fun m => size tpl < Start m) (std_sort SiteComparer muts))
      by (by rewrite Hperm).
    pose proof (apply_rev_throws tpl _ Hasc Hex') as Hthrow.
    destruct (std_sort SiteComparer muts) as [|m l]; [by inversion Hex'|].
    destruct tpl; [done|]. done.
Qed.

Lemma ApplyMutations_out_of_range_witness :
  (exists t, fst (ApplyMutations (lit "ACGT")
                    [Mutation_Deletion 3 5; Mutation_Insertion1 2 "A"]) = Ok t)
  /\ fst (ApplyMutations (lit "ACGT")
            [Mutation_Substitution1 5 "A"; Mutation_Insertion1 0 "A"])
     = Throw out_of_range.
Proof.
  split.
  - apply ApplyMutations_out_of_range.
    + discriminate.
    + repeat constructor; unfold is_size_t, SIZE_MAX, size; simpl; lia.
    + repeat constructor; unfold nondegenerate, Length; simpl; lia.
    + repeat constructor.
    + repeat constructor; unfold Start, size; simpl; lia.
  - apply ApplyMutations_out_of_range.
    + discriminate.
    + repeat constructor; unfold is_size_t, SIZE_MAX, size; simpl; lia.
    + repeat constructor; unfold nondegenerate, Length; simpl; lia.
    + repeat constructor.
    + left. unfold Start, size; simpl. lia.
Defined.

(** *** Length of the result *)

Lemma sum_over_Permutation f l l' : l ≡ₚ l' -> sum_over f l = sum_over f l'.
Proof.
  induction 1 as [|x l l' _ IH|x y l|l l' l'' _ IH1 _ IH2]; simpl; lia.
Qed.

Lemma apply_rev_size (tpl : str) l :
  ascending_Start l -> Forall well_formed l -> Forall nondegenerate l ->
  pairwise_nonoverlapping l ->
  Forall (fun m => contained m (size tpl)) l ->
  exists t, apply_rev tpl l = Ok t
    /\ size t = size tpl + sum_over (fun m => size (Bases m) - Length m) l
    /\ match l with [] => t = tpl | m :: _ => Start m <= size t end.
Proof.
  induction l as [|m rest IH]; intros Hasc Hwf Hnd Hp Hin.
  - exists tpl. simpl. split; [done|]. split; [lia | done].
  - inversion Hasc as [|? ? Hrest Hle]; subst.
    inversion Hwf as [|? ? Hm Hwf']; subst.
    inversion Hnd as [|? ? Hndm Hnd']; subst.
    inversion Hp as [|? ? Hov Hp']; subst.
    inversion Hin as [|? ? Hcm Hin']; subst.
    destruct (IH Hrest Hwf' Hnd' Hp' Hin') as (t & Ht & Hsz & Hlo).
    destruct (well_formed_ranges m Hm) as (Hs0 & Hl0 & HE & Hil).
    assert (Hfit : Start m + Length m <= size t).
    { destruct rest as [|r rest].
      - subst t. unfold contained in Hcm.
        destruct (IsInsertion m) eqn:Hi; [rewrite Hil by done|]; lia.
      - inversion Hle as [|? ? Hmr _]; subst.
        inversion Hov as [|? ? Hovr _]; subst.
        inversion Hwf' as [|? ? Hr _]; subst.
        inversion Hnd' as [|? ? Hndr _]; subst.
        pose proof (nonoverlapping_gap m r Hm Hr Hndr Hovr Hmr) as Hgap.
        rewrite HE in Hgap. destruct (IsInsertion m); simpl in Hgap; lia. }
    unfold apply_rev in *. cbn [foldr sum_over]. rewrite Ht. cbn [bind].
    destruct (IsInsertion m) eqn:Hi.
    + destruct (apply_one_insertion m t Hi) as (t' & Ht' & Hsz' & Hlo'); [lia|].
      exists t'. split; [done|]. split; [|done].
      rewrite Hil in * by done. unfold sum_over in Hsz. lia.
    + destruct (apply_one_replace m t Hi) as (t' & Ht' & Hlo' & Hsz'); [lia | lia|].
      exists t'. split; [done|]. split; [|done].
      rewrite Hsz' by done. unfold sum_over in Hsz. lia.
Qed.

(** X2. On a non-empty template, applying well-formed, non-overlapping
    mutations that change the template and lie inside it never throws, and
    the new template is longer than the old one by the bases written minus
    the bases replaced: each insertion adds its bases, each deletion removes
    its length, a substitution leaves the length as it is. *)
Theorem ApplyMutations_size (tpl : str) (muts : list Mutation) :
  tpl <> [] -> Forall well_formed muts -> Forall nondegenerate muts ->
  pairwise_nonoverlapping muts ->
  Forall (fun m => contained m (size tpl)) muts ->
  exists t, fst (ApplyMutations tpl muts) = Ok t
    /\ size t = size tpl + sum_over (fun m => size (Bases m) - Length m) muts.
Proof.
  intros Hne Hwf Hnd Hp Hin.
  pose proof (std_sort_ascending_Start muts) as Hasc.
  pose proof (std_sort_Permutation muts) as Hperm.
  assert (Hsum : sum_over (fun m => size (Bases m) - Length m) (std_sort SiteComparer muts)
                 = sum_over (fun m => size (Bases m) - Length m) muts).
  { by apply sum_over_Permutation. }
  destruct (apply_rev_size tpl (std_sort SiteComparer muts)) as (t & Ht & Hsz & _);
    [done | by rewrite Hperm | by rewrite Hperm
     | by apply (pairwise_nonoverlapping_Permutation muts) | by rewrite Hperm |].
  unfold ApplyMutations.
  destruct (std_sort SiteComparer muts) as [|m l] eqn:Hsort.
  - exists tpl. split; [done|]. rewrite <- Hsum. simpl. lia.
  - destruct tpl; [done|]. exists t. split; [done|]. by rewrite <- Hsum.
Qed.

Lemma ApplyMutations_size_witness :
  exists t,
    fst (ApplyMutations (lit "ACGT")
           [Mutation_Deletion 2 2; Mutation_Insertion 0 (lit "TTT");
            Mutation_Substitution1 1 "A"]) = Ok t
    /\ size t = 4 + ((0 - 2) + ((3 - 0) + ((1 - 1) + 0))).
Proof.
  apply (ApplyMutations_size (lit "ACGT")
           [Mutation_Deletion 2 2; Mutation_Insertion 0 (lit "TTT");
            Mutation_Substitution1 1 "A"]).
  - discriminate.
  - repeat constructor; unfold is_size_t, SIZE_MAX, size; simpl; lia.
  - repeat constructor; unfold nondegenerate, Length; simpl; lia.
  - repeat constructor.
  - repeat constructor; unfold contained, Start, Length, size; simpl; lia.
Defined.

(** *** The result, in the coordinates of the old template *)

Lemma take_take_drop (l : str) (p s : nat) :
  (p <= s)%nat -> take p l ++ take (s - p) (drop p l) = take s l.
Proof.
  intros Hps. rewrite <- (take_drop p l) at 3.
  rewrite take_app. rewrite take_take.
  replace (s `min` p)%nat with p by lia.
  destruct (decide (p <= length l)%nat) as [Hle | Hgt].
  - rewrite length_take. replace (p `min` length l)%nat with p by lia. done.
  - rewrite (drop_ge l p) by lia. by rewrite !take_nil.
Qed.

Lemma apply_rev_splice (tpl : str) l : forall p,
  ascending_Start l -> Forall well_formed l -> Forall nondegenerate l ->
  pairwise_nonoverlapping l ->
  Forall (fun m => contained m (size tpl)) l ->
  0 <= p <= size tpl -> Forall (fun m => p <= Start m) l ->
  apply_rev tpl l = Ok (take (Z.to_nat p) tpl ++ splice tpl p l).
Proof.
  induction l as [|m rest IH]; intros p Hasc Hwf Hnd Hp Hin Hpr Hlo.
  - unfold apply_rev. simpl. by rewrite take_drop.
  - inversion Hasc as [|? ? Hrest Hle]; subst.
    inversion Hwf as [|? ? Hm Hwf']; subst.
    inversion Hnd as [|? ? Hndm Hnd']; subst.
    inversion Hp as [|? ? Hov Hp']; subst.
    inversion Hin as [|? ? Hcm Hin']; subst.
    inversion Hlo as [|? ? Hpm _]; subst.
    destruct (well_formed_ranges m Hm) as (Hs0 & Hl0 & HE & Hil).
    assert (Hend : End m <= size tpl).
    { unfold contained in Hcm. rewrite HE.
      destruct (IsInsertion m); [rewrite Hil by done|]; lia. }
    assert (Hgap : Forall (fun r => End m <= Start r) rest).
    { rewrite Forall_forall in Hle, Hov, Hwf', Hnd'.
      apply Forall_forall. intros r Hr.
      pose proof (nonoverlapping_gap m r Hm (Hwf' r Hr) (Hnd' r Hr) (Hov r Hr)
                    (Hle r Hr)) as Hg.
      destruct (IsInsertion m); simpl in Hg; lia. }
    specialize (IH (End m) Hrest Hwf' Hnd' Hp' Hin' ltac:(lia) Hgap).
    unfold apply_rev in *. cbn [foldr splice].
    rewrite IH. cbn [bind].
    set (tail := splice tpl (End m) rest).
    assert (Hlen : length (take (Z.to_nat (End m)) tpl) = Z.to_nat (End m)).
    { rewrite length_take. unfold size in Hend. lia. }
    assert (Htake : take (Z.to_nat (Start m)) (take (Z.to_nat (End m)) tpl ++ tail)
                    = take (Z.to_nat p) tpl
                      ++ take (Z.to_nat (Start m - p)) (drop (Z.to_nat p) tpl)).
    { rewrite take_app_le by lia. rewrite take_take.
      replace (Z.to_nat (Start m) `min` Z.to_nat (End m))%nat
        with (Z.to_nat (Start m)) by lia.
      replace (Z.to_nat (Start m - p)) with (Z.to_nat (Start m) - Z.to_nat p)%nat by lia.
      rewrite take_take_drop by lia. done. }
    assert (Hdrop : drop (Z.to_nat (End m)) (take (Z.to_nat (End m)) tpl ++ tail) = tail).
    { by rewrite drop_app_length'. }
    assert (Hsize : size (take (Z.to_nat (End m)) tpl ++ tail) >= End m).
    { rewrite size_app. unfold size at 1. rewrite Hlen.
      pose proof (size_nonneg tail). lia. }
    unfold apply_one.
    destruct (IsInsertion m) eqn:Hi.
    + rewrite Hil, Z.add_0_r in HE by done.
      unfold str_insert.
      destruct (_ <? Start m) eqn:Elt; [apply Z.ltb_lt in Elt; lia|].
      assert (Hdrop' : drop (Z.to_nat (Start m))
                         (take (Z.to_nat (End m)) tpl ++ tail) = tail)
        by (rewrite <- HE; exact Hdrop).
      f_equal. rewrite Htake, Hdrop'.
      by rewrite <- !app_assoc.
    + unfold str_replace.
      destruct (_ <? Start m) eqn:Elt; [apply Z.ltb_lt in Elt; lia|].
      rewrite Z.min_l by lia. rewrite <- HE, Hdrop, Htake.
      by rewrite <- !app_assoc.
Qed.

(** X3. On a non-empty template, for well-formed, non-overlapping mutations
    that change the template and lie inside it, the coordinates of every
    mutation refer to the template as it was before the call: the result is
    the old template in which each mutation, taken by ascending site,
    replaces the bases from its [Start] up to its [End] by its [Bases],
    and the stretches between the mutations are copied. *)
Theorem ApplyMutations_splices (tpl : str) (muts : list Mutation) :
  tpl <> [] -> Forall well_formed muts -> Forall nondegenerate muts ->
  pairwise_nonoverlapping muts ->
  Forall (fun m => contained m (size tpl)) muts ->
  fst (ApplyMutations tpl muts) = Ok (splice tpl 0 (snd (ApplyMutations tpl muts)))
  /\ snd (ApplyMutations tpl muts) ≡ₚ muts
  /\ ascending_Start (snd (ApplyMutations tpl muts)).
Proof.
  intros Hne Hwf Hnd Hp Hin.
  pose proof (std_sort_ascending_Start muts) as Hasc.
  pose proof (std_sort_Permutation muts) as Hperm.
  pose proof (apply_rev_splice tpl (std_sort SiteComparer muts) 0 Hasc) as Hrev.
  assert (Hsnd : snd (ApplyMutations tpl muts) = std_sort SiteComparer muts).
  { unfold ApplyMutations. destruct (std_sort SiteComparer muts); [done|].
    by destruct tpl. }
  rewrite Hsnd. split; [|done].
  unfold ApplyMutations.
  destruct (std_sort SiteComparer muts) as [|m l] eqn:Hsort.
  - simpl. done.
  - destruct tpl as [|c tpl']; [done|]. cbn [fst].
    rewrite Hrev; [done | | | | | |].
    + by rewrite Hperm.
    + by rewrite Hperm.
    + apply (pairwise_nonoverlapping_Permutation muts); [by symmetry | done].
    + by rewrite Hperm.
    + pose proof (size_nonneg (c :: tpl')). lia.
    + rewrite Hperm. eapply Forall_impl; [exact Hwf|].
      intros x Hx. by destruct (well_formed_ranges x Hx).
Qed.

Lemma ApplyMutations_splices_witness :
  let muts := [Mutation_Deletion 2 1; Mutation_Insertion 0 (lit "TT");
               Mutation_Substitution1 3 "A"] in
  fst (ApplyMutations (lit "ACGT") muts)
  = Ok (splice (lit "ACGT") 0 (snd (ApplyMutations (lit "ACGT") muts)))
  /\ snd (ApplyMutations (lit "ACGT") muts) ≡ₚ muts
  /\ ascending_Start (snd (ApplyMutations (lit "ACGT") muts)).
Proof.
  intros muts. apply (ApplyMutations_splices (lit "ACGT") muts).
  - discriminate.
  - repeat constructor; unfold is_size_t, SIZE_MAX, size; simpl; lia.
  - repeat constructor; unfold nondegenerate, Length; simpl; lia.
  - repeat constructor.
  - repeat constructor; unfold contained, Start, Length, size; simpl; lia.
Defined.

(** *** Round trips *)

Lemma ApplyMutations_single (tpl : str) m :
  tpl <> [] -> ApplyMutations tpl [m] = (apply_one m tpl, [m]).
Proof.
  intros Hne. unfold ApplyMutations.
  change (std_sort SiteComparer [m]) with [m].
  destruct tpl; [done|]. done.
Qed.

(** X4. An insertion is undone by the deletion of as many bases at the same
    site, and a deletion or substitution is undone by writing back the
    bases it removed, provided the intermediate template is not empty: a
    deletion of the whole template cannot be undone, since [ApplyMutations]
    leaves an empty template as it is. *)
Theorem ApplyMutations_round_trip (tpl : str) (i : Z) :
  tpl <> [] -> 0 <= i <= size tpl ->
  (forall bases, exists t,
     fst (ApplyMutations tpl [Mutation_Insertion i bases]) = Ok t
     /\ fst (ApplyMutations t [Mutation_Deletion i (size bases)]) = Ok tpl)
  /\ (forall n, 0 <= n -> i + n <= size tpl -> exists old t,
       substr tpl i n = Ok old
       /\ fst (ApplyMutations tpl [Mutation_Deletion i n]) = Ok t
       /\ (n < size tpl -> fst (ApplyMutations t [Mutation_Insertion i old]) = Ok tpl)
       /\ (n = size tpl -> t = []
           /\ fst (ApplyMutations t [Mutation_Insertion i old]) = Ok []))
  /\ (forall bases, i + size bases <= size tpl -> exists old t,
       substr tpl i (size bases) = Ok old
       /\ fst (ApplyMutations tpl [Mutation_Substitution i bases]) = Ok t
       /\ fst (ApplyMutations t [Mutation_Substitution i old]) = Ok tpl).
Proof.
  intros Hne Hi.
  assert (Hnil : forall t : str, size t <> 0 -> t <> []).
  { intros t Ht ->. by apply Ht. }
  assert (Hpos : 0 < size tpl).
  { destruct tpl; [done|]. unfold size. simpl. lia. }
  assert (Hleni : length (take (Z.to_nat i) tpl) = Z.to_nat i).
  { rewrite length_take. unfold size in Hi. lia. }
  split; [|split].
  - intros bases.
    rewrite ApplyMutations_single by done.
    unfold apply_one, Mutation_Insertion, Mutation_of_string, IsInsertion, Start, Bases.
    simpl. unfold str_insert.
    destruct (size tpl <? i) eqn:E; [apply Z.ltb_lt in E; lia|].
    eexists. split; [done|].
    set (t := take (Z.to_nat i) tpl ++ bases ++ drop (Z.to_nat i) tpl).
    assert (Hsz : size t = size tpl + size bases).
    { subst t. rewrite !size_app, size_take, size_drop by done. lia. }
    pose proof (size_nonneg bases) as Hb.
    rewrite ApplyMutations_single by (apply Hnil; lia).
    unfold apply_one, Mutation_Deletion, IsInsertion, Start, Length, Bases.
    simpl. unfold str_replace.
    destruct (size t <? i) eqn:E'; [apply Z.ltb_lt in E'; lia|].
    rewrite Z.min_l by lia. f_equal.
    assert (Htake : take (Z.to_nat i) t = take (Z.to_nat i) tpl)
      by (subst t; by rewrite take_app_length').
    assert (Hdrop : drop (Z.to_nat (i + size bases)) t = drop (Z.to_nat i) tpl).
    { subst t. rewrite app_assoc. apply drop_app_length'.
      rewrite length_app, Hleni. unfold size. lia. }
    rewrite Htake, Hdrop. apply take_drop.
  - intros n Hn Hfit.
    unfold substr.
    destruct (size tpl <? i) eqn:E; [apply Z.ltb_lt in E; lia|].
    eexists _, _. split; [done|].
    rewrite ApplyMutations_single by done.
    unfold apply_one, Mutation_Deletion, IsInsertion, Start, Length, Bases.
    simpl. unfold str_replace. rewrite E, Z.min_l by lia.
    split; [done|].
    set (t := take (Z.to_nat i) tpl ++ drop (Z.to_nat (i + n)) tpl).
    assert (Hsz : size t = size tpl - n).
    { subst t. rewrite !size_app, size_take, size_drop by lia. lia. }
    change (take (Z.to_nat i) tpl ++ [] ++ drop (Z.to_nat (i + n)) tpl) with t.
    split.
    + intros Hlt.
      rewrite ApplyMutations_single by (apply Hnil; lia).
      unfold apply_one, Mutation_Insertion, Mutation_of_string, IsInsertion, Start, Bases.
      simpl. unfold str_insert.
      destruct (size t <? i) eqn:E'; [apply Z.ltb_lt in E'; lia|].
      f_equal. subst t.
      rewrite take_app_length', drop_app_length' by done.
      rewrite Z2Nat.inj_add, <- drop_drop, take_drop by lia.
      apply take_drop.
    + intros ->. assert (Ht : t = []) by (apply size_zero_nil; lia).
      by rewrite Ht.
  - intros bases Hfit.
    pose proof (size_nonneg bases) as Hb.
    unfold substr.
    destruct (size tpl <? i) eqn:E; [apply Z.ltb_lt in E; lia|].
    eexists _, _. split; [done|].
    rewrite ApplyMutations_single by done.
    unfold apply_one, IsInsertion, Start, Length, Bases.
    cbn [Mutation_Substitution Mutation_of_string MutationType_eqb type_ start_
         length_ bases_].
    unfold str_replace. rewrite E, Z.min_l by lia.
    split; [done|].
    set (old := take (Z.to_nat (size bases)) (drop (Z.to_nat i) tpl)).
    assert (Hold : size old = size bases).
    { subst old. unfold size in *. rewrite length_take, length_drop. lia. }
    set (t := take (Z.to_nat i) tpl ++ bases ++ drop (Z.to_nat (i + size bases)) tpl).
    assert (Hsz : size t = size tpl).
    { subst t. rewrite !size_app, size_take, size_drop by lia. lia. }
    assert (Htake : take (Z.to_nat i) t = take (Z.to_nat i) tpl)
      by (subst t; by rewrite take_app_length').
    assert (Hdrop : drop (Z.to_nat (i + size bases)) t
                    = drop (Z.to_nat (i + size bases)) tpl).
    { subst t. rewrite app_assoc. apply drop_app_length'.
      rewrite length_app, Hleni. unfold size. lia. }
    assert (Hback : take (Z.to_nat i) tpl ++ old
                    ++ drop (Z.to_nat (i + size bases)) tpl = tpl).
    { subst old.
      rewrite Z2Nat.inj_add, <- drop_drop, take_drop by lia.
      apply take_drop. }
    clearbody old t.
    rewrite ApplyMutations_single by (apply Hnil; lia).
    unfold apply_one, IsInsertion, Start, Length, Bases.
    cbn [Mutation_Substitution Mutation_of_string MutationType_eqb type_ start_
         length_ bases_ fst].
    unfold str_replace.
    destruct (size t <? i) eqn:E'; [apply Z.ltb_lt in E'; lia|].
    rewrite Hold, Z.min_l by lia. f_equal.
    by rewrite Htake, Hdrop.
Qed.

Lemma ApplyMutations_round_trip_witness :
  exists t,
    fst (ApplyMutations (lit "ACGT") [Mutation_Insertion 2 (lit "TT")]) = Ok t
    /\ fst (ApplyMutations t [Mutation_Deletion 2 (size (lit "TT"))]) = Ok (lit "ACGT").
Proof.
  apply (ApplyMutations_round_trip (lit "ACGT") 2).
  - discriminate.
  - unfold size; simpl; lia.
Defined.
(** ** Translate *)

Lemma wrap_small' x : 0 <= x < 2 ^ 64 -> wrap x = x.
Proof. intros. apply wrap_small. unfold SIZE_MAX. lia. Qed.

(** Without overflow, [Translate] on an insertion. *)
Lemma Translate_of_insertion (m : Mutation) (start length : Z) :
  well_formed m -> IsInsertion m = true ->
  0 <= start -> 0 <= length -> start + length < SIZE_MAX ->
  Translate m start length
  = Ok (if (start - 1 <=? Start m) && (Start m <=? start + length)
        then Some (Mutation_Insertion (Z.max (Start m) start - start) (Bases m))
        else None).
Proof.
  intros Hwf Hi Hs Hl Hfit.
  destruct (well_formed_ranges m Hwf) as (Hs0 & Hl0 & HE & Hil).
  specialize (Hil Hi). rewrite Hil, Z.add_0_r in HE.
  assert (HSM : Start m <= SIZE_MAX).
  { destruct Hwf as (((?&?) & _) & _). done. }
  unfold Translate. rewrite Hi, HE. simpl b2z.
  unfold SIZE_MAX in *.
  rewrite (wrap_small' (start + length)) by lia.
  rewrite (wrap_small' (start + length + 1)) by lia.
  destruct (Z.eq_dec (Start m) (2 ^ 64 - 1)) as [Hmax | Hmax].
  - (* the site is SIZE_MAX: [End() + 1] wraps around to 0 *)
    rewrite Hmax. change (wrap (2 ^ 64 - 1 + 1)) with 0.
    destruct (0 <? start) eqn:E1; simpl.
    + apply Z.ltb_lt in E1.
      destruct (start - 1 <=? 2 ^ 64 - 1) eqn:E2; [|apply Z.leb_gt in E2; lia].
      destruct (2 ^ 64 - 1 <=? start + length) eqn:E3; [apply Z.leb_le in E3; lia|].
      done.
    + apply Z.ltb_ge in E1.
      destruct (start + length + 1 <=? 2 ^ 64 - 1) eqn:E4; [|apply Z.leb_gt in E4; lia].
      destruct (2 ^ 64 - 1 <=? start + length) eqn:E3; [apply Z.leb_le in E3; lia|].
      by rewrite andb_false_r.
  - rewrite (wrap_small' (Start m + 1)) by lia.
    destruct (Start m + 1 <? start) eqn:E1; simpl.
    + apply Z.ltb_lt in E1.
      destruct (start - 1 <=? Start m) eqn:E2; [apply Z.leb_le in E2; lia|]. done.
    + apply Z.ltb_ge in E1.
      destruct (start - 1 <=? Start m) eqn:E2; [|apply Z.leb_gt in E2; lia].
      destruct (start + length + 1 <=? Start m) eqn:E3.
      * apply Z.leb_le in E3.
        destruct (Start m <=? start + length) eqn:E4; [apply Z.leb_le in E4; lia|]. done.
      * apply Z.leb_gt in E3.
        destruct (Start m <=? start + length) eqn:E4; [|apply Z.leb_gt in E4; lia].
        simpl. rewrite wrap_small' by lia. done.
Qed.

(** Without overflow, [Translate] on a deletion or substitution. *)
Lemma Translate_of_replacement (m : Mutation) (start length : Z) :
  well_formed m -> IsInsertion m = false ->
  0 <= start -> 0 <= length -> start + length <= SIZE_MAX ->
  let lo := Z.max (Start m) start in
  let hi := Z.min (End m) (start + length) in
  Translate m start length
  = Ok (if lo <? hi
        then Some (mkMutation
                     (take (Z.to_nat (hi - lo)) (drop (Z.to_nat (lo - Start m)) (Bases m)))
                     (type_ m) (lo - start) (hi - lo))
        else None).
Proof.
  intros Hwf Hi Hs Hl Hfit lo hi.
  destruct (well_formed_ranges m Hwf) as (Hs0 & Hl0 & HE & _).
  assert (HEM : End m <= SIZE_MAX).
  { rewrite HE. destruct Hwf as [_ Hw]. unfold Start, Length. lia. }
  pose proof Hwf as (( _ & _ & Hty) & _).
  unfold Translate. rewrite Hi. simpl b2z. rewrite !Z.add_0_r.
  unfold SIZE_MAX in *.
  rewrite (wrap_small' (End m)) by lia.
  rewrite !(wrap_small' (start + length)) by lia.
  fold lo hi.
  destruct (End m <? start) eqn:E1; simpl.
  { apply Z.ltb_lt in E1.
    destruct (lo <? hi) eqn:E; [apply Z.ltb_lt in E; lia | done]. }
  apply Z.ltb_ge in E1.
  destruct (start + length <=? Start m) eqn:E2.
  { apply Z.leb_le in E2.
    destruct (lo <? hi) eqn:E; [apply Z.ltb_lt in E; lia | done]. }
  apply Z.leb_gt in E2.
  rewrite (wrap_small' (hi - lo)) by lia.
  destruct (hi - lo =? 0) eqn:E3.
  { apply Z.eqb_eq in E3.
    destruct (lo <? hi) eqn:E; [apply Z.ltb_lt in E; lia | done]. }
  apply Z.eqb_neq in E3.
  destruct (lo <? hi) eqn:E; [apply Z.ltb_lt in E | apply Z.ltb_ge in E; lia].
  rewrite (wrap_small' (lo - start)), (wrap_small' (lo - Start m)) by lia.
  unfold IsInsertion, IsDeletion, Bases, Start, Length in *.
  destruct (type_ m) eqn:Hty'; simpl in *; try done.
  - rewrite Hty, drop_nil, take_nil. done.
  - unfold substr.
    destruct (size (bases_ m) <? lo - start_ m) eqn:E4; [apply Z.ltb_lt in E4; lia|].
    simpl. unfold Mutation_Substitution, Mutation_of_string. simpl.
    do 3 f_equal. unfold size in *.
    rewrite length_take, length_drop. lia.
Qed.

(** X5. [Translate] on an insertion: the guard keeps the insertions whose site
    lies between one position before the window and the window's end, and
    moves the site to the window's coordinates; an insertion one position
    before the window lands on the window's first position. Every other
    insertion gives [boost::none]. *)
Theorem Translate_insertion_sites (m : Mutation) (start length : Z) :
  well_formed m -> IsInsertion m = true ->
  0 <= start -> 0 <= length -> start + length < SIZE_MAX ->
  (start - 1 <= Start m <= start + length ->
   Translate m start length
   = Ok (Some (Mutation_Insertion (Z.max (Start m) start - start) (Bases m))))
  /\ (Start m < start - 1 \/ start + length < Start m ->
      Translate m start length = Ok None).
Proof.
  intros Hwf Hi Hs Hl Hfit.
  rewrite Translate_of_insertion by done.
  split.
  - intros [H1 H2]. apply Z.leb_le in H1, H2. by rewrite H1, H2.
  - intros [H1 | H2].
    + apply Z.leb_gt in H1. by rewrite H1.
    + apply Z.leb_gt in H2. by rewrite H2, andb_false_r.
Qed.

Lemma Translate_insertion_sites_witness :
  Translate (Mutation_Insertion 4 (lit "AC")) 5 3
  = Ok (Some (Mutation_Insertion 0 (lit "AC")))
  /\ Translate (Mutation_Insertion 3 (lit "AC")) 5 3 = Ok None.
Proof.
  split.
  - apply (Translate_insertion_sites (Mutation_Insertion 4 (lit "AC")) 5 3);
      try done; unfold SIZE_MAX, Start; simpl; lia.
  - apply (Translate_insertion_sites (Mutation_Insertion 3 (lit "AC")) 5 3);
      try done; unfold SIZE_MAX, Start; simpl; lia.
Defined.

(** X6. [Translate] on a deletion or substitution: the mutation is cut down to
    the bases it shares with the window [start, start + length), in the
    window's coordinates; a substitution keeps the bases written to the
    shared positions. When no base is shared the result is [boost::none]. *)
Theorem Translate_shared_bases (m : Mutation) (start length : Z) :
  well_formed m -> IsInsertion m = false ->
  0 <= start -> 0 <= length -> start + length <= SIZE_MAX ->
  let lo := Z.max (Start m) start in
  let hi := Z.min (End m) (start + length) in
  (lo < hi ->
   Translate m start length
   = Ok (Some (mkMutation
                 (take (Z.to_nat (hi - lo)) (drop (Z.to_nat (lo - Start m)) (Bases m)))
                 (type_ m) (lo - start) (hi - lo))))
  /\ (hi <= lo -> Translate m start length = Ok None).
Proof.
  intros Hwf Hi Hs Hl Hfit lo hi.
  rewrite Translate_of_replacement by done. fold lo hi.
  split; intros Hc.
  - apply Z.ltb_lt in Hc. by rewrite Hc.
  - apply Z.ltb_ge in Hc. by rewrite Hc.
Qed.

Lemma Translate_shared_bases_witness :
  Translate (Mutation_Substitution 3 (lit "ACGT")) 5 10
  = Ok (Some (Mutation_Substitution 0 (lit "GT")))
  /\ Translate (Mutation_Deletion 3 2) 5 10 = Ok None.
Proof.
  split.
  - apply (Translate_shared_bases (Mutation_Substitution 3 (lit "ACGT")) 5 10);
      try done; unfold SIZE_MAX, Start, End; simpl; lia.
  - apply (Translate_shared_bases (Mutation_Deletion 3 2) 5 10);
      try done; unfold SIZE_MAX, Start, End; simpl; lia.
Defined.

(** X7. [Translate] does not throw: the call of [substr] on the bases of a
    substitution starts inside them, whatever the window is. *)
Theorem Translate_never_throws (m : Mutation) (start length : Z) :
  well_formed m -> 0 <= start <= SIZE_MAX ->
  exists o, Translate m start length = Ok o.
Proof.
  intros Hwf Hs.
  destruct (well_formed_ranges m Hwf) as (Hs0 & Hl0 & HE & _).
  assert (HEM : End m <= SIZE_MAX).
  { rewrite HE. destruct Hwf as [_ Hw]. unfold Start, Length. lia. }
  pose proof Hwf as (( _ & _ & Hty) & _).
  unfold Translate.
  destruct (_ || _) eqn:G; [by eexists|].
  apply orb_false_iff in G as [G1 _]. apply Z.ltb_ge in G1.
  destruct (IsInsertion m) eqn:Hi; [by eexists|].
  simpl b2z in G1. rewrite Z.add_0_r in G1.
  unfold SIZE_MAX in *. rewrite (wrap_small' (End m)) in G1 by lia.
  destruct (_ =? 0); [by eexists|].
  destruct (IsDeletion m) eqn:Hd; [by eexists|].
  unfold substr.
  match goal with |- context [if ?c then Throw _ else _] => destruct c eqn:E end;
    [|by eexists].
  exfalso. apply Z.ltb_lt in E.
  rewrite wrap_small' in E by lia.
  unfold IsInsertion, IsDeletion, Bases, Start, Length in *.
  destruct (type_ m); simpl in *; try done. lia.
Qed.

Lemma Translate_never_throws_witness :
  exists o, Translate (Mutation_Substitution 3 (lit "ACGT")) 5 (2 ^ 64 - 2) = Ok o.
Proof.
  apply Translate_never_throws; [done | unfold SIZE_MAX; lia].
Defined.

(** *** Translate and ApplyMutations *)

Lemma window_take (l : str) (S L q : nat) :
  (S <= q <= S + L)%nat -> (S + L <= length l)%nat ->
  take q l = take S l ++ take (q - S) (take L (drop S l)).
Proof.
  intros Hq Hl.
  rewrite take_take. replace ((q - S) `min` L)%nat with (q - S)%nat by lia.
  rewrite <- (take_drop S l) at 1.
  rewrite take_app, length_take.
  replace (S `min` length l)%nat with S by lia.
  rewrite take_take. replace (q `min` S)%nat with S by lia. done.
Qed.

Lemma window_drop (l : str) (S L q : nat) :
  (S <= q <= S + L)%nat -> (S + L <= length l)%nat ->
  drop q l = drop (q - S) (take L (drop S l)) ++ drop (S + L) l.
Proof.
  intros Hq Hl.
  replace q with (S + (q - S))%nat at 1 by lia.
  rewrite <- drop_drop.
  rewrite <- (take_drop L (drop S l)) at 1.
  rewrite drop_app_le by (rewrite length_take, length_drop; lia).
  by rewrite drop_drop.
Qed.

(** X8. For a mutation that lies inside a non-empty window of the template,
    [Translate] only moves the site to the window's coordinates, and
    applying the translated mutation to the window and putting the window
    back gives the template that applying the mutation itself gives. *)
Theorem Translate_commutes (tpl : str) (m : Mutation) (start length : Z) :
  well_formed m -> nondegenerate m ->
  0 <= start -> 1 <= length -> start + length <= size tpl -> size tpl < SIZE_MAX ->
  start <= Start m -> End m <= start + length ->
  let window := take (Z.to_nat length) (drop (Z.to_nat start) tpl) in
  let m' := mkMutation (Bases m) (type_ m) (Start m - start) (Length m) in
  exists w',
    Translate m start length = Ok (Some m')
    /\ fst (ApplyMutations window [m']) = Ok w'
    /\ fst (ApplyMutations tpl [m])
       = Ok (take (Z.to_nat start) tpl ++ w' ++ drop (Z.to_nat (start + length)) tpl).
Proof.
  intros Hwf Hnd Hs Hl Hfit Hmax Hlo Hhi window m'.
  destruct (well_formed_ranges m Hwf) as (Hs0 & Hl0 & HE & Hil).
  pose proof Hwf as (( _ & _ & Hty) & _).
  assert (Hwin : size window = length).
  { subst window. unfold size in *. rewrite length_take, length_drop. lia. }
  assert (Htr : Translate m start length = Ok (Some m')).
  { destruct (IsInsertion m) eqn:Hi.
    - rewrite Translate_of_insertion by (done || lia).
      rewrite Hil, Z.add_0_r in HE by done.
      destruct (start - 1 <=? Start m) eqn:E1; [|apply Z.leb_gt in E1; lia].
      destruct (Start m <=? start + length) eqn:E2; [|apply Z.leb_gt in E2; lia].
      simpl. rewrite Z.max_l by lia. subst m'.
      unfold Mutation_Insertion, Mutation_of_string, IsInsertion in *. simpl.
      rewrite Hil by done.
      destruct (type_ m); done.
    - rewrite Translate_of_replacement by (done || lia).
      destruct Hnd as [Hi' | Hlen]; [congruence|].
      rewrite Z.max_l, Z.min_l by lia.
      destruct (Start m <? End m) eqn:E; [|apply Z.ltb_ge in E; lia].
      subst m'. do 3 f_equal.
      + rewrite Z.sub_diag. simpl. apply take_ge.
        unfold IsInsertion, Bases, Length, Start in *.
        destruct (type_ m); simpl in *; try done.
        * rewrite Hty. simpl. lia.
        * unfold size in Hty. lia.
      + lia. }
  assert (Hne : tpl <> []).
  { intros ->. unfold size in Hfit. simpl in Hfit. lia. }
  assert (Hwne : window <> []).
  { intros Hw. rewrite Hw in Hwin. unfold size in Hwin. simpl in Hwin. lia. }
  rewrite !ApplyMutations_single by done. cbn [fst].
  set (S := Z.to_nat start). set (L := Z.to_nat length).
  set (p := Z.to_nat (Start m)). set (n := Z.to_nat (Length m)).
  assert (HSL : Z.to_nat (start + length) = (S + L)%nat) by (subst S L; lia).
  assert (Hlen : (S + L <= List.length tpl)%nat) by (unfold size in *; subst S L; lia).
  unfold apply_one. fold (IsInsertion m).
  change (IsInsertion m') with (IsInsertion m).
  change (Start m') with (Start m - start).
  change (Bases m') with (Bases m). change (Length m') with (Length m).
  destruct (IsInsertion m) eqn:Hi.
  - rewrite Hil, Z.add_0_r in HE by done.
    unfold str_insert. rewrite Hwin.
    destruct (length <? Start m - start) eqn:E1; [apply Z.ltb_lt in E1; lia|].
    destruct (size tpl <? Start m) eqn:E2; [apply Z.ltb_lt in E2; lia|].
    eexists. split; [done|]. split; [done|]. f_equal.
    replace (Z.to_nat (Start m - start)) with (p - S)%nat by (subst p S; lia).
    rewrite HSL. fold p S. subst window. fold S L.
    rewrite (window_take tpl S L p), (window_drop tpl S L p) by (subst p S L; lia).
    by rewrite <- !app_assoc.
  - unfold str_replace. rewrite Hwin.
    destruct (length <? Start m - start) eqn:E1; [apply Z.ltb_lt in E1; lia|].
    destruct (size tpl <? Start m) eqn:E2; [apply Z.ltb_lt in E2; lia|].
    eexists. split; [done|]. split; [done|]. f_equal.
    rewrite !Z.min_l by lia.
    replace (Z.to_nat (Start m - start)) with (p - S)%nat by (subst p S; lia).
    replace (Z.to_nat (Start m - start + Length m)) with (p + n - S)%nat
      by (subst p n S; lia).
    replace (Z.to_nat (Start m + Length m)) with (p + n)%nat by (subst p n; lia).
    rewrite HSL. fold p S. subst window. fold S L.
    rewrite (window_take tpl S L p), (window_drop tpl S L (p + n))
      by (subst p n S L; lia).
    by rewrite <- !app_assoc.
Qed.

Lemma Translate_commutes_witness :
  exists w',
    Translate (Mutation_Deletion 3 2) 2 4 = Ok (Some (Mutation_Deletion 1 2))
    /\ fst (ApplyMutations (lit "GTAC") [Mutation_Deletion 1 2]) = Ok w'
    /\ fst (ApplyMutations (lit "ACGTACGT") [Mutation_Deletion 3 2])
       = Ok (lit "AC" ++ w' ++ lit "GT").
Proof.
  apply (Translate_commutes (lit "ACGTACGT") (Mutation_Deletion 3 2) 2 4);
    try done; try (unfold SIZE_MAX, size; simpl; lia).
  right. unfold Length. simpl. lia.
Defined.

(** *** Translate into a window of a window *)

Lemma slice_slice (b : str) (a1 n1 a2 n2 : nat) :
  (a2 + n2 <= n1)%nat ->
  take n2 (drop a2 (take n1 (drop a1 b))) = take n2 (drop (a1 + a2) b).
Proof.
  intros Hle.
  replace n1 with (a2 + (n1 - a2))%nat by lia.
  rewrite <- take_drop_commute, take_take, drop_drop.
  f_equal. lia.
Qed.

(** X9. Translating into a window and then into a window of that window is
    translating into the inner window at once. For an insertion the site
    must not lie before the outer window: an insertion one position before
    a window is moved to the window's first position, which the inner
    window may contain. *)
Theorem Translate_compose (m : Mutation) (s1 l1 s2 l2 : Z) :
  well_formed m ->
  0 <= s1 -> 0 <= l1 -> s1 + l1 < SIZE_MAX ->
  0 <= s2 -> 0 <= l2 -> s2 + l2 <= l1 ->
  (IsInsertion m = true -> s1 <= Start m) ->
  bind (Translate m s1 l1)
       (fun o => match o with
                 | None => Ok None
                 | Some m1 => Translate m1 s2 l2
                 end)
  = Translate m (s1 + s2) l2.
Proof.
  intros Hwf Hs1 Hl1 Hfit Hs2 Hl2 Hin Hins.
  destruct (well_formed_ranges m Hwf) as (Hs0 & Hl0 & HE & Hil).
  pose proof Hwf as (((_ & HSM) & _ & Hty) & Hw).
  unfold SIZE_MAX in *.
  destruct (IsInsertion m) eqn:Hi.
  - specialize (Hins eq_refl).
    rewrite !Translate_of_insertion by (done || unfold SIZE_MAX; lia).
    destruct (s1 - 1 <=? Start m) eqn:E1; [|apply Z.leb_gt in E1; lia].
    destruct (Start m <=? s1 + l1) eqn:E2; simpl.
    + apply Z.leb_le in E2. rewrite Z.max_l by lia.
      set (m1 := Mutation_Insertion (Start m - s1) (Bases m)).
      rewrite Translate_of_insertion; try done; try (unfold SIZE_MAX; lia).
      2:{ subst m1. repeat split; simpl; unfold SIZE_MAX; try lia. }
      change (Start m1) with (Start m - s1). change (Bases m1) with (Bases m).
      replace (s2 - 1 <=? Start m - s1) with (s1 + s2 - 1 <=? Start m)
        by (apply eq_true_iff_eq; rewrite !Z.leb_le; lia).
      replace (Start m - s1 <=? s2 + l2) with (Start m <=? s1 + s2 + l2)
        by (apply eq_true_iff_eq; rewrite !Z.leb_le; lia).
      destruct (_ && _); [|done].
      do 3 f_equal. lia.
    + apply Z.leb_gt in E2.
      destruct (Start m <=? s1 + s2 + l2) eqn:E3; [apply Z.leb_le in E3; lia|].
      by rewrite andb_false_r.
  - rewrite !Translate_of_replacement by (done || unfold SIZE_MAX; lia).
    set (lo1 := Z.max (Start m) s1). set (hi1 := Z.min (End m) (s1 + l1)).
    set (lo := Z.max (Start m) (s1 + s2)). set (hi := Z.min (End m) (s1 + s2 + l2)).
    destruct (lo1 <? hi1) eqn:E1; simpl.
    2:{ apply Z.ltb_ge in E1.
        destruct (lo <? hi) eqn:E; [apply Z.ltb_lt in E; lia | done]. }
    apply Z.ltb_lt in E1.
    set (m1 := mkMutation _ _ _ _).
    assert (Hslice : size (bases_ m1) = if IsDeletion m then 0 else hi1 - lo1).
    { subst m1. simpl. unfold IsInsertion, IsDeletion, Bases, Start, Length in *.
      destruct (type_ m); simpl in *; try done.
      - rewrite Hty, drop_nil, take_nil. done.
      - unfold size in *. rewrite length_take, length_drop. lia. }
    assert (Hwf1 : well_formed m1).
    { unfold well_formed, constructed, is_size_t, SIZE_MAX. subst m1. simpl in *.
      repeat split; try lia.
      unfold IsInsertion, IsDeletion, Bases in *.
      destruct (type_ m); simpl in *; try done; try lia.
      rewrite Hty, drop_nil, take_nil. done. }
    rewrite Translate_of_replacement; try done; try (unfold SIZE_MAX; lia).
    assert (HE1 : End m1 = hi1 - s1).
    { rewrite End_no_wrap; [subst m1; simpl; lia | apply Hwf1 | apply Hwf1]. }
    rewrite HE1. change (Start m1) with (lo1 - s1).
    replace (Z.max (lo1 - s1) s2) with (lo - s1) by lia.
    replace (Z.min (hi1 - s1) (s2 + l2)) with (hi - s1) by lia.
    replace (lo - s1 <? hi - s1) with (lo <? hi)
      by (apply eq_true_iff_eq; rewrite !Z.ltb_lt; lia).
    destruct (lo <? hi) eqn:E; [|done].
    apply Z.ltb_lt in E.
    do 2 f_equal. change (type_ m1) with (type_ m).
    f_equal; try lia.
    subst m1. unfold Bases at 1. simpl.
    replace (hi - s1 - (lo - s1)) with (hi - lo) by lia.
    replace (lo - s1 - (lo1 - s1)) with (lo - lo1) by lia.
    rewrite slice_slice by lia.
    do 2 f_equal. lia.
Qed.

Lemma Translate_compose_witness :
  bind (Translate (Mutation_Substitution 3 (lit "ACGTAC")) 2 10)
       (fun o => match o with
                 | None => Ok None
                 | Some m1 => Translate m1 3 4
                 end)
  = Translate (Mutation_Substitution 3 (lit "ACGTAC")) (2 + 3) 4.
Proof.
  apply Translate_compose; try done; unfold SIZE_MAX; lia.
Defined.

(** ** The candidate generator in both modes *)

Section MutationsGeneral.
Context {E : Type}.
Implicit Types (ai : Integrator E) (muts : list Mutation).

Lemma Mutations_loop_general ai bases count : forall i muts,
  0 <= i ->
  Mutations_loop ai bases count i (last_base ai i) muts
  = (muts ++ flat_map (site_candidates_in bases ai) (seqZ i (Z.of_nat count)),
     last_base ai (i + Z.of_nat count)).
Proof.
  induction count as [|count IH]; intros i muts Hi.
  - cbn [Mutations_loop]. rewrite seqZ_nil by lia. simpl.
    by rewrite app_nil_r, Z.add_0_r.
  - cbn [Mutations_loop].
    rewrite !emplace_bases_spec.
    pose proof (IH (i + 1)) as IH'.
    rewrite (last_base_succ ai i Hi) in IH'.
    set (muts2 := if neqb (base_at ai i) (last_base ai i) then _ else _).
    rewrite IH' by lia.
    rewrite (seqZ_cons i (Z.of_nat (S count))) by lia.
    replace (Z.pred (Z.of_nat (S count))) with (Z.of_nat count) by lia.
    replace (i + 1 + Z.of_nat count) with (i + Z.of_nat (S count)) by lia.
    f_equal. cbn [flat_map]. unfold site_candidates_in at 2.
    replace (Z.succ i) with (i + 1) by lia.
    subst muts2.
    destruct (neqb (base_at ai i) (last_base ai i));
      by rewrite <- ?app_assoc.
Qed.

(** The generator appends the candidate set of the window, and nothing
    when the window is empty. *)
Lemma Mutations_into_eq muts ai start end_ diploid :
  0 <= start <= end_ ->
  Mutations_into muts ai start end_ diploid
  = muts ++ (if start =? end_ then []
             else candidates_in (candidate_bases diploid) ai start end_).
Proof.
  intros Hs. unfold Mutations_into, candidates_in.
  destruct (start =? end_) eqn:Heq; [by rewrite app_nil_r|].
  apply Z.eqb_neq in Heq.
  change (if 0 <? start then base_at ai (start - 1) else NUL)
    with (last_base ai start).
  rewrite Mutations_loop_general by lia.
  rewrite emplace_bases_spec.
  rewrite Z2Nat.id by lia.
  replace (start + (end_ - start)) with end_ by lia.
  by rewrite <- app_assoc.
Qed.

(** When the window is given back to front the loop over the positions
    does not run, and the insertions at [end_] are filtered by the base
    before [start]. *)
Lemma Mutations_into_inverted muts ai start end_ diploid :
  end_ < start ->
  Mutations_into muts ai start end_ diploid
  = muts ++ map (Mutation_Insertion1 end_)
              (List.filter (fun b => neqb b (last_base ai start))
                 (candidate_bases diploid)).
Proof.
  intros Hs. unfold Mutations_into.
  destruct (start =? end_) eqn:Heq; [apply Z.eqb_eq in Heq; lia|].
  replace (Z.to_nat (end_ - start)) with O by lia.
  cbn [Mutations_loop]. by rewrite emplace_bases_spec.
Qed.

End MutationsGeneral.

Section MutationsProperties.
Context {E : Type}.
Implicit Types (ai : Integrator E) (muts : list Mutation).

Lemma In_filter_neqb_in bases b c :
  In b (List.filter (fun j => neqb j c) bases) <-> In b bases /\ b <> c.
Proof. rewrite filter_In, neqb_true_iff. done. Qed.

Lemma In_site_candidates_in bases ai i m :
  In m (site_candidates_in bases ai i) <->
  (exists b, In b bases /\ b <> last_base ai i /\ m = Mutation_Insertion1 i b)
  \/ (base_at ai i <> last_base ai i /\ m = Mutation_Deletion i 1)
  \/ (exists b, In b bases /\ b <> base_at ai i /\ m = Mutation_Substitution1 i b).
Proof.
  unfold site_candidates_in.
  rewrite !in_app_iff, !in_map_iff.
  setoid_rewrite In_filter_neqb_in.
  split.
  - intros [(b & <- & Hb & Hne) | [Hdel | (b & <- & Hb & Hne)]].
    + left. by exists b.
    + right; left.
      destruct (neqb (base_at ai i) (last_base ai i)) eqn:Hn; [|done].
      destruct Hdel as [<- | []]. by apply neqb_true_iff in Hn.
    + right; right. by exists b.
  - intros [(b & Hb & Hne & ->) | [(Hne & ->) | (b & Hb & Hne & ->)]].
    + left. by exists b.
    + right; left. apply neqb_true_iff in Hne. rewrite Hne. by left.
    + right; right. by exists b.
Qed.

Lemma In_candidates_in bases ai start end_ m :
  In m (candidates_in bases ai start end_) <->
  (exists i, start <= i < end_ /\ In m (site_candidates_in bases ai i))
  \/ (exists b, In b bases /\ b <> last_base ai end_ /\ m = Mutation_Insertion1 end_ b).
Proof.
  unfold candidates_in.
  rewrite in_app_iff, in_flat_map, in_map_iff.
  setoid_rewrite <- list_elem_of_In at 1.
  setoid_rewrite elem_of_seqZ.
  setoid_rewrite In_filter_neqb_in.
  split.
  - intros [(i & Hi & Hm) | (b & <- & Hb & Hne)].
    + left. exists i. split; [lia | done].
    + right. by exists b.
  - intros [(i & Hi & Hm) | (b & Hb & Hne & ->)].
    + left. exists i. split; [lia | done].
    + right. by exists b.
Qed.

Lemma site_candidates_in_Start bases ai i m :
  In m (site_candidates_in bases ai i) -> Start m = i.
Proof.
  rewrite In_site_candidates_in.
  by intros [(b & _ & _ & ->) | [(_ & ->) | (b & _ & _ & ->)]].
Qed.

Lemma NoDup_map_filter_inj (f : ascii -> Mutation) (p : ascii -> bool) bases :
  (forall a b, f a = f b -> a = b) -> NoDup bases ->
  NoDup (map f (List.filter p bases)).
Proof.
  intros Hinj Hnd.
  induction Hnd as [|a l Ha Hnd IH]; simpl; [constructor|].
  destruct (p a); [|done]. simpl. constructor; [|done].
  intros Hin. apply list_elem_of_In, in_map_iff in Hin as (b & Heq & Hb).
  apply Hinj in Heq as ->. apply filter_In in Hb as [Hb _].
  by apply Ha, list_elem_of_In.
Qed.

Lemma site_candidates_in_NoDup bases ai i :
  NoDup bases -> NoDup (site_candidates_in bases ai i).
Proof.
  intros Hnd. unfold site_candidates_in.
  apply NoDup_app. split; [|split].
  - apply NoDup_map_filter_inj; [|done]. by intros a b [= ->].
  - intros m Hm Hm'. apply list_elem_of_In, in_map_iff in Hm as (b & <- & _).
    apply list_elem_of_In, in_app_iff in Hm' as [Hm' | Hm'].
    + destruct (neqb _ _); [|done]. by destruct Hm' as [? | []].
    + by apply in_map_iff in Hm' as (c & ? & _).
  - apply NoDup_app. split; [|split].
    + destruct (neqb _ _); [|constructor]. apply NoDup_singleton.
    + intros m Hm Hm'. destruct (neqb _ _); [|by apply elem_of_nil in Hm].
      apply list_elem_of_singleton in Hm as ->.
      by apply list_elem_of_In, in_map_iff in Hm' as (c & ? & _).
    + apply NoDup_map_filter_inj; [|done]. by intros a b [= ->].
Qed.

(** Candidates grouped by ascending position: no duplicates, ascending
    sites. *)
Lemma flat_map_sites (f : Z -> list Mutation) count : forall i,
  (forall j m, In m (f j) -> Start m = j) -> (forall j, NoDup (f j)) ->
  NoDup (flat_map f (seqZ i (Z.of_nat count)))
  /\ ascending_Start (flat_map f (seqZ i (Z.of_nat count)))
  /\ forall m, In m (flat_map f (seqZ i (Z.of_nat count))) ->
       i <= Start m < i + Z.of_nat count.
Proof.
  induction count as [|count IH]; intros i Hkey Hnd.
  - rewrite seqZ_nil by lia. simpl. repeat split; try constructor; done.
  - rewrite seqZ_cons by lia.
    replace (Z.pred (Z.of_nat (S count))) with (Z.of_nat count) by lia.
    destruct (IH (Z.succ i) Hkey Hnd) as (IH1 & IH2 & IH3).
    cbn [flat_map]. split; [|split].
    + apply NoDup_app. split; [done|]. split; [|done].
      intros m Hm Hm'. apply list_elem_of_In in Hm, Hm'.
      apply Hkey in Hm. apply IH3 in Hm'. lia.
    + apply StronglySorted_app_2; [| |done].
      * intros a b Ha Hb. apply list_elem_of_In in Ha, Hb.
        apply Hkey in Ha. apply IH3 in Hb. lia.
      * clear -Hkey. pose proof (Hkey i) as Hi.
        induction (f i) as [|a l IHl]; [constructor|].
        constructor.
        -- apply IHl. intros m Hm. apply Hi. by right.
        -- apply Forall_forall. intros b Hb. apply list_elem_of_In in Hb.
           rewrite (Hi a), (Hi b); [lia | by right | by left].
    + intros m Hm. apply in_app_iff in Hm as [Hm | Hm].
      * apply Hkey in Hm. lia.
      * apply IH3 in Hm. lia.
Qed.

Lemma same_site_ascending (l : list Mutation) s :
  (forall m, In m l -> Start m = s) -> ascending_Start l.
Proof.
  intros Hs. induction l as [|a l IH]; [constructor|].
  constructor.
  - apply IH. intros m Hm. apply Hs. by right.
  - apply Forall_forall. intros b Hb. apply list_elem_of_In in Hb.
    rewrite (Hs a), (Hs b); [lia | by right | by left].
Qed.

Lemma candidate_bases_NoDup diploid : NoDup (candidate_bases diploid).
Proof.
  destruct diploid; simpl.
  - apply NoDup_singleton.
  - apply (bool_decide_unpack _). by vm_compute.
Qed.

Lemma trailing_insertions bases c end_ :
  NoDup bases ->
  NoDup (map (Mutation_Insertion1 end_) (List.filter (fun b => neqb b c) bases))
  /\ forall m, In m (map (Mutation_Insertion1 end_)
                       (List.filter (fun b => neqb b c) bases)) -> Start m = end_.
Proof.
  intros Hnd. split.
  - apply NoDup_map_filter_inj; [|done]. by intros a b [= ->].
  - intros m Hm. by apply in_map_iff in Hm as (b & <- & _).
Qed.

(** X10. The generator proposes no candidate twice, and proposes the candidates
    by ascending site, whatever the window and the mode. *)
Theorem Mutations_NoDup_ascending ai start end_ diploid :
  0 <= start ->
  NoDup (Mutations ai start end_ diploid)
  /\ ascending_Start (Mutations ai start end_ diploid).
Proof.
  intros Hs. unfold Mutations.
  pose proof (candidate_bases_NoDup diploid) as Hb.
  destruct (Z_lt_le_dec end_ start) as [Hinv | Hle].
  - rewrite Mutations_into_inverted by done. simpl.
    destruct (trailing_insertions (candidate_bases diploid) (last_base ai start) end_ Hb)
      as [Hnd Hsite].
    split; [done | by apply (same_site_ascending _ end_)].
  - rewrite Mutations_into_eq by lia. simpl.
    destruct (start =? end_) eqn:Heq; [split; constructor|].
    apply Z.eqb_neq in Heq. unfold candidates_in.
    destruct (flat_map_sites (site_candidates_in (candidate_bases diploid) ai)
                (Z.to_nat (end_ - start)) start) as (H1 & H2 & H3).
    { intros j m. apply site_candidates_in_Start. }
    { intros j. by apply site_candidates_in_NoDup. }
    rewrite Z2Nat.id in H1, H2, H3 by lia.
    destruct (trailing_insertions (candidate_bases diploid) (last_base ai end_) end_ Hb)
      as [Hnd Hsite].
    split.
    + apply NoDup_app. split; [done|]. split; [|done].
      intros m Hm Hm'. apply list_elem_of_In in Hm, Hm'.
      apply H3 in Hm. apply Hsite in Hm'. lia.
    + apply StronglySorted_app_2; [|done|by apply (same_site_ascending _ end_)].
      intros a b Ha Hb'. apply list_elem_of_In in Ha, Hb'.
      apply H3 in Ha. apply Hsite in Hb'. lia.
Qed.

End MutationsProperties.

Lemma Mutations_NoDup_ascending_witness :
  NoDup (Mutations (mkIntegrator (@nil unit) (lit "AACG")) 1 3 true)
  /\ ascending_Start (Mutations (mkIntegrator (@nil unit) (lit "AACG")) 1 3 true).
Proof. apply Mutations_NoDup_ascending. lia. Defined.

Section MutationsModes.
Context {E : Type}.
Implicit Types (ai : Integrator E) (muts : list Mutation).

(** X11. In diploid mode the only base proposed is the sentinel [Z]: it is
    inserted before each position of the window and after the last one,
    unless the previous base is [Z]; it replaces each position that does
    not hold [Z]; the deletions are those of the haploid mode. *)
Theorem Mutations_diploid_candidates ai start end_ m :
  0 <= start < end_ ->
  (In m (Mutations ai start end_ true) <-> is_diploid_candidate ai start end_ m).
Proof.
  intros Hr. unfold Mutations. rewrite Mutations_into_eq by lia. simpl.
  destruct (start =? end_) eqn:Heq; [apply Z.eqb_eq in Heq; lia|].
  rewrite In_candidates_in. setoid_rewrite In_site_candidates_in.
  unfold is_diploid_candidate. simpl.
  split.
  - intros [(i & Hi & [(b & [<- | []] & Hne & ->) | [(Hne & ->)
              | (b & [<- | []] & Hne & ->)]]) | (b & [<- | []] & Hne & ->)].
    + left. exists i. split; [lia|]. split; [congruence | done].
    + right; left. by exists i.
    + right; right. exists i. split; [lia|]. split; [congruence | done].
    + left. exists end_. split; [lia|]. split; [congruence | done].
  - intros [(i & Hi & Hne & ->) | [(i & Hi & Hne & ->) | (i & Hi & Hne & ->)]].
    + destruct (Z.eq_dec i end_) as [-> | Hlt].
      * right. exists "Z"%char. split; [by left|]. split; [congruence | done].
      * left. exists i. split; [lia|]. left.
        exists "Z"%char. split; [by left|]. split; [congruence | done].
    + left. exists i. split; [lia|]. right; left. done.
    + left. exists i. split; [lia|]. right; right.
      exists "Z"%char. split; [by left|]. split; [congruence | done].
Qed.

Lemma insertion_at_edit start end_ len i b :
  0 <= start <= i -> i <= end_ -> end_ <= len -> len <= SIZE_MAX ->
  single_base_edit start end_ len (Mutation_Insertion1 i b).
Proof.
  intros. unfold single_base_edit, well_formed, constructed, is_size_t, nondegenerate,
    contained, Start, Length, Bases, size; simpl.
  repeat split; auto; lia.
Qed.

Lemma candidates_in_edit bases ai start end_ len m :
  0 <= start <= end_ -> end_ <= len -> len <= SIZE_MAX ->
  In m (candidates_in bases ai start end_) ->
  single_base_edit start end_ len m.
Proof.
  intros Hr Hend Hmax Hin.
  apply In_candidates_in in Hin as [(i & Hi & Hm) | (b & _ & _ & ->)].
  - apply In_site_candidates_in in Hm
      as [(b & _ & _ & ->) | [(_ & ->) | (b & _ & _ & ->)]].
    + apply insertion_at_edit; lia.
    + unfold single_base_edit, well_formed, constructed, is_size_t, nondegenerate,
        contained, Start, Length, Bases, size; simpl.
      repeat split; auto; try lia; right; lia.
    + unfold single_base_edit, well_formed, constructed, is_size_t, nondegenerate,
        contained, Start, Length, Bases, size; simpl.
      repeat split; auto; try lia; right; lia.
  - apply insertion_at_edit; lia.
Qed.

(** A single-base edit inside the template can be applied on its own. *)
Lemma single_base_edit_applies (tpl : str) start end_ m :
  single_base_edit start end_ (size tpl) m -> 0 <= start ->
  exists t, fst (ApplyMutations tpl [m]) = Ok t
    /\ (tpl <> [] -> size t = size tpl + size (Bases m) - Length m).
Proof.
  intros (Hwf & _ & Hsite & Hcont & _ & _) Hs.
  destruct tpl as [|c tpl'] eqn:Htpl; [by exists []|].
  rewrite <- Htpl in *. assert (Hne : tpl <> []) by (by rewrite Htpl).
  clear Htpl. rewrite ApplyMutations_single by done. cbn [fst].
  destruct (well_formed_ranges m Hwf) as (Hs0 & Hl0 & _ & Hil).
  unfold contained in *.
  destruct (IsInsertion m) eqn:Hi.
  - destruct (apply_one_insertion m tpl Hi) as (t & Ht & Hsz & _); [lia|].
    exists t. split; [done|]. intros _. rewrite Hil by done. lia.
  - destruct (apply_one_replace m tpl Hi) as (t & Ht & _ & Hsz); [lia | lia|].
    exists t. split; [done|]. intros _. apply Hsz. lia.
Qed.

(** X12. Every candidate of the generator, in both modes, is a single-base edit
    at a site of the window that lies inside the template, and it can be
    applied: [ApplyMutations] on it alone returns a template longer or
    shorter by the one base inserted or deleted, or of the same length. *)
Theorem Mutations_single_base_edits ai start end_ diploid m :
  0 <= start <= end_ -> end_ <= TemplateLength ai -> TemplateLength ai <= SIZE_MAX ->
  In m (Mutations ai start end_ diploid) ->
  single_base_edit start end_ (TemplateLength ai) m
  /\ exists t, fst (ApplyMutations (fwdTpl_ ai) [m]) = Ok t
       /\ size t = TemplateLength ai + size (Bases m) - Length m.
Proof.
  intros Hr Hend Hmax Hin. unfold Mutations in Hin.
  rewrite Mutations_into_eq in Hin by lia. simpl in Hin.
  destruct (start =? end_) eqn:Heq; [done|]. apply Z.eqb_neq in Heq.
  assert (Hne : fwdTpl_ ai <> []).
  { intros Hnil. unfold TemplateLength in Hend. rewrite Hnil in Hend.
    unfold size in Hend. simpl in Hend. lia. }
  assert (Hedit : single_base_edit start end_ (TemplateLength ai) m).
  { by apply (candidates_in_edit (candidate_bases diploid) ai). }
  split; [done|].
  destruct (single_base_edit_applies (fwdTpl_ ai) start end_ m Hedit ltac:(lia))
    as (t & Ht & Hsz).
  exists t. split; [done|]. by apply Hsz.
Qed.

End MutationsModes.

Lemma Mutations_diploid_candidates_witness :
  In (Mutation_Substitution1 2 "Z")
     (Mutations (mkIntegrator (@nil unit) (lit "AACG")) 1 3 true)
  <-> is_diploid_candidate (mkIntegrator (@nil unit) (lit "AACG")) 1 3
        (Mutation_Substitution1 2 "Z").
Proof. apply Mutations_diploid_candidates. lia. Defined.

Lemma Mutations_single_base_edits_witness :
  single_base_edit 1 3 4 (Mutation_Deletion 2 1)
  /\ exists t,
       fst (ApplyMutations (lit "AACG") [Mutation_Deletion 2 1]) = Ok t
       /\ size t = 4 + 0 - 1.
Proof.
  apply (Mutations_single_base_edits (mkIntegrator (@nil unit) (lit "AACG")) 1 3 false).
  - lia.
  - vm_compute; discriminate.
  - vm_compute; discriminate.
  - by_computation.
Defined.

(** ** NearbyMutations stays inside the template *)

Lemma to_int_le (x : Z) : 0 <= x -> to_int x <= x.
Proof.
  intros Hx. unfold to_int.
  pose proof (Z.mod_le (x + 2 ^ 31) (2 ^ 32) ltac:(lia) ltac:(lia)). lia.
Qed.

Lemma clamp_range (len i : Z) : 0 <= len -> 0 <= clamp len i <= len.
Proof. intros Hl. unfold clamp. pose proof (to_int_le len Hl). lia. Qed.

Lemma mutRange_in_template len neighborhood mut diff :
  0 <= len -> in_template len (mutRange len neighborhood mut diff).
Proof.
  intros Hl. unfold in_template, mutRange. simpl.
  split; by apply clamp_range.
Qed.

Lemma nearby_ranges_in_template len neighborhood centers :
  0 <= len ->
  forall applied lengthDiff ranges_rev currEnd,
    Forall (in_template len) ranges_rev ->
    Forall (in_template len)
      (nearby_ranges len neighborhood centers applied lengthDiff ranges_rev currEnd).
Proof.
  intros Hl. induction centers as [|c cs IH];
    intros applied lengthDiff ranges_rev currEnd Hr.
  - simpl. by apply Forall_rev.
  - cbn [nearby_ranges].
    destruct (advance applied c lengthDiff) as [applied' lengthDiff'].
    pose proof (mutRange_in_template len neighborhood c lengthDiff' Hl) as Hc.
    destruct (mutRange len neighborhood c lengthDiff') as [nextStart nextEnd].
    destruct Hc as [Hc1 Hc2]. simpl in Hc1, Hc2.
    destruct (nextStart <=? currEnd).
    + apply IH. destruct ranges_rev as [|[first second] rs]; [constructor|].
      inversion Hr as [|? ? [Hf _] Hrs]; subst. simpl in Hf.
      constructor; [|done]. split; simpl; lia.
    + apply IH. constructor; [|done]. split; simpl; lia.
Qed.

Section NearbyInside.
Context {E : Type}.
Implicit Types (ai : Integrator E).

Lemma Mutations_into_edits muts ai a b diploid :
  TemplateLength ai <= SIZE_MAX -> in_template (TemplateLength ai) (a, b) ->
  Forall (single_base_edit 0 (TemplateLength ai) (TemplateLength ai)) muts ->
  Forall (single_base_edit 0 (TemplateLength ai) (TemplateLength ai))
    (Mutations_into muts ai a b diploid).
Proof.
  intros Hmax [Ha Hb] Hmuts. simpl in Ha, Hb.
  destruct (Z_lt_le_dec b a) as [Hinv | Hle].
  - rewrite Mutations_into_inverted by done.
    apply Forall_app. split; [done|].
    apply Forall_forall. intros m Hm.
    apply list_elem_of_In, in_map_iff in Hm as (c & <- & _).
    apply insertion_at_edit; lia.
  - rewrite Mutations_into_eq by lia.
    apply Forall_app. split; [done|].
    destruct (a =? b); [constructor|].
    apply Forall_forall. intros m Hm. apply list_elem_of_In in Hm.
    apply (candidates_in_edit _ _ _ _ (TemplateLength ai)) in Hm; [|lia..].
    destruct Hm as (? & ? & ? & ? & ? & ?).
    split; [done|]. split; [done|]. split; [lia | done].
Qed.

Lemma NearbyMutations_edits applied centers ai neighborhood diploid :
  TemplateLength ai <= SIZE_MAX ->
  Forall (single_base_edit 0 (TemplateLength ai) (TemplateLength ai))
    (NearbyMutations applied centers ai neighborhood diploid).
Proof.
  intros Hmax. unfold NearbyMutations.
  pose proof (size_nonneg (fwdTpl_ ai)) as Hlen. fold (TemplateLength ai) in Hlen.
  destruct (std_sort SiteComparer centers) as [|c cs]; [constructor|].
  destruct (advance (std_sort SiteComparer applied) c 0) as [applied' lengthDiff].
  set (r0 := mutRange (TemplateLength ai) neighborhood c lengthDiff).
  assert (Hranges : Forall (in_template (TemplateLength ai))
            (nearby_ranges (TemplateLength ai) neighborhood cs applied' lengthDiff
               [r0] (snd r0))).
  { apply nearby_ranges_in_template; [done|].
    constructor; [by apply mutRange_in_template | constructor]. }
  revert Hranges.
  generalize (nearby_ranges (TemplateLength ai) neighborhood cs applied' lengthDiff
                [r0] (snd r0)).
  intros ranges Hranges.
  assert (Hacc : Forall (single_base_edit 0 (TemplateLength ai) (TemplateLength ai))
                   (@nil Mutation)) by constructor.
  revert Hacc. generalize (@nil Mutation).
  induction Hranges as [|[a b] ranges Hr _ IH]; intros acc Hacc; [done|].
  simpl. apply IH. by apply Mutations_into_edits.
Qed.

(** X13. Whatever the applied mutations, the centers and the neighbourhood are,
    every candidate that [NearbyMutations] returns is a single-base edit
    inside the current template, which [ApplyMutations] can apply: the
    ranges are clamped to the template before the generator runs on
    them. *)
Theorem NearbyMutations_inside applied centers ai neighborhood diploid m :
  TemplateLength ai <= SIZE_MAX ->
  In m (NearbyMutations applied centers ai neighborhood diploid) ->
  single_base_edit 0 (TemplateLength ai) (TemplateLength ai) m
  /\ exists t, fst (ApplyMutations (fwdTpl_ ai) [m]) = Ok t.
Proof.
  intros Hmax Hin.
  pose proof (NearbyMutations_edits applied centers ai neighborhood diploid Hmax) as Hall.
  rewrite Forall_forall in Hall. apply list_elem_of_In, Hall in Hin.
  split; [done|].
  destruct (single_base_edit_applies (fwdTpl_ ai) 0 (TemplateLength ai) m Hin ltac:(lia))
    as (t & Ht & _).
  by exists t.
Qed.

End NearbyInside.

Lemma NearbyMutations_inside_witness :
  single_base_edit 0 4 4 (Mutation_Insertion1 4 "A")
  /\ exists t, fst (ApplyMutations (lit "ACGT") [Mutation_Insertion1 4 "A"]) = Ok t.
Proof.
  apply (NearbyMutations_inside [Mutation_Deletion 3 1] [Mutation_Deletion 3 1]
           (mkIntegrator (@nil unit) (lit "ACGT")) 100 false).
  - vm_compute; discriminate.
  - by_computation.
Defined.

(** ** What the scoring loop of Polish returns in haploid mode *)

Section HaploidScoring.
Context {E : Type} `{EvaluatorOps E}.
Variable hashFn : str -> Z.
Variable BestMutationHistogram : Integrator E -> Z -> MutationType -> list (ascii * Z).
Variable binomialCDF : Z -> Z -> Q.
Variable createAmbiguousBase : ascii -> ascii -> ascii.

Local Abbreviation score_pass :=
  (score_pass BestMutationHistogram binomialCDF createAmbiguousBase).
Local Abbreviation scoring_loop :=
  (scoring_loop BestMutationHistogram binomialCDF createAmbiguousBase).
Local Abbreviation Polish :=
  (Polish hashFn BestMutationHistogram binomialCDF createAmbiguousBase).

Lemma score_pass_haploid cfg (ai : Integrator E) LL muts :
  Diploid cfg = false ->
  forall scoredMuts tested scored tested' ai',
  score_pass cfg ai LL muts scoredMuts tested = (Ok (scored, tested'), ai') ->
  ai' = ai /\ tested' = tested + Z.of_nat (length muts)
  /\ scored = scoredMuts ++ improving ai LL muts.
Proof.
  intros Hd. induction muts as [|mut muts IH];
    intros scoredMuts tested scored tested' ai' Hpass.
  - simpl in Hpass. injection Hpass as <- <- <-.
    simpl. rewrite app_nil_r. repeat split; lia.
  - cbn [score_pass] in Hpass. unfold score_candidate in Hpass.
    rewrite Hd in Hpass. cbn [andb] in Hpass. unfold score_plain in Hpass.
    cbn [improving flat_map]. fold (improving ai LL muts).
    destruct (Integrator_LL_mut_cases ai mut) as [(ll & Hll) | (ai1 & Hll & _)];
      rewrite Hll in Hpass; [|done].
    rewrite Hll. cbn [fst].
    destruct (Qlt_bool LL ll).
    + apply IH in Hpass as (-> & -> & ->).
      split; [done|]. split; [simpl length; lia|].
      by rewrite <- app_assoc.
    + apply IH in Hpass as (-> & -> & ->).
      split; [done|]. split; [simpl length; lia | done].
Qed.


(** *** Polish: first round *)

(** X15. With [MutationSeparation] zero [Polish] throws [std::invalid_argument]
    in its first round, once the candidates have been scored, whether or
    not a candidate improved the likelihood: [BestMutations] checks the
    separation before it looks at the candidates. *)
Theorem Polish_zero_separation cfg (ai : Integrator E) :
  MutationSeparation cfg = 0 -> 1 <= MaximumIterations cfg ->
  forall F, (valid_count ai < F)%nat ->
    Polish F ai cfg = Some (Throw invalid_argument).
Proof.
  intros Hsep Hit F HF. unfold Polish.
  destruct (Z.to_nat (MaximumIterations cfg)) as [|n] eqn:Hn; [lia|].
  cbn [Polish_loop]. unfold Polish_iteration. cbn [ps_ai ps_muts].
  destruct (scoring_loop_terminates BestMutationHistogram binomialCDF
              createAmbiguousBase cfg (Mutations_all ai (Diploid cfg))
              (valid_count ai) ai [] 0)
    as (scored & tested' & ai' & _ & _ & Hloop & _); [lia|].
  rewrite (Hloop F HF). unfold BestMutations. rewrite Hsep. done.
Qed.


End HaploidScoring.


Lemma Polish_zero_separation_witness :
  Polish poly_hash (fun _ _ _ => []) (fun _ _ => 0%Q) (fun a _ => a) 3
    (mismatch_integrator (lit "ACCT") [lit "ACGT"; lit "ACGT"])
    (mkPolishConfig 10 0 2 false)
  = Some (Throw invalid_argument).
Proof.
  apply Polish_zero_separation; [reflexivity | simpl; lia | vm_compute; lia].
Defined.


(** ** RepeatMutations proposes tandem repeats only *)

Lemma compare_eq_true (tpl : str) j i n :
  compare_eq tpl j i n = Ok true -> substr tpl j n = substr tpl i n.
Proof.
  unfold compare_eq.
  destruct (substr tpl j n) as [a|e]; [|done]. simpl.
  destruct (substr tpl i n) as [b|e]; [|done]. simpl.
  intros [= Heq]. apply bool_decide_eq_true in Heq. by subst.
Qed.

Section RepeatSound.
Variables (tpl : str) (cfg : RepeatConfig) (repeatSize start end_ : Z).
Hypothesis Hrs : 2 <= repeatSize <= MaximumRepeatSize cfg.
Hypothesis Hstart : 0 <= start.
Hypothesis Hend : 0 <= end_ <= size tpl.
Hypothesis Hfit : end_ + repeatSize < SIZE_MAX.

Lemma count_elements_sound fuel : forall i j nElem n,
  0 <= i -> j = i + nElem * repeatSize -> 1 <= nElem -> j <= end_ ->
  (forall k, 0 <= k < nElem ->
     substr tpl (i + k * repeatSize) repeatSize = substr tpl i repeatSize) ->
  count_elements fuel tpl repeatSize end_ i j nElem = Some (Ok n) ->
  nElem <= n /\ i + n * repeatSize <= end_
  /\ forall k, 0 <= k < n ->
       substr tpl (i + k * repeatSize) repeatSize = substr tpl i repeatSize.
Proof.
  induction fuel as [|fuel IH]; intros i j nElem n Hi Hj Hn Hje Hsame Hrun.
  - simpl in Hrun. destruct (_ <=? _); [done|].
    injection Hrun as <-. split; [lia|]. split; [lia | done].
  - cbn [count_elements] in Hrun.
    assert (Hw : wrap (j + repeatSize) = j + repeatSize) by (apply wrap_small; lia).
    rewrite Hw in Hrun.
    destruct (j + repeatSize <=? end_) eqn:Ele.
    2:{ injection Hrun as <-. split; [lia|]. split; [lia | done]. }
    apply Z.leb_le in Ele.
    destruct (compare_eq tpl j i repeatSize) as [[|]|e] eqn:Hcmp; simpl in Hrun.
    + rewrite (wrap_small (nElem + 1)) in Hrun by nia.
      apply compare_eq_true in Hcmp.
      apply IH in Hrun; try lia.
      * destruct Hrun as (H1 & H2 & H3). split; [lia|]. split; [lia | done].
      * intros k Hk. destruct (Z.eq_dec k nElem) as [-> | Hne].
        -- by rewrite <- Hj.
        -- apply Hsame. lia.
    + injection Hrun as <-. split; [lia|]. split; [lia | done].
    + done.
Qed.

Lemma repeat_scan_sound fuel F : forall i muts muts',
  start <= i <= end_ + 1 ->
  Forall (repeat_edit tpl cfg start end_) muts ->
  repeat_scan fuel F tpl cfg repeatSize end_ i muts = Some (Ok muts') ->
  Forall (repeat_edit tpl cfg start end_) muts'.
Proof.
  induction fuel as [|fuel IH]; intros i muts muts' Hi Hgood Hrun.
  - simpl in Hrun. destruct (_ <=? _); [done|]. by injection Hrun as <-.
  - cbn [repeat_scan] in Hrun.
    destruct (wrap (i + repeatSize) <=? end_) eqn:Ele.
    2:{ by injection Hrun as <-. }
    rewrite (wrap_small (i + repeatSize)) in Ele, Hrun by lia.
    apply Z.leb_le in Ele.
    destruct (count_elements F tpl repeatSize end_ i (i + repeatSize) 1)
      as [[n|e]|] eqn:Hcount; simpl in Hrun; try done.
    apply count_elements_sound in Hcount as (Hn1 & Hn2 & Hn3);
      [|lia | lia | lia | lia |].
    2:{ intros k Hk. replace k with 0 by lia. do 2 f_equal. lia. }
    set (i' := if 1 <? n
               then wrap (i + wrap (wrap (repeatSize * wrap (n - 1)) + 1))
               else wrap (i + 1)) in Hrun.
    assert (Hi' : start <= i' <= end_ + 1).
    { subst i'. destruct (1 <? n) eqn:E1.
      - apply Z.ltb_lt in E1.
        rewrite (wrap_small (n - 1)) by nia.
        rewrite (wrap_small (repeatSize * (n - 1))) by nia.
        rewrite (wrap_small (repeatSize * (n - 1) + 1)) by nia.
        rewrite wrap_small by nia. nia.
      - rewrite wrap_small by lia. lia. }
    destruct (MinimumElementCount cfg <=? n) eqn:Emin.
    + destruct (substr tpl i repeatSize) as [u|e] eqn:Hu; simpl in Hrun; [|done].
      apply IH in Hrun; [done | done |].
      apply Z.leb_le in Emin.
      assert (Hedit : forall m, m = Mutation_Insertion i u \/ m = Mutation_Deletion i repeatSize ->
                repeat_edit tpl cfg start end_ m).
      { intros m Hm. exists i, repeatSize, u.
        split; [done|]. split; [lia|]. split; [lia|]. split; [done|].
        split.
        { unfold substr in Hu. destruct (size tpl <? i); [done|].
          injection Hu as <-. unfold size in *. rewrite length_take, length_drop. lia. }
        split; [|done].
        exists n. split; [done|]. split; [lia|]. split; [lia|].
        unfold tandem_repeat. split; [lia|]. by rewrite Hu. }
      apply Forall_app. split; [done|].
      constructor; [apply Hedit; by left|].
      constructor; [apply Hedit; by right | constructor].
    + simpl in Hrun. by apply IH in Hrun.
Qed.

End RepeatSound.

Lemma repeat_sizes_sound (tpl : str) (cfg : RepeatConfig) (start end_ : Z) :
  0 <= start <= end_ + 1 -> 0 <= end_ <= size tpl ->
  end_ + MaximumRepeatSize cfg < SIZE_MAX ->
  forall fuel F repeatSize muts muts',
    2 <= repeatSize ->
    Forall (repeat_edit tpl cfg start end_) muts ->
    repeat_sizes fuel F tpl cfg start end_ repeatSize muts = Some (Ok muts') ->
    Forall (repeat_edit tpl cfg start end_) muts'.
Proof.
  intros Hstart Hend Hfit.
  induction fuel as [|fuel IH]; intros F repeatSize muts muts' Hrs Hgood Hrun.
  - simpl in Hrun. destruct (_ <=? _); [done|]. by injection Hrun as <-.
  - cbn [repeat_sizes] in Hrun.
    destruct (repeatSize <=? MaximumRepeatSize cfg) eqn:Ele.
    2:{ by injection Hrun as <-. }
    apply Z.leb_le in Ele.
    destruct (repeat_scan F F tpl cfg repeatSize end_ start muts)
      as [[muts1|e]|] eqn:Hscan; simpl in Hrun; try done.
    assert (Hgood1 : Forall (repeat_edit tpl cfg start end_) muts1).
    { eapply (repeat_scan_sound tpl cfg repeatSize start end_);
        [..| exact Hscan]; first [done | lia]. }
    rewrite (wrap_small (repeatSize + 1)) in Hrun by lia.
    apply IH in Hrun; [done | lia | done].
Qed.

Section RepeatMutationsSound.
Context {E : Type} `{EvaluatorOps E}.

(** X17. When [TemplateLength + MaximumRepeatSize] is below [SIZE_MAX] (so
    that neither the counter [repeatSize] nor the sums [i + repeatSize]
    wrap around), [RepeatMutations] returns, and every candidate it returns
    is the insertion or the deletion, at a site [i], of one copy of the
    unit of length [rs] found at [i], where [2 <= rs <= MaximumRepeatSize]
    and the unit is repeated from [i] on at least [MinimumElementCount]
    times in a row inside the template. The candidates are sorted by
    site. *)
Theorem RepeatMutations_tandem (ai : Integrator E) (cfg : RepeatConfig) :
  TemplateLength ai + MaximumRepeatSize cfg < SIZE_MAX ->
  exists muts,
    (forall F, (Z.to_nat (TemplateLength ai + MaximumRepeatSize cfg) < F)%nat ->
       RepeatMutations F ai cfg = Some (Ok muts))
    /\ Forall (repeat_edit (fwdTpl_ ai) cfg 0 (TemplateLength ai)) muts
    /\ ascending_Start muts.
Proof.
  intros Hfit.
  destruct (RepeatMutations_ok ai cfg Hfit) as (muts & _ & Hrun).
  exists muts. split; [done|].
  pose proof (size_nonneg (fwdTpl_ ai)) as Hn. fold (TemplateLength ai) in Hn.
  set (F := S (Z.to_nat (TemplateLength ai + MaximumRepeatSize cfg))).
  specialize (Hrun F ltac:(lia)).
  unfold RepeatMutations, RepeatMutations_into in Hrun.
  destruct ((MaximumRepeatSize cfg <? 2) || (MinimumElementCount cfg <=? 0)).
  { injection Hrun as <-. split; constructor. }
  destruct (repeat_sizes F F (fwdTpl_ ai) cfg 0 (TemplateLength ai) 2 [])
    as [[muts'|e]|] eqn:Hsizes; simpl in Hrun; try done.
  injection Hrun as <-.
  split; [|apply std_sort_ascending_Start].
  apply Forall_std_sort.
  apply (repeat_sizes_sound (fwdTpl_ ai) cfg 0 (TemplateLength ai)) in Hsizes;
    try done; try lia.
Qed.

End RepeatMutationsSound.

Lemma RepeatMutations_tandem_witness :
  exists muts,
    (forall F, (Z.to_nat (TemplateLength (mismatch_integrator (lit "ACAC") [])
                          + MaximumRepeatSize (mkRepeatConfig 2 2 5)) < F)%nat ->
       RepeatMutations F (mismatch_integrator (lit "ACAC") []) (mkRepeatConfig 2 2 5)
       = Some (Ok muts))
    /\ Forall (repeat_edit (lit "ACAC") (mkRepeatConfig 2 2 5) 0 4) muts
    /\ ascending_Start muts.
Proof.
  apply (RepeatMutations_tandem (mismatch_integrator (lit "ACAC") [])
           (mkRepeatConfig 2 2 5)).
  vm_compute. reflexivity.
Defined.

(** ** PolishRepeats: the candidate applied, the counters *)

Section RepeatSelection.
Context {E : Type} `{EvaluatorOps E}.

Lemma repeat_pass_max (ai : Integrator E) LL muts : forall bestMut best ai',
  repeat_pass ai LL muts bestMut = (Ok best, ai') ->
  ai' = ai
  /\ (forall sm, In sm (improving ai LL muts) ->
        exists b, best = Some b /\ (Score sm <= Score b)%Q)
  /\ (forall b0, bestMut = Some b0 -> exists b, best = Some b /\ (Score b0 <= Score b)%Q)
  /\ (forall b, best = Some b -> bestMut = Some b \/ In b (improving ai LL muts)).
Proof.
  induction muts as [|mut muts IH]; intros bestMut best ai' Hpass.
  - simpl in Hpass. injection Hpass as <- <-.
    split; [done|]. split; [intros sm []|]. split.
    + intros b0 ->. exists b0. split; [done | apply Qle_refl].
    + intros b ->. by left.
  - cbn [repeat_pass] in Hpass.
    cbn [improving flat_map]. fold (improving ai LL muts).
    destruct (Integrator_LL_mut_cases ai mut) as [(ll & Hll) | (ai1 & Hll & _)];
      rewrite Hll in *; [|done].
    cbn [fst].
    apply IH in Hpass as (-> & HA & HB & HC). split; [done|].
    destruct (Qlt_bool LL ll) eqn:Hgt; cbn [andb] in *.
    + destruct bestMut as [b0|].
      * destruct (Qlt_bool (Score b0) ll) eqn:Hlt.
        -- apply Qlt_bool_true_iff in Hlt.
           destruct (HB _ eq_refl) as (b & Hb & Hle). simpl in Hle.
           split; [|split].
           ++ intros sm [<- | Hsm]; [by exists b | by apply HA].
           ++ intros ? [= <-]. exists b. split; [done|].
              eapply Qle_trans; [apply Qlt_le_weak, Hlt | done].
           ++ intros b' Hb'. destruct (HC b' Hb') as [[= <-] | Hin];
                right; [by left | by right].
        -- apply Qlt_bool_false_iff in Hlt.
           destruct (HB _ eq_refl) as (b & Hb & Hle).
           split; [|split].
           ++ intros sm [<- | Hsm]; [|by apply HA].
              exists b. split; [done|]. simpl. by eapply Qle_trans.
           ++ intros ? [= <-]. by exists b.
           ++ intros b' Hb'. destruct (HC b' Hb') as [Heq | Hin];
                [by left | right; by right].
      * destruct (HB _ eq_refl) as (b & Hb & Hle). simpl in Hle.
        split; [|split].
        -- intros sm [<- | Hsm]; [by exists b | by apply HA].
        -- done.
        -- intros b' Hb'. destruct (HC b' Hb') as [[= <-] | Hin];
             right; [by left | by right].
    + simpl. split; [done|]. split; [done|]. done.
Qed.

(** X18. A pass of [PolishRepeats] over the candidates that no exception
    interrupts leaves the Integrator as it is and selects, among the
    candidates whose likelihood is strictly greater than the current one,
    one of greatest likelihood; it selects nothing exactly when there is no
    such candidate. *)
Theorem repeat_pass_selects_maximum (ai : Integrator E) LL muts best ai' :
  repeat_pass ai LL muts None = (Ok best, ai') ->
  ai' = ai
  /\ match best with
     | None => improving ai LL muts = []
     | Some b =>
       In b (improving ai LL muts)
       /\ forall sm, In sm (improving ai LL muts) -> (Score sm <= Score b)%Q
     end.
Proof.
  intros Hpass. apply repeat_pass_max in Hpass as (-> & HA & _ & HC).
  split; [done|].
  destruct best as [b|].
  - split.
    + by destruct (HC b eq_refl).
    + intros sm Hsm. by destruct (HA sm Hsm) as (b' & [= <-] & Hle).
  - destruct (improving ai LL muts) as [|sm l]; [done|].
    by destruct (HA sm ltac:(by left)) as (b' & ? & _).
Qed.

(** *** Counters *)

Lemma PolishRepeats_loop_counters F iterations :
  forall (ai : Integrator E) cfg result r ai',
  hasConverged result = false ->
  0 <= mutationsApplied result ->
  mutationsApplied result + Z.of_nat iterations <= SIZE_MAX ->
  PolishRepeats_loop F iterations ai cfg result = Some (Ok (r, ai')) ->
  mutationsApplied result <= mutationsApplied r
    <= mutationsApplied result + Z.of_nat iterations
  /\ (hasConverged r = false ->
      mutationsApplied r = mutationsApplied result + Z.of_nat iterations).
Proof.
  induction iterations as [|iterations IH]; intros ai cfg result r ai' Hc H0 Hfit Hrun.
  - simpl in Hrun. injection Hrun as <- _. lia.
  - cbn [PolishRepeats_loop] in Hrun.
    destruct (RepeatMutations F ai cfg) as [[muts|e]|]; simpl in Hrun; try done.
    destruct (repeat_scoring_loop F ai muts None 0) as [[[[best tested]|e] ai1]|];
      try done.
    destruct best as [best|].
    + destruct (fst (Integrator_ApplyMutations ai1 [sm_mut best])) as [ai2|e];
        simpl in Hrun; [|done].
      apply IH in Hrun; simpl in *; try done.
      * rewrite wrap_small in Hrun by lia. destruct Hrun as [Hr1 Hr2].
        split; [lia|]. intros Hnc. specialize (Hr2 Hnc). lia.
      * rewrite wrap_small by lia. lia.
      * rewrite wrap_small by lia. lia.
    + injection Hrun as <- _. simpl. split; [lia | done].
Qed.

(** X19. [PolishRepeats] applies one mutation in each round it completes:
    [mutationsApplied] is at most [MaximumIterations], and a result that
    does not report convergence has applied exactly [MaximumIterations]
    mutations. *)
Theorem PolishRepeats_counters F (ai : Integrator E) cfg result ai' :
  0 <= RepeatMaximumIterations cfg <= SIZE_MAX ->
  PolishRepeats F ai cfg = Some (Ok (result, ai')) ->
  0 <= mutationsApplied result <= RepeatMaximumIterations cfg
  /\ (hasConverged result = false ->
      mutationsApplied result = RepeatMaximumIterations cfg).
Proof.
  intros Hit Hrun. unfold PolishRepeats in Hrun.
  apply PolishRepeats_loop_counters in Hrun; simpl in *; try done; [|lia].
  rewrite Z2Nat.id in Hrun by lia. destruct Hrun as [Hr1 Hr2].
  split; [lia|]. intros Hnc. specialize (Hr2 Hnc). lia.
Qed.

(** X20. With repeat polishing switched off in the configuration
    ([MaximumRepeatSize] below 2 or [MinimumElementCount] zero) there are
    no candidates: [PolishRepeats] reports convergence in its first round
    and leaves the Integrator untouched. *)
Theorem PolishRepeats_switched_off F (ai : Integrator E) cfg :
  MaximumRepeatSize cfg < 2 \/ MinimumElementCount cfg <= 0 ->
  1 <= RepeatMaximumIterations cfg -> (1 <= F)%nat ->
  PolishRepeats F ai cfg = Some (Ok (mkPolishResult true 0 0, ai)).
Proof.
  intros Hoff Hit HF. unfold PolishRepeats.
  destruct (Z.to_nat (RepeatMaximumIterations cfg)) as [|n] eqn:Hn; [lia|].
  cbn [PolishRepeats_loop]. unfold RepeatMutations, RepeatMutations_into.
  assert (Hguard : (MaximumRepeatSize cfg <? 2) || (MinimumElementCount cfg <=? 0) = true).
  { apply orb_true_iff. rewrite Z.ltb_lt, Z.leb_le. done. }
  rewrite Hguard. simpl.
  destruct F as [|F']; [lia|]. done.
Qed.

End RepeatSelection.

Lemma repeat_pass_selects_maximum_witness :
  let ai := mismatch_integrator (lit "ACAC") [lit "ACACAC"] in
  let muts := [Mutation_Insertion 0 (lit "AC"); Mutation_Deletion 0 2] in
  let b := WithScore (Mutation_Insertion 0 (lit "AC")) 0%Q in
  ai = ai
  /\ (In b (improving ai (Integrator_LL ai) muts)
      /\ forall sm, In sm (improving ai (Integrator_LL ai) muts) ->
            (Score sm <= Score b)%Q).
Proof.
  intros ai muts b.
  apply (repeat_pass_selects_maximum ai (Integrator_LL ai) muts (Some b) ai).
  vm_compute. reflexivity.
Defined.

Lemma PolishRepeats_counters_witness :
  0 <= mutationsApplied (mkPolishResult true 0 1) <= 5
  /\ (hasConverged (mkPolishResult true 0 1) = false ->
      mutationsApplied (mkPolishResult true 0 1) = 5).
Proof.
  apply (PolishRepeats_counters 10
           (mismatch_integrator (lit "ACAC") [lit "ACACAC"; lit "ACACAC"])
           (mkRepeatConfig 2 2 5) (mkPolishResult true 0 1)
           (mismatch_integrator (lit "ACACAC") [lit "ACACAC"; lit "ACACAC"])).
  - unfold SIZE_MAX; simpl; lia.
  - vm_compute; reflexivity.
Defined.

Lemma PolishRepeats_switched_off_witness :
  PolishRepeats 1 (mismatch_integrator (lit "ACAC") [lit "ACACAC"])
    (mkRepeatConfig 1 2 5)
  = Some (Ok (mkPolishResult true 0 0,
              mismatch_integrator (lit "ACAC") [lit "ACACAC"])).
Proof.
  apply PolishRepeats_switched_off; [left; simpl; lia | simpl; lia | lia].
Defined.

(** ** ChemistryComparer: which keys the map takes for the same *)

(** X24. [ChemistryComparer] never puts a triple before itself, it fails to put
    [a] before [b] exactly when no field of [a] is below the field of [b],
    and so two triples neither of which comes before the other (the keys a
    [std::map] takes for the same key) are equal in all four fields. *)
Theorem ChemistryComparer_equivalent_keys (a b : ChemistryTriple) :
  ChemistryComparer a a = false
  /\ (ChemistryComparer a b = false <->
      BindingKit b <= BindingKit a /\ SequencingKit b <= SequencingKit a
      /\ MajorVersion b <= MajorVersion a /\ MinorVersion b <= MinorVersion a)
  /\ (ChemistryComparer a b = false -> ChemistryComparer b a = false -> a = b).
Proof.
  assert (Hfalse : forall x y, ChemistryComparer x y = false <->
            BindingKit y <= BindingKit x /\ SequencingKit y <= SequencingKit x
            /\ MajorVersion y <= MajorVersion x /\ MinorVersion y <= MinorVersion x).
  { intros x y. pose proof (ChemistryComparer_true_iff x y) as [Ht1 Ht2].
    destruct (ChemistryComparer x y); split; intros Hc; try done.
    - specialize (Ht1 eq_refl). lia.
    - destruct (Z_lt_le_dec (BindingKit x) (BindingKit y)) as [Hlt | _];
        [by discriminate Ht2; left|].
      destruct (Z_lt_le_dec (SequencingKit x) (SequencingKit y)) as [Hlt | _];
        [by discriminate Ht2; right; left|].
      destruct (Z_lt_le_dec (MajorVersion x) (MajorVersion y)) as [Hlt | _];
        [by discriminate Ht2; right; right; left|].
      destruct (Z_lt_le_dec (MinorVersion x) (MinorVersion y)) as [Hlt | _];
        [by discriminate Ht2; right; right; right|].
      lia. }
  split; [apply Hfalse; lia|]. split; [apply Hfalse|].
  intros Hab Hba. apply Hfalse in Hab, Hba.
  destruct a as [a1 a2 a3 a4], b as [b1 b2 b3 b4]. simpl in *.
  f_equal; lia.
Qed.

(** ** MaxElement *)

Lemma max_element_greatest {T : Type} (lt : T -> T -> bool) :
  (forall a b, lt a b = true -> lt b a = false) ->
  (forall a b c, lt a b = false -> lt b c = false -> lt a c = false) ->
  forall xs x,
    In (max_element lt x xs) (x :: xs)
    /\ forall y, In y (x :: xs) -> lt (max_element lt x xs) y = false.
Proof.
  intros Hasym Hneg.
  assert (Hirr : forall a, lt a a = false).
  { intros a. destruct (lt a a) eqn:Haa; [|done]. by rewrite (Hasym a a Haa) in Haa. }
  unfold max_element.
  induction xs as [|z xs IH]; intros x; simpl.
  - split; [by left|]. intros y [<- | []]. apply Hirr.
  - destruct (lt x z) eqn:Hxz.
    + destruct (IH z) as [Hin Hmax]. split; [by right|].
      intros y [<- | Hy]; [|by apply Hmax].
      apply (Hneg _ z); [apply Hmax; by left | by apply Hasym].
    + destruct (IH x) as [Hin Hmax]. split.
      * destruct Hin as [<- | Hin]; [by left | by right; right].
      * intros y [<- | [<- | Hy]].
        -- apply Hmax. by left.
        -- apply (Hneg _ x); [apply Hmax; by left | done].
        -- apply Hmax. by right.
Qed.

(** X25. On a vector that is not empty, and for a comparison [<] that is a
    strict weak ordering, [MaxElement] returns an element of the vector
    that no element of the vector exceeds. (On an empty vector the source
    dereferences the end iterator.) *)
Theorem MaxElement_greatest {T : Type} (lt : T -> T -> bool) (v : list T) :
  (forall a b, lt a b = true -> lt b a = false) ->
  (forall a b c, lt a b = false -> lt b c = false -> lt a c = false) ->
  v <> [] ->
  exists r, MaxElement lt v = Some r /\ In r v /\ forall y, In y v -> lt r y = false.
Proof.
  intros Hasym Hneg Hne. destruct v as [|x xs]; [done|].
  destruct (max_element_greatest lt Hasym Hneg xs x) as [Hin Hmax].
  exists (max_element lt x xs). done.
Qed.

Lemma MaxElement_greatest_witness :
  exists r, MaxElement Z.ltb [3; 7; 2; 7; 5] = Some r
    /\ In r [3; 7; 2; 7; 5] /\ forall y, In y [3; 7; 2; 7; 5] -> (r <? y) = false.
Proof.
  apply (MaxElement_greatest Z.ltb [3; 7; 2; 7; 5]).
  - intros a b. rewrite Z.ltb_lt, Z.ltb_ge. lia.
  - intros a b c. rewrite !Z.ltb_ge. lia.
  - discriminate.
Defined.

(** ** BestMutations: which candidate is picked first *)

(** [std::max_element] returns the first of the greatest elements. *)
Lemma max_element_first xs : forall x pre mid,
  (forall y, In y pre -> (Score y < Score x)%Q) ->
  (forall y, In y mid -> (Score y <= Score x)%Q) ->
  exists pre' post,
    pre ++ x :: mid ++ xs = pre' ++ max_element ScoreComparer x xs :: post
    /\ (forall y, In y pre' -> (Score y < Score (max_element ScoreComparer x xs))%Q)
    /\ (forall y, In y post -> (Score y <= Score (max_element ScoreComparer x xs))%Q).
Proof.
  unfold max_element.
  induction xs as [|z xs IH]; intros x pre mid Hpre Hmid.
  - exists pre, mid. simpl. by rewrite app_nil_r.
  - simpl. destruct (ScoreComparer x z) eqn:Hc; unfold ScoreComparer in Hc.
    + apply Qlt_bool_true_iff in Hc.
      destruct (IH z (pre ++ x :: mid) []) as (pre' & post & Heq & H1 & H2).
      * intros y Hy. apply in_app_iff in Hy as [Hy | [<- | Hy]].
        -- eapply Qlt_trans; [by apply Hpre | done].
        -- done.
        -- eapply Qle_lt_trans; [by apply Hmid | done].
      * intros y [].
      * exists pre', post. split; [|done].
        rewrite <- Heq. simpl. by rewrite <- !app_assoc.
    + apply Qlt_bool_false_iff in Hc.
      destruct (IH x pre (mid ++ [z])) as (pre' & post & Heq & H1 & H2).
      * done.
      * intros y Hy. apply in_app_iff in Hy as [Hy | [<- | []]]; [by apply Hmid | done].
      * exists pre', post. split; [|done].
        rewrite <- Heq. by rewrite <- !app_assoc.
Qed.

(** X26. The first mutation that [BestMutations] selects is the first of the
    candidates with the highest score: every candidate before it in the
    list scores strictly less, and no candidate scores more. Among
    candidates of equal score the order of the list decides. *)
Theorem BestMutations_first_pick (scoredMuts : list ScoredMutation) (separation : Z) :
  1 <= separation -> Forall (fits separation) scoredMuts -> scoredMuts <> [] ->
  exists before best after rest,
    scoredMuts = before ++ best :: after
    /\ (forall y, In y before -> (Score y < Score best)%Q)
    /\ (forall y, In y after -> (Score y <= Score best)%Q)
    /\ forall fuel, (length scoredMuts <= fuel)%nat ->
         BestMutations fuel scoredMuts separation = Some (Ok (sm_mut best :: rest)).
Proof.
  intros Hsep Hfit Hne. destruct scoredMuts as [|x xs]; [done|].
  set (best := max_element ScoreComparer x xs).
  destruct (max_element_first xs x [] []) as (before & after & Heq & H1 & H2);
    [intros y [] | intros y [] |].
  simpl in Heq. fold best in Heq, H1, H2.
  assert (Hin : In best (x :: xs)).
  { rewrite Heq. apply in_app_iff. right. by left. }
  assert (Hbest : fits separation best).
  { rewrite Forall_forall in Hfit. by apply Hfit, list_elem_of_In. }
  assert (Hbest' : fits separation (mkScored (sm_mut best) 0%Q)) by exact Hbest.
  set (remaining := List.filter
         (fun sm => negb (within separation (sm_mut best) (sm_mut sm))) (x :: xs)).
  assert (Hshort : (length remaining < length (x :: xs))%nat).
  { apply (filter_length_lt _ _ best Hin).
    rewrite within_self; [done | done | apply Hbest]. }
  destruct (BestMutations_loop_spec separation Hsep (length remaining) remaining
              ltac:(lia) (Forall_fits_filter _ _ _ Hfit))
    as (rest & _ & Hloop).
  exists before, best, after, rest.
  split; [done|]. split; [done|]. split; [done|].
  intros fuel Hfuel. unfold BestMutations.
  destruct (separation =? 0) eqn:Ez; [apply Z.eqb_eq in Ez; lia|].
  destruct fuel as [|fuel]; [simpl in Hfuel; lia|].
  cbn [BestMutations_loop]. fold best.
  rewrite remove_if_window_eq by done. fold remaining.
  rewrite Hloop by (simpl in Hfuel, Hshort; lia). done.
Qed.

Lemma BestMutations_first_pick_witness :
  let scored := [WithScore (Mutation_Substitution1 2 "A") (1 # 2);
                 WithScore (Mutation_Deletion 7 1) (3 # 2);
                 WithScore (Mutation_Insertion1 30 "C") (3 # 2)] in
  exists before best after rest,
    scored = before ++ best :: after
    /\ (forall y, In y before -> (Score y < Score best)%Q)
    /\ (forall y, In y after -> (Score y <= Score best)%Q)
    /\ forall fuel, (length scored <= fuel)%nat ->
         BestMutations fuel scored 10 = Some (Ok (sm_mut best :: rest)).
Proof.
  intros scored. apply (BestMutations_first_pick scored 10).
  - lia.
  - subst scored. repeat constructor; unfold is_size_t, SIZE_MAX, size; simpl; try lia;
      vm_compute; discriminate.
  - discriminate.
Defined.

(** ** A haploid round of Polish *)

Lemma greedy_selection_length sep l r :
  1 <= sep -> Forall (fits sep) l -> greedy_selection sep l r ->
  (length r <= length l)%nat.
Proof.
  intros Hsep Hfit Hg. induction Hg as [|remaining best rest Hin Hmax Hg IH]; [done|].
  assert (Hbest : fits sep best).
  { rewrite Forall_forall in Hfit. by apply Hfit, list_elem_of_In. }
  specialize (IH (Forall_fits_filter _ _ _ Hfit)).
  assert (Hlt : (length (List.filter
                    (fun sm => negb (within sep (sm_mut best) (sm_mut sm))) remaining)
                  < length remaining)%nat).
  { apply (filter_length_lt _ _ best Hin).
    rewrite within_self; [done | done | apply Hbest]. }
  simpl. lia.
Qed.

Lemma single_base_edit_fits sep len q m :
  single_base_edit 0 len len m -> 0 <= sep -> len + sep <= SIZE_MAX ->
  fits sep (mkScored m q).
Proof.
  intros (Hwf & _ & Hsite & Hcont & _ & _) Hsep Hmax.
  split; [done|]. simpl.
  destruct (well_formed_ranges m Hwf) as (Hs0 & Hl0 & -> & Hil).
  unfold contained in Hcont.
  destruct (IsInsertion m); [rewrite Hil by done|]; lia.
Qed.

(** Applying non-overlapping single-base edits inside the template
    succeeds and adds at most one base per edit. *)
Lemma edits_apply (tpl : str) (muts : list Mutation) :
  Forall (single_base_edit 0 (size tpl) (size tpl)) muts ->
  pairwise_nonoverlapping muts ->
  exists t, fst (ApplyMutations tpl muts) = Ok t
    /\ size t <= size tpl + Z.of_nat (length muts).
Proof.
  intros Hall Hp.
  destruct tpl as [|c tpl'] eqn:Htpl.
  { exists []. unfold ApplyMutations.
    destruct (std_sort SiteComparer muts); simpl; split; try done;
      unfold size; simpl; lia. }
  rewrite <- Htpl in *. assert (Hne : tpl <> []) by (by rewrite Htpl). clear Htpl.
  pose proof (std_sort_Permutation muts) as Hperm.
  assert (Hall' : Forall (single_base_edit 0 (size tpl) (size tpl))
                    (std_sort SiteComparer muts)) by (by rewrite Hperm).
  destruct (apply_rev_size tpl (std_sort SiteComparer muts)) as (t & Ht & Hsz & _).
  - apply std_sort_ascending_Start.
  - eapply Forall_impl; [exact Hall'|]. by intros m (? & _).
  - eapply Forall_impl; [exact Hall'|]. by intros m (_ & ? & _).
  - by apply (pairwise_nonoverlapping_Permutation muts).
  - eapply Forall_impl; [exact Hall'|]. by intros m (_ & _ & _ & ? & _).
  - assert (Hsum : sum_over (fun m => size (Bases m) - Length m)
                     (std_sort SiteComparer muts)
                   <= Z.of_nat (length (std_sort SiteComparer muts))).
    { clear -Hall'. induction Hall' as [|m l Hm _ IH]; [simpl; lia|].
      destruct Hm as (Hwf & _ & _ & _ & Hb & _).
      destruct (well_formed_ranges m Hwf) as (_ & Hl0 & _ & _).
      simpl length. simpl sum_over. lia. }
    rewrite Hperm in Hsum at 2.
    unfold ApplyMutations.
    destruct (std_sort SiteComparer muts) as [|m l] eqn:Hsort.
    + exists tpl. split; [done|]. lia.
    + destruct tpl; [done|]. exists t. split; [done|]. lia.
Qed.

Section ImprovingFacts.
Context {E : Type} `{EvaluatorOps E}.

Lemma improving_In (ai : Integrator E) LL muts sm :
  In sm (improving ai LL muts) ->
  In (sm_mut sm) muts /\ (LL < Score sm)%Q
  /\ Integrator_LL_mut ai (sm_mut sm) = (Ok (Score sm), ai).
Proof.
  induction muts as [|m muts IH]; [done|].
  cbn [improving flat_map]. fold (improving ai LL muts).
  intros Hin. apply in_app_iff in Hin as [Hin | Hin].
  - destruct (Integrator_LL_mut_cases ai m) as [(ll & Hll) | (ai1 & Hll & _)];
      rewrite Hll in Hin; cbn [fst] in Hin; [|done].
    destruct (Qlt_bool LL ll) eqn:Hlt; [|done].
    destruct Hin as [<- | []]. simpl.
    split; [by left|]. split; [by apply Qlt_bool_true_iff | done].
  - destruct (IH Hin) as (? & ? & ?). split; [by right | done].
Qed.

Lemma improving_length (ai : Integrator E) LL muts :
  (length (improving ai LL muts) <= length muts)%nat.
Proof.
  induction muts as [|m muts IH]; [done|].
  cbn [improving flat_map]. fold (improving ai LL muts).
  rewrite length_app. simpl length.
  destruct (fst (Integrator_LL_mut ai m)) as [ll|e]; [|simpl; lia].
  destruct (Qlt_bool LL ll); simpl; lia.
Qed.

End ImprovingFacts.

Section HaploidRound.
Context {E : Type} `{EvaluatorOps E}.
Variable hashFn : str -> Z.
Variable BestMutationHistogram : Integrator E -> Z -> MutationType -> list (ascii * Z).
Variable binomialCDF : Z -> Z -> Q.
Variable createAmbiguousBase : ascii -> ascii -> ascii.

Local Abbreviation Polish_iteration :=
  (Polish_iteration hashFn BestMutationHistogram binomialCDF createAmbiguousBase).

(** The step of a round after the selection, on non-overlapping
    single-base edits inside the template. *)
Lemma Polish_apply_edits cfg (st : PolishState) (muts : list Mutation) :
  let len := TemplateLength (ps_ai st) in
  muts <> [] ->
  Forall (single_base_edit 0 len len) muts -> pairwise_nonoverlapping muts ->
  len + Z.of_nat (length muts) <= SIZE_MAX ->
  exists st',
    Polish_apply hashFn cfg st muts = Ok st'
    /\ Forall (single_base_edit 0 (TemplateLength (ps_ai st')) (TemplateLength (ps_ai st')))
         (ps_muts st')
    /\ TemplateLength (ps_ai st') <= len + Z.of_nat (length muts)
    /\ hashFn (fwdTpl_ (ps_ai st')) ∈ ps_history st'
    /\ ps_history st ⊆ ps_history st'
    /\ hasConverged (ps_result st') = hasConverged (ps_result st)
    /\ mutationsTested (ps_result st') = mutationsTested (ps_result st)
    /\ exists tplAll,
         fst (ApplyMutations (fwdTpl_ (ps_ai st)) muts) = Ok tplAll
         /\ (hashFn tplAll ∉ ps_history st ->
             fwdTpl_ (ps_ai st') = tplAll
             /\ mutationsApplied (ps_result st')
                = wrap (mutationsApplied (ps_result st) + Z.of_nat (length muts)))
         /\ (hashFn tplAll ∈ ps_history st ->
             fst (ApplyMutations (fwdTpl_ (ps_ai st)) [front (std_sort SiteComparer muts)])
             = Ok (fwdTpl_ (ps_ai st'))
             /\ mutationsApplied (ps_result st')
                = wrap (mutationsApplied (ps_result st) + 1)).
Proof.
  intros len Hne Hall Hp Hfit.
  pose proof (std_sort_Permutation muts) as Hperm.
  assert (Hwf : Forall well_formed muts).
  { eapply Forall_impl; [exact Hall|]. by intros m (? & _). }
  assert (Hidem : std_sort SiteComparer (std_sort SiteComparer muts)
                  = std_sort SiteComparer muts).
  { apply (sorted_permutation_unique muts); auto using std_sort_Sorted.
    by rewrite std_sort_Permutation. }
  set (sorted := std_sort SiteComparer muts) in *.
  assert (Hall' : Forall (single_base_edit 0 len len) sorted) by (by rewrite Hperm).
  assert (Hp' : pairwise_nonoverlapping sorted)
    by (by apply (pairwise_nonoverlapping_Permutation muts)).
  assert (Hlen' : length sorted = length muts) by (by rewrite Hperm).
  destruct (edits_apply (fwdTpl_ (ps_ai st)) muts Hall Hp) as (tplAll & HtplAll & Hsz).
  unfold Polish_apply.
  assert (Happ : ApplyMutations (fwdTpl_ (ps_ai st)) muts = (Ok tplAll, sorted)).
  { rewrite <- HtplAll. unfold ApplyMutations. fold sorted.
    destruct sorted; [done|]. by destruct (fwdTpl_ (ps_ai st)). }
  rewrite Happ. cbn [bind].
  destruct sorted as [|m rest] eqn:Hsorted; [by destruct muts|].
  destruct (bool_decide (hashFn tplAll ∈ ps_history st)) eqn:Hcycle.
  - (* the cycle guard: only the front of the sorted selection is applied *)
    inversion Hall' as [|? ? Hm _]; subst.
    destruct (single_base_edit_applies (fwdTpl_ (ps_ai st)) 0 len m Hm ltac:(lia))
      as (t1 & Ht1 & Hsz1).
    assert (Hsz1' : size t1 <= len + 1).
    { destruct (fwdTpl_ (ps_ai st)) as [|c tpl'] eqn:Htpl.
      - unfold ApplyMutations in Ht1. simpl in Ht1. injection Ht1 as <-.
        unfold len, TemplateLength. rewrite Htpl. unfold size. simpl. lia.
      - rewrite Hsz1 by done. destruct Hm as (Hwfm & _ & _ & _ & Hb & _).
        destruct (well_formed_ranges m Hwfm) as (_ & Hl0 & _ & _).
        unfold len, TemplateLength. rewrite Htpl. lia. }
    unfold Integrator_ApplyMutation, Integrator_ApplyMutations. cbn [front hd].
    destruct (ApplyMutations (fwdTpl_ (ps_ai st)) [m]) as [r1 s1] eqn:Hsingle.
    simpl in Ht1. subst r1. cbn [fst bind].
    eexists. split; [reflexivity|]. cbn [ps_ai ps_muts ps_history ps_result fwdTpl_
      hasConverged mutationsTested].
    assert (Hlen1 : TemplateLength
              {| evals_ := map (fun e => ev_ApplyMutations e s1) (evals_ (ps_ai st));
                 fwdTpl_ := t1 |} <= len + Z.of_nat (length muts)).
    { unfold TemplateLength. simpl. simpl in Hlen'. lia. }
    split; [apply NearbyMutations_edits; lia|].
    split; [done|]. split; [set_solver|]. split; [set_solver|].
    split; [done|]. split; [done|].
    exists tplAll. split; [done|]. apply bool_decide_eq_true in Hcycle.
    split; [done|]. intros _. done.
  - (* all selected mutations are applied *)
    unfold Integrator_ApplyMutations.
    assert (Hagain : ApplyMutations (fwdTpl_ (ps_ai st)) (m :: rest)
                     = (Ok tplAll, m :: rest)).
    { unfold ApplyMutations in *. rewrite Hidem. fold sorted in Happ.
      by rewrite Hsorted in Happ. }
    rewrite Hagain. cbn [bind].
    eexists. split; [reflexivity|]. cbn [ps_ai ps_muts ps_history ps_result fwdTpl_
      hasConverged mutationsTested].
    assert (Hlen1 : TemplateLength
              {| evals_ := map (fun e => ev_ApplyMutations e (m :: rest))
                             (evals_ (ps_ai st));
                 fwdTpl_ := tplAll |} <= len + Z.of_nat (length muts)).
    { unfold TemplateLength. simpl. done. }
    split; [apply NearbyMutations_edits; lia|].
    split; [done|]. split; [set_solver|]. split; [set_solver|].
    split; [done|]. split; [done|].
    exists tplAll. split; [done|]. apply bool_decide_eq_false in Hcycle.
    split; [|done]. intros _. cbn [mutationsApplied].
    by rewrite <- Hlen'.
Qed.

(** X27. A round of [Polish] in haploid mode, with a separation of at least
    1, started on candidates that are single-base edits inside the template
    (as [Mutations] and [NearbyMutations] produce them), and with the
    template length plus the number of candidates plus the separation at
    most [SIZE_MAX], returns and does not throw. [BestMutations] selects
    greedily among the candidates whose likelihood exceeds the current one;
    the selected mutations do not overlap and lie inside the template, so
    [ApplyMutations] applies them. When nothing is selected the round
    reports convergence and leaves the template as it is. Otherwise the
    new template is the old one with the whole selection applied, or, when
    the fingerprint of that template is already in the history, with only
    the selected mutation of the lowest site applied; [mutationsApplied]
    grows by the number of mutations applied, the candidates of the next
    round are again single-base edits inside the new template, and the
    history holds the fingerprint of the new template. *)
Theorem Polish_round_haploid cfg (st : PolishState) :
  let ai := ps_ai st in
  let len := TemplateLength ai in
  Diploid cfg = false -> 1 <= MutationSeparation cfg ->
  len + Z.of_nat (length (ps_muts st)) + MutationSeparation cfg <= SIZE_MAX ->
  Forall (single_base_edit 0 len len) (ps_muts st) ->
  exists ai1 selected r,
    fwdTpl_ ai1 = fwdTpl_ ai
    /\ greedy_selection (MutationSeparation cfg)
         (improving ai1 (Integrator_LL ai1) (ps_muts st)) selected
    /\ (forall F, (valid_count ai + length (ps_muts st) < F)%nat ->
          Polish_iteration F cfg st = Some (Ok r))
    /\ match r with
       | inr (res, ai') =>
         selected = [] /\ ai' = ai1
         /\ hasConverged res = true /\ fwdTpl_ ai' = fwdTpl_ ai
         /\ mutationsApplied res = mutationsApplied (ps_result st)
       | inl st' =>
         selected <> []
         /\ (exists tplAll,
               fst (ApplyMutations (fwdTpl_ ai) selected) = Ok tplAll
               /\ (hashFn tplAll ∉ ps_history st ->
                   fwdTpl_ (ps_ai st') = tplAll
                   /\ mutationsApplied (ps_result st')
                      = wrap (mutationsApplied (ps_result st)
                              + Z.of_nat (length selected)))
               /\ (hashFn tplAll ∈ ps_history st ->
                   fst (ApplyMutations (fwdTpl_ ai)
                          [front (std_sort SiteComparer selected)])
                   = Ok (fwdTpl_ (ps_ai st'))
                   /\ mutationsApplied (ps_result st')
                      = wrap (mutationsApplied (ps_result st) + 1)))
         /\ Forall (single_base_edit 0 (TemplateLength (ps_ai st'))
                      (TemplateLength (ps_ai st'))) (ps_muts st')
         /\ TemplateLength (ps_ai st') <= len + Z.of_nat (length (ps_muts st))
         /\ hashFn (fwdTpl_ (ps_ai st')) ∈ ps_history st'
         /\ ps_history st ⊆ ps_history st'
         /\ hasConverged (ps_result st') = hasConverged (ps_result st)
       end.
Proof.
  intros ai len Hd Hsep Hfit Hall. subst ai.
  pose proof (size_nonneg (fwdTpl_ (ps_ai st))) as Hlen0. fold (TemplateLength (ps_ai st)) in Hlen0.
  fold len in Hlen0.
  destruct (scoring_loop_terminates BestMutationHistogram binomialCDF
              createAmbiguousBase cfg (ps_muts st) (valid_count (ps_ai st)) (ps_ai st) [] 0)
    as (scored & tested & ai1 & sc0 & t0 & Hloop & Hfinal & _ & Hcase & Htpl); [lia|].
  assert (sc0 = [] /\ t0 = 0) as (-> & ->).
  { by destruct Hcase as [(-> & -> & _) | (-> & -> & _)]. }
  apply (score_pass_haploid BestMutationHistogram binomialCDF createAmbiguousBase
           cfg ai1 _ _ Hd) in Hfinal as (_ & _ & Hscored).
  simpl in Hscored.
  assert (Hlen1 : TemplateLength ai1 = len).
  { unfold len, TemplateLength. by rewrite Htpl. }
  assert (Hin : forall sm, In sm scored -> In (sm_mut sm) (ps_muts st)).
  { intros sm Hsm. rewrite Hscored in Hsm. by apply improving_In in Hsm as (? & _). }
  assert (Hfits : Forall (fits (MutationSeparation cfg)) scored).
  { apply Forall_forall. intros sm Hsm. apply list_elem_of_In, Hin in Hsm.
    rewrite Forall_forall in Hall. apply list_elem_of_In, Hall in Hsm.
    destruct sm as [m q]. apply (single_base_edit_fits _ len); [done | lia | lia]. }
  assert (Hshort : (length scored <= length (ps_muts st))%nat).
  { rewrite Hscored. apply improving_length. }
  destruct (BestMutations_loop_spec (MutationSeparation cfg) Hsep (length scored)
              scored ltac:(lia) Hfits) as (selected & Hgreedy & Hbest).
  assert (Hsel : forall F, (valid_count (ps_ai st) + length (ps_muts st) < F)%nat ->
            BestMutations F scored (MutationSeparation cfg) = Some (Ok selected)).
  { intros F HF. unfold BestMutations.
    destruct (MutationSeparation cfg =? 0) eqn:Ez; [apply Z.eqb_eq in Ez; lia|].
    rewrite (Hbest F []) by lia. done. }
  pose proof (greedy_selection_length _ _ _ Hsep Hfits Hgreedy) as Hsellen.
  exists ai1, selected.
  destruct selected as [|m ms] eqn:Hselected.
  - eexists (inr (_, ai1)). split; [done|]. split; [by rewrite <- Hscored|]. split.
    + intros F HF. unfold Polish_iteration.
      rewrite (Hloop F) by lia. rewrite (Hsel F HF). simpl. reflexivity.
    + simpl. done.
  - rewrite <- Hselected in *.
    assert (Hedits : Forall (single_base_edit 0 len len) selected).
    { apply Forall_forall. intros x Hx. apply list_elem_of_In in Hx.
      destruct (greedy_selection_from _ _ _ Hgreedy x Hx) as (sm & Hsm & <-).
      rewrite Forall_forall in Hall. by apply Hall, list_elem_of_In, Hin. }
    destruct (greedy_selection_separated _ _ _ Hfits Hgreedy) as [Hsepd _].
    pose proof (separated_pairwise_nonoverlapping _ _ Hsep Hsepd) as Hp.
    set (st1 := mkPolishState ai1 (ps_muts st) (ps_oldTpl st) (ps_history st)
                  (mkPolishResult (hasConverged (ps_result st))
                     (wrap (mutationsTested (ps_result st) + tested))
                     (mutationsApplied (ps_result st)))).
    destruct (Polish_apply_edits cfg st1 selected)
      as (st' & Happly & H1 & H2 & H3 & H4 & H5 & _ & tplAll & Htpl1 & Hfresh & Hseen).
    { by rewrite Hselected. }
    { simpl. by rewrite Hlen1. }
    { done. }
    { simpl. rewrite Hlen1. lia. }
    exists (inl st'). split; [done|]. split; [by rewrite <- Hscored|]. split.
    + intros F HF. unfold Polish_iteration.
      rewrite (Hloop F) by lia. rewrite (Hsel F HF). simpl.
      fold st1. rewrite Happly. by rewrite Hselected.
    + simpl in *. rewrite Hlen1 in H2. rewrite Htpl in Htpl1, Hseen.
      split; [by rewrite Hselected|].
      split; [by exists tplAll|].
      repeat split; auto. lia.
Qed.

End HaploidRound.

(** The candidates [Polish] starts with. *)
Lemma Mutations_all_edits {E : Type} (ai : Integrator E) diploid :
  TemplateLength ai <= SIZE_MAX ->
  Forall (single_base_edit 0 (TemplateLength ai) (TemplateLength ai))
    (Mutations_all ai diploid).
Proof.
  intros Hmax. unfold Mutations_all, Mutations.
  pose proof (size_nonneg (fwdTpl_ ai)) as Hlen. fold (TemplateLength ai) in Hlen.
  apply Mutations_into_edits; [done | | constructor].
  split; simpl; lia.
Qed.

Lemma Polish_round_haploid_witness :
  let ai := mismatch_integrator (lit "ACCT") [lit "ACGT"; lit "ACGT"] in
  let cfg := mkPolishConfig 10 10 2 false in
  let st := mkPolishState ai (Mutations_all ai false) (poly_hash (lit "ACCT"))
              {[ poly_hash (lit "ACCT") ]} PolishResult_init in
  exists ai1 selected r,
    fwdTpl_ ai1 = fwdTpl_ ai
    /\ greedy_selection (MutationSeparation cfg)
         (improving ai1 (Integrator_LL ai1) (ps_muts st)) selected
    /\ (forall F, (valid_count ai + length (ps_muts st) < F)%nat ->
          Polish_iteration poly_hash (fun _ _ _ => []) (fun _ _ => 0%Q) (fun a _ => a)
            F cfg st = Some (Ok r))
    /\ match r with
       | inr (res, ai') =>
         selected = [] /\ ai' = ai1
         /\ hasConverged res = true /\ fwdTpl_ ai' = fwdTpl_ ai
         /\ mutationsApplied res = mutationsApplied (ps_result st)
       | inl st' =>
         selected <> []
         /\ (exists tplAll,
               fst (ApplyMutations (fwdTpl_ ai) selected) = Ok tplAll
               /\ (poly_hash tplAll ∉ ps_history st ->
                   fwdTpl_ (ps_ai st') = tplAll
                   /\ mutationsApplied (ps_result st')
                      = wrap (mutationsApplied (ps_result st)
                              + Z.of_nat (length selected)))
               /\ (poly_hash tplAll ∈ ps_history st ->
                   fst (ApplyMutations (fwdTpl_ ai)
                          [front (std_sort SiteComparer selected)])
                   = Ok (fwdTpl_ (ps_ai st'))
                   /\ mutationsApplied (ps_result st')
                      = wrap (mutationsApplied (ps_result st) + 1)))
         /\ Forall (single_base_edit 0 (TemplateLength (ps_ai st'))
                      (TemplateLength (ps_ai st'))) (ps_muts st')
         /\ TemplateLength (ps_ai st') <= TemplateLength ai + Z.of_nat (length (ps_muts st))
         /\ poly_hash (fwdTpl_ (ps_ai st')) ∈ ps_history st'
         /\ ps_history st ⊆ ps_history st'
         /\ hasConverged (ps_result st') = hasConverged (ps_result st)
       end.
Proof.
  intros ai cfg st.
  apply (Polish_round_haploid poly_hash (fun _ _ _ => []) (fun _ _ => 0%Q)
           (fun a _ => a) cfg st).
  - reflexivity.
  - simpl; lia.
  - vm_compute; discriminate.
  - apply (Mutations_all_edits ai false). vm_compute; discriminate.
Defined.

(** The ranges of [NearbyMutations] may overlap: when a range is merged
    into the previous one, [currEnd] keeps the end the previous range had
    when it was pushed, so a later range is compared with that end. With
    centers at the sites 0, 5 and 10 and a neighbourhood of 3 the ranges are
    [0, 9) and [7, 14), and the candidates of the sites 7 and 8 are proposed
    twice. *)
Example NearbyMutations_ranges_overlap :
  let centers := [Mutation_Substitution1 0 "C"; Mutation_Substitution1 5 "A";
                  Mutation_Substitution1 10 "A"] in
  let ai := mkIntegrator (@nil unit) (lit "ACGTACGTACGTACGTACGT") in
  nearby_ranges 20 3 (tl centers) centers 0
    [mutRange 20 3 (Mutation_Substitution1 0 "C") 0] 4
  = [(0, 9); (7, 14)]
  /\ ~ NoDup (NearbyMutations centers centers ai 3 false).
Proof.
  split; [vm_compute; reflexivity|].
  intros Hnd. apply (bool_decide_pack _) in Hnd. vm_compute in Hnd. done.
Qed.

(** ** Printing a Mutation *)

Lemma decimal_no_comma (n : Z) : ~ In ","%char (decimal n).
Proof.
  unfold decimal.
  assert (Hgen : forall d, ~ In ","%char
            (list_ascii_of_string (DecimalString.NilEmpty.string_of_uint d))).
  { induction d; simpl; try (intros [Hc | Hc]; [discriminate | done]). tauto. }
  destruct (N.to_uint (Z.to_N n)) eqn:Hd; try apply Hgen.
  simpl. intros [Hc | []]. discriminate.
Qed.

Lemma decimal_inj (a b : Z) : 0 <= a -> 0 <= b -> decimal a = decimal b -> a = b.
Proof.
  intros Ha Hb Heq. unfold decimal in Heq.
  apply (f_equal string_of_list_ascii) in Heq.
  rewrite !string_of_list_ascii_of_string in Heq.
  assert (Hnonnil : forall n, N.to_uint n <> Decimal.Nil).
  { intros [|p]; [discriminate|]. apply DecimalPos.Unsigned.to_uint_nonnil. }
  apply (f_equal DecimalString.NilZero.uint_of_string) in Heq.
  rewrite !DecimalString.NilZero.usu in Heq by apply Hnonnil.
  injection Heq as Heq. apply DecimalN.Unsigned.to_uint_inj in Heq. lia.
Qed.

(** Two strings that agree up to and after their first comma. *)
Lemma split_at_comma (l1 l2 r1 r2 : str) :
  ~ In ","%char l1 -> ~ In ","%char l2 ->
  l1 ++ ","%char :: r1 = l2 ++ ","%char :: r2 -> l1 = l2 /\ r1 = r2.
Proof.
  revert l2. induction l1 as [|c l1 IH]; intros [|d l2] H1 H2 Heq; simpl in *.
  - by injection Heq as <-.
  - injection Heq as <- _. exfalso. apply H2. by left.
  - injection Heq as -> _. exfalso. apply H1. by left.
  - injection Heq as <- Heq.
    destruct (IH l2) as [-> ->]; [tauto | tauto | done | done].
Qed.

(** X28. The printed form tells the mutations built by the constructors apart:
    two of them that print alike are the same mutation. *)
Theorem Mutation_to_string_inj (m1 m2 : Mutation) :
  constructed m1 -> constructed m2 ->
  Mutation_to_string m1 = Mutation_to_string m2 -> m1 = m2.
Proof.
  intros ((Hs1 & _) & (Hl1 & _) & Hty1) ((Hs2 & _) & (Hl2 & _) & Hty2) Heq.
  destruct m1 as [b1 t1 s1 l1], m2 as [b2 t2 s2 l2].
  unfold Mutation_to_string, IsDeletion, IsInsertion, Start, Length, Bases in Heq.
  simpl in *.
  destruct t1, t2; simpl in Heq; try discriminate Heq.
  - (* two deletions *)
    repeat (injection Heq as Heq).
    apply split_at_comma in Heq as [Hs Hl]; [|apply decimal_no_comma..].
    apply decimal_inj in Hs; [|done..]. injection Hl as Hl.
    apply app_inv_tail in Hl. apply decimal_inj in Hl; [|done..].
    congruence.
  - (* two insertions *)
    repeat (injection Heq as Heq).
    apply split_at_comma in Heq as [Hs Hb]; [|apply decimal_no_comma..].
    apply decimal_inj in Hs; [|done..]. injection Hb as Hb.
    apply app_inv_tail in Hb. congruence.
  - (* two substitutions *)
    repeat (injection Heq as Heq).
    apply split_at_comma in Heq as [Hs Hb]; [|apply decimal_no_comma..].
    apply decimal_inj in Hs; [|done..]. injection Hb as Hb.
    apply app_inv_tail in Hb. congruence.
Qed.

Lemma Mutation_to_string_inj_witness :
  Mutation_Substitution 3 (lit "AC") = mkMutation (lit "AC") SUBSTITUTION 3 2.
Proof.
  apply Mutation_to_string_inj; try reflexivity;
    repeat split; vm_compute; (reflexivity || discriminate).
Defined.

Example Mutation_to_string_examples :
  Mutation_to_string (Mutation_Deletion 12 3) = lit "Mutation::Deletion(12, 3)"
  /\ Mutation_to_string (Mutation_Insertion 0 (lit "AC"))
     = lit "Mutation::Insertion(0, " ++ [dquote] ++ lit "AC" ++ [dquote] ++ lit ")".
Proof. split; reflexivity. Qed.

